(** * ChatBOT: the conversation store, the response formatter and the
      stream decoder of the browser chat client, embedded in Rocq.

    Sources: [src/js/App.js] (class [StateManager], and the former class
    [ChatApp]), [src/js/ui.js] ([UIManager]), [src/js/app.js] ([ChatApp])
    and [src/js/api.js] ([ApiService]).

    JavaScript strings are sequences of UTF-16 code units: a string is a
    [list N].  The built-ins the code calls ([trim], [split],
    [substring], [startsWith], [parseInt], the three regular expressions,
    [JSON.parse], [JSON.stringify], [TextDecoder]) and the property reads
    on plain objects are written out after ECMA-262 and the WHATWG
    Encoding standard. *)

From Stdlib Require Import String Ascii.
From Stdlib Require Import List NArith ZArith Lia Bool.
From Stdlib Require Strings.Byte.
From Stdlib Require Import DecimalN DecimalZ.
Import ListNotations.

(* [length], [concat] are the list functions throughout. *)
Abbreviation length := Datatypes.length (only parsing).
Abbreviation concat := List.concat (only parsing).

Set Implicit Arguments.

(* ================================================================== *)
(** ** JavaScript strings *)
(* ================================================================== *)

Module JS.

(** A string value: its UTF-16 code units. *)
Definition str : Type := list N.

(** An ASCII literal as a string value. *)
Definition lit (s : String.string) : str :=
  map (fun a => N_of_ascii a) (String.list_ascii_of_string s).
Arguments lit s%_string.

(** A literal in which every apostrophe stands for a double quote (U+0022);
    used to write JSON texts. *)
Definition dq (s : String.string) : str :=
  map (fun c => if N.eqb c 39 then 34%N else c) (lit s).
Arguments dq s%_string.

Definition LF : N := 10.
Definition BULLET : N := 8226.      (* U+2022 *)

Fixpoint str_eqb (a b : str) : bool :=
  match a, b with
  | [], [] => true
  | x :: a', y :: b' => N.eqb x y && str_eqb a' b'
  | _, _ => false
  end.

(** [s.startsWith(p)] *)
Fixpoint startsWith (p s : str) : bool :=
  match p, s with
  | [], _ => true
  | x :: p', y :: s' => N.eqb x y && startsWith p' s'
  | _ :: _, [] => false
  end.

(** [s.substring(n)] and [s.substring(0, n)] for a non-negative [n]. *)
Definition substringFrom (n : nat) (s : str) : str := skipn n s.
Definition substringTo (n : nat) (s : str) : str := firstn n s.

(** LineTerminator: LF, CR, LS, PS. *)
Definition isLineTerminator (c : N) : bool :=
  N.eqb c 10 || N.eqb c 13 || N.eqb c 8232 || N.eqb c 8233.

(** WhiteSpace and LineTerminator code units: what [trim] strips and what
    [\s] matches. *)
Definition isWhiteSpace (c : N) : bool :=
  (N.leb 9 c && N.leb c 13) || N.eqb c 32 || N.eqb c 160 || N.eqb c 5760
  || (N.leb 8192 c && N.leb c 8202) || N.eqb c 8232 || N.eqb c 8233
  || N.eqb c 8239 || N.eqb c 8287 || N.eqb c 12288 || N.eqb c 65279.

(** [\d] *)
Definition isDigit (c : N) : bool := N.leb 48 c && N.leb c 57.

Fixpoint trimStart (s : str) : str :=
  match s with
  | c :: s' => if isWhiteSpace c then trimStart s' else s
  | [] => []
  end.

Definition trimEnd (s : str) : str := rev (trimStart (rev s)).

(** [s.trim()] *)
Definition trim (s : str) : str := trimEnd (trimStart s).

(** [s.split(sep)] for a non-empty separator: the pieces between the
    successive leftmost occurrences of [sep]; [cur] is the piece being read,
    reversed. *)
Fixpoint split_go (sep : str) (cur : str) (fuel : nat) (s : str) : list str :=
  match fuel with
  | O => [rev cur ++ s]
  | S fuel' =>
      match s with
      | [] => [rev cur]
      | c :: s' =>
          if startsWith sep s
          then rev cur :: split_go sep [] fuel' (skipn (length sep) s)
          else split_go sep (c :: cur) fuel' s'
      end
  end.

Definition split (sep s : str) : list str := split_go sep [] (length s) s.

(** The decimal digits of a [Decimal.uint] as code units. *)
Fixpoint unitsOfUint (d : Decimal.uint) : str :=
  match d with
  | Decimal.Nil => []
  | Decimal.D0 d' => 48%N :: unitsOfUint d'
  | Decimal.D1 d' => 49%N :: unitsOfUint d'
  | Decimal.D2 d' => 50%N :: unitsOfUint d'
  | Decimal.D3 d' => 51%N :: unitsOfUint d'
  | Decimal.D4 d' => 52%N :: unitsOfUint d'
  | Decimal.D5 d' => 53%N :: unitsOfUint d'
  | Decimal.D6 d' => 54%N :: unitsOfUint d'
  | Decimal.D7 d' => 55%N :: unitsOfUint d'
  | Decimal.D8 d' => 56%N :: unitsOfUint d'
  | Decimal.D9 d' => 57%N :: unitsOfUint d'
  end.

(** The longest prefix of decimal digits of [s], as a [Decimal.uint]. *)
Fixpoint uintOfUnits (s : str) : Decimal.uint :=
  match s with
  | [] => Decimal.Nil
  | c :: s' =>
      if N.eqb c 48 then Decimal.D0 (uintOfUnits s')
      else if N.eqb c 49 then Decimal.D1 (uintOfUnits s')
      else if N.eqb c 50 then Decimal.D2 (uintOfUnits s')
      else if N.eqb c 51 then Decimal.D3 (uintOfUnits s')
      else if N.eqb c 52 then Decimal.D4 (uintOfUnits s')
      else if N.eqb c 53 then Decimal.D5 (uintOfUnits s')
      else if N.eqb c 54 then Decimal.D6 (uintOfUnits s')
      else if N.eqb c 55 then Decimal.D7 (uintOfUnits s')
      else if N.eqb c 56 then Decimal.D8 (uintOfUnits s')
      else if N.eqb c 57 then Decimal.D9 (uintOfUnits s')
      else Decimal.Nil
  end.

(** [String(t)] / [`${t}`] for an integer Number [t] below 2^53 in
    magnitude (every time value is, and every index and count met here):
    its decimal digits, with a minus sign when negative. *)
Definition stringOfInt (t : Z) : str :=
  match Z.to_int t with
  | Decimal.Pos d => unitsOfUint d
  | Decimal.Neg d => 45%N :: unitsOfUint d
  end.

Definition hexValue (c : N) : option N :=
  if isDigit c then Some (c - 48)%N
  else if N.leb 97 c && N.leb c 102 then Some (c - 87)%N
  else if N.leb 65 c && N.leb c 70 then Some (c - 55)%N
  else None.

(** The value of the longest prefix of hexadecimal digits, and whether
    there was one. *)
Fixpoint hexPrefix (acc : N) (seen : bool) (s : str) : option N :=
  match s with
  | c :: s' =>
      match hexValue c with
      | Some v => hexPrefix (acc * 16 + v)%N true s'
      | None => if seen then Some acc else None
      end
  | [] => if seen then Some acc else None
  end.

(** [parseInt(s)] with no radix, as the mathematical integer read; [None]
    is NaN.  The Number that JavaScript returns is this integer rounded to
    a double ([toNumber] below), the same value whenever its magnitude is
    at most 2^53. *)
Definition parseInt (s : str) : option Z :=
  let s1 := trimStart s in
  let (neg, s2) :=
    match s1 with
    | 45%N :: r => (true, r)
    | 43%N :: r => (false, r)
    | _ => (false, s1)
    end in
  let magnitude :=
    match s2 with
    | 48%N :: 120%N :: r => hexPrefix 0 false r
    | 48%N :: 88%N :: r => hexPrefix 0 false r
    | c :: _ => if isDigit c then Some (N.of_uint (uintOfUnits s2)) else None
    | [] => None
    end in
  match magnitude with
  | Some m => Some (if neg then (- Z.of_N m)%Z else Z.of_N m)
  | None => None
  end.

(** *** Numbers

    A Number is a double.  An integer below 2^53 in magnitude is a double
    and is written as the integer it is; [toNumber] is the rounding that
    [parseInt] ends with, for an integer of any size. *)

(** An integral Number, or an infinity. *)
Inductive number : Type :=
| Finite (value : Z)
| Infinite (negative : bool).

(** [n] rounded to 53 significant bits, ties to even: [n] itself below
    2^53, and otherwise its 53 leading bits [q], one more if the [e] bits
    cut off are more than half a unit of [q], or half a unit and [q] is
    odd. *)
Definition roundTo53 (n : N) : N :=
  let e := (N.log2 n - 52)%N in
  let q := N.shiftr n e in
  let r := N.land n (N.ones e) in
  let half := N.shiftl 1 (e - 1) in
  if N.eqb e 0 then n
  else if N.ltb half r || (N.eqb r half && N.odd q)
       then N.shiftl (q + 1) e
       else N.shiftl q e.

(** The Number an integer denotes: the nearest double, and an infinity
    from 2^1024 on after the rounding.  This is the Number [parseInt]
    returns for the integer it has read (the engines round a decimal
    integer of any length to the nearest double). *)
Definition toNumber (z : Z) : number :=
  let m := roundTo53 (Z.abs_N z) in
  if N.leb 1024 (N.log2 m) then Infinite (Z.ltb z 0)
  else Finite (if Z.ltb z 0 then (- Z.of_N m)%Z else Z.of_N m).

(** [a - b < 0] for two such Numbers.  The difference of two doubles has
    the sign of their exact difference; the difference of two equal
    infinities is NaN, which is not below zero. *)
Definition differenceNegative (a b : number) : bool :=
  match a, b with
  | Finite x, Finite y => Z.ltb x y
  | Finite _, Infinite negative => negb negative
  | Infinite negative, Finite _ => negative
  | Infinite na, Infinite nb => na && negb nb
  end.

(** *** Calls that throw *)

(** How a call ends: it returns a value, or it throws.  The errors thrown
    by the code modelled are TypeErrors, raised by reading a property of
    [undefined]. *)
Inductive completion (A : Type) : Type :=
| Returned (value : A)
| Thrown.
Arguments Returned {A} value.
Arguments Thrown {A}.

End JS.


(* ================================================================== *)
(** ** The conversation store: [StateManager] of [src/js/App.js] *)
(* ================================================================== *)

Module StateManager.
Import JS.

(** One turn: [{ role, content }]. *)
Record message : Type := Message { role : str; content : str }.

(** One conversation: [{ id, title, messages, systemPrompt }]. *)
Record chat : Type := Chat {
  id : str;
  title : str;
  messages : list message;
  systemPrompt : str
}.

Record settings : Type := Settings {
  fontSize : Z;
  maxTokens : Z;
  showThoughts : bool
}.

(** The argument of [updateSettings]: an object holding some of the keys. *)
Record settingsPatch : Type := SettingsPatch {
  newFontSize : option Z;
  newMaxTokens : option Z;
  newShowThoughts : option bool
}.

(** [this.state].  [chats] is a plain object used as a map from id to
    conversation: the list holds its own properties in the order
    [Object.keys] lists them (creation order), one entry per key.
    [activeChatId] is a string or [null]. *)
Record state : Type := State {
  chats : list (str * chat);
  activeChatId : option str;
  stateSettings : settings
}.

(** The own property [k] of [chats], if there is one. *)
Fixpoint lookup (k : str) (m : list (str * chat)) : option chat :=
  match m with
  | [] => None
  | (k', v) :: m' => if str_eqb k k' then Some v else lookup k m'
  end.

(** The names of the members that [chats], a plain object, inherits from
    [Object.prototype] (ECMA-262, sections 20.1.3 and B.2.2). *)
Definition OBJECT_PROTOTYPE_KEYS : list str :=
  [lit "constructor"; lit "__defineGetter__"; lit "__defineSetter__";
   lit "hasOwnProperty"; lit "__lookupGetter__"; lit "__lookupSetter__";
   lit "isPrototypeOf"; lit "propertyIsEnumerable"; lit "toString";
   lit "valueOf"; lit "__proto__"; lit "toLocaleString"].

Definition inheritedKey (k : str) : bool :=
  existsb (str_eqb k) OBJECT_PROTOTYPE_KEYS.

(** What [chats[k]] reads: a conversation, when [k] is an own property;
    or else an inherited member, when [k] names one -- a function, or for
    [__proto__] the prototype itself: a truthy value without [messages],
    [title] or [systemPrompt]; or else [undefined]. *)
Inductive member : Type :=
| Conversation (c : chat)
| Inherited
| Undefined.

Definition memberAt (k : str) (m : list (str * chat)) : member :=
  match lookup k m with
  | Some c => Conversation c
  | None => if inheritedKey k then Inherited else Undefined
  end.

(** [!!chats[k]] *)
Definition truthyMember (v : member) : bool :=
  match v with
  | Undefined => false
  | _ => true
  end.

(** [m[k] = v]: an existing key keeps its place, a new key goes last. *)
Fixpoint assign (k : str) (v : chat) (m : list (str * chat)) : list (str * chat) :=
  match m with
  | [] => [(k, v)]
  | (k', v') :: m' =>
      if str_eqb k k' then (k, v) :: m' else (k', v') :: assign k v m'
  end.

(** [delete m[k]] *)
Definition remove (k : str) (m : list (str * chat)) : list (str * chat) :=
  filter (fun e => negb (str_eqb k (fst e))) m.

(** [Object.keys(m)] *)
Definition keys (m : list (str * chat)) : list str := map fst m.

(** The property key a value of [activeChatId] denotes: [null] reads the
    property named "null". *)
Definition propertyKey (a : option str) : str :=
  match a with
  | Some k => k
  | None => lit "null"
  end.

(** [getActiveChat()]: [this.state.chats[this.state.activeChatId]] *)
Definition getActiveChat (s : state) : member :=
  memberAt (propertyKey (activeChatId s)) (chats s).

Definition getActiveChatId (s : state) : option str := activeChatId s.

(** The integer that [parseInt(k.split('_')[1])] reads in an id, the
    timestamp the id embeds; [None] is NaN (also when the id has no
    underscore: [parseInt(undefined)]).  The Number that [parseInt]
    returns is [toNumber] of this integer. *)
Definition embeddedTimestamp (k : str) : option Z :=
  match split (lit "_") k with
  | _ :: t :: _ => parseInt t
  | _ => None
  end.

(** The comparator [(a, b) => parseInt(b.split('_')[1]) - parseInt(a.split('_')[1])]
    is negative, putting [a] first, exactly when both timestamps are
    Numbers and the difference of [b]'s and [a]'s is below zero; a NaN
    difference counts as zero. *)
Definition sortsBefore (a b : str) : bool :=
  match embeddedTimestamp a, embeddedTimestamp b with
  | Some ta, Some tb => differenceNegative (toNumber tb) (toNumber ta)
  | _, _ => false
  end.

(** [Array.prototype.sort] with that comparator: a stable sort, written as
    an insertion sort (an element goes after the ones that sort before it
    or tie with it and came earlier).  When every id carries a timestamp,
    or none does, the comparator is consistent and this is the order the
    standard requires.  When only some do, the standard leaves the order
    to the implementation; the result is then a permutation of the ids,
    and no more is used of it. *)
Fixpoint insertSorted (x : str) (l : list str) : list str :=
  match l with
  | [] => [x]
  | y :: l' => if sortsBefore y x then y :: insertSorted x l' else x :: l
  end.

Definition sortByTimestampDesc (l : list str) : list str :=
  fold_right insertSorted [] l.

(** [setActiveChat(chatId)]; the argument is a string, or [None] for
    [null]/[undefined]. *)
Definition setActiveChat (chatId : option str) (s : state) : state :=
  let usable :=
    match chatId with
    | Some k => negb (str_eqb k []) && truthyMember (memberAt k (chats s))
    | None => false
    end in
  if negb usable then
    let chatIds := keys (chats s) in
    State (chats s)
          (match sortByTimestampDesc chatIds with
           | first :: _ => Some first
           | [] => None
           end)
          (stateSettings s)
  else State (chats s) chatId (stateSettings s).

Definition defaultTitle : str := lit "Nuevo Chat".
Definition defaultSystemPrompt : str := lit "Eres un asistente servicial y profesional.".

(** [`chat_${Date.now()}`] *)
Definition chatIdOf (now : Z) : str := lit "chat_" ++ stringOfInt now.

(** [createNewChat()]; [now] is what [Date.now()] returns.  The result is
    the state with the new id. *)
Definition createNewChat (now : Z) (s : state) : state * str :=
  let newChatId := chatIdOf now in
  let s1 := State (assign newChatId
                          (Chat newChatId defaultTitle [] defaultSystemPrompt)
                          (chats s))
                  (activeChatId s) (stateSettings s) in
  (setActiveChat (Some newChatId) s1, newChatId).

(** [deleteChat(chatIdToDelete)]; [now] is read only if a conversation has
    to be created. *)
Definition deleteChat (chatIdToDelete : str) (now : Z) (s : state) : state :=
  let wasActive :=
    match activeChatId s with
    | Some a => str_eqb a chatIdToDelete
    | None => false
    end in
  let s1 := State (remove chatIdToDelete (chats s))
                  (activeChatId s) (stateSettings s) in
  if wasActive then
    let remainingChatIds := keys (chats s1) in
    match sortByTimestampDesc remainingChatIds with
    | first :: _ => setActiveChat (Some first) s1
    | [] => fst (createNewChat now s1)
    end
  else s1.

(** The title [addMessage] derives from a first user message:
    [content.substring(0, 30) + (content.length > 30 ? '...' : '')]. *)
Definition deriveTitle (content : str) : str :=
  substringTo 30 content ++ (if Nat.ltb 30 (length content) then lit "..." else []).

(** [addMessage(role, content)]: the state afterwards and how the call
    ends; a returned [None] is [undefined].  [activeChat] is the object
    stored in [chats], so the push and the title assignment change the
    store.  An inherited member passes the test [!activeChat] and has no
    [messages]: [activeChat.messages.push] throws. *)
Definition addMessage (role content : str) (s : state)
  : state * completion (option str) :=
  match getActiveChat s with
  | Undefined => (s, Returned None)
  | Inherited => (s, Thrown)
  | Conversation activeChat =>
      let messages' := messages activeChat ++ [Message role content] in
      let title' :=
        if Nat.eqb (length messages') 1 && str_eqb role (lit "user")
        then deriveTitle content
        else title activeChat in
      let activeChat' := Chat (id activeChat) title' messages' (systemPrompt activeChat) in
      (State (assign (propertyKey (activeChatId s)) activeChat' (chats s))
             (activeChatId s) (stateSettings s),
       Returned (Some title'))
  end.

(** [messages.splice(index, 1)] for an index in range. *)
Fixpoint splice1 (index : nat) (l : list message) : list message :=
  match index, l with
  | _, [] => []
  | O, _ :: l' => l'
  | S i, x :: l' => x :: splice1 i l'
  end.

(** [deleteMessage(index)]: the state afterwards and how the call ends.
    A negative index, or one past the end, reads [undefined] and nothing
    happens.  For an inherited member [activeChat.messages[index]] throws. *)
Definition deleteMessage (index : Z) (s : state) : state * completion unit :=
  match getActiveChat s with
  | Undefined => (s, Returned tt)
  | Inherited => (s, Thrown)
  | Conversation activeChat =>
      if (Z.leb 0 index && Z.ltb index (Z.of_nat (length (messages activeChat))))%bool
      then
        let activeChat' :=
          Chat (id activeChat) (title activeChat)
               (splice1 (Z.to_nat index) (messages activeChat))
               (systemPrompt activeChat) in
        (State (assign (propertyKey (activeChatId s)) activeChat' (chats s))
               (activeChatId s) (stateSettings s),
         Returned tt)
      else (s, Returned tt)
  end.

(** [updateSystemPrompt(prompt)].  For an inherited member the assignment
    [activeChat.systemPrompt = prompt] writes a property of that member,
    an object that is no part of the state: the state stays as it is. *)
Definition updateSystemPrompt (prompt : str) (s : state) : state :=
  match getActiveChat s with
  | Undefined => s
  | Inherited => s
  | Conversation activeChat =>
      let activeChat' :=
        Chat (id activeChat) (title activeChat) (messages activeChat) prompt in
      State (assign (propertyKey (activeChatId s)) activeChat' (chats s))
            (activeChatId s) (stateSettings s)
  end.

(** [updateSettings(newSettings)]: [{ ...this.state.settings, ...newSettings }] *)
Definition updateSettings (p : settingsPatch) (s : state) : state :=
  let old := stateSettings s in
  State (chats s) (activeChatId s)
        (Settings
           (match newFontSize p with Some v => v | None => fontSize old end)
           (match newMaxTokens p with Some v => v | None => maxTokens old end)
           (match newShowThoughts p with Some v => v | None => showThoughts old end)).

(** The state [_initState] builds when nothing was saved. *)
Definition defaultState : state :=
  State [] None (Settings 3 2048 false).

End StateManager.

(* ================================================================== *)
(** ** The response formatter: [_formatAssistantContent] of [src/js/ui.js] *)
(* ================================================================== *)

Module Formatter.
Import JS.

(** *** [protectedBlockRegex]

    [/(```[\s\S]*?```|(?:\n|^)(?:\|.*?\n){2,})/g].  A matcher takes the text
    from the position tried and returns the matched text with what follows
    it. *)

Definition BACKTICK : N := 96.
Definition PIPE : N := 124.
Definition fence : str := [BACKTICK; BACKTICK; BACKTICK].

(** [[\s\S]*?```]: lazily any units up to the first closing fence. *)
Fixpoint closeFence (s : str) : option (str * str) :=
  match s with
  | [] => None
  | c :: s' =>
      if startsWith fence s then Some (fence, skipn 3 s)
      else match closeFence s' with
           | Some (m, r) => Some (c :: m, r)
           | None => None
           end
  end.

(** The first alternative: an opening fence, then [closeFence]. *)
Definition matchFence (s : str) : option (str * str) :=
  if startsWith fence s then
    match closeFence (skipn 3 s) with
    | Some (m, r) => Some (fence ++ m, r)
    | None => None
    end
  else None.

(** [.*?\n]: units other than line terminators, up to the first LF. *)
Fixpoint restOfLine (s : str) : option (str * str) :=
  match s with
  | [] => None
  | c :: s' =>
      if N.eqb c LF then Some ([c], s')
      else if isLineTerminator c then None
      else match restOfLine s' with
           | Some (m, r) => Some (c :: m, r)
           | None => None
           end
  end.

(** [\|.*?\n]: one table line. *)
Definition tableLine (s : str) : option (str * str) :=
  match s with
  | c :: s' =>
      if N.eqb c PIPE then
        match restOfLine s' with
        | Some (m, r) => Some (c :: m, r)
        | None => None
        end
      else None
  | [] => None
  end.

(** Greedy repetition of [tableLine]: how many lines, their text, the rest. *)
Fixpoint tableLines (fuel : nat) (s : str) : nat * str * str :=
  match fuel with
  | O => (O, [], s)
  | S fuel' =>
      match tableLine s with
      | Some (m, r) =>
          let '(n, m', r') := tableLines fuel' r in (S n, m ++ m', r')
      | None => (O, [], s)
      end
  end.

(** [(?:\|.*?\n){2,}] *)
Definition twoOrMoreLines (s : str) : option (str * str) :=
  let '(n, m, r) := tableLines (length s) s in
  if Nat.leb 2 n then Some (m, r) else None.

(** The second alternative, [(?:\n|^)(?:\|.*?\n){2,}]: an LF then the
    lines, or else, at the start of the text only, the lines alone. *)
Definition matchTable (atStart : bool) (s : str) : option (str * str) :=
  let afterLF :=
    match s with
    | c :: s' =>
        if N.eqb c LF then
          match twoOrMoreLines s' with
          | Some (m, r) => Some (c :: m, r)
          | None => None
          end
        else None
    | [] => None
    end in
  match afterLF with
  | Some x => Some x
  | None => if atStart then twoOrMoreLines s else None
  end.

Definition matchProtected (atStart : bool) (s : str) : option (str * str) :=
  match matchFence s with
  | Some x => Some x
  | None => matchTable atStart s
  end.

(** [text.split(protectedBlockRegex)]: the pieces between the successive
    leftmost matches, each followed by the match itself (the regex is one
    capture group), and the piece after the last match.  [cur] is the piece
    being read, reversed. *)
Fixpoint split_go (fuel : nat) (atStart : bool) (cur : str) (s : str) : list str :=
  match fuel with
  | O => [rev cur ++ s]
  | S fuel' =>
      match s with
      | [] => [rev cur]
      | c :: s' =>
          match matchProtected atStart s with
          | Some (m, r) => rev cur :: m :: split_go fuel' false [] r
          | None => split_go fuel' false (c :: cur) s'
          end
      end
  end.

Definition splitProtected (text : str) : list str :=
  split_go (S (length text)) true [] text.

(** *** The list-marker regex [/^\s*([*-]|\d+\.)\s+/gm] *)

(** [\d*], greedy: what follows the digits. *)
Fixpoint skipDigits (s : str) : str :=
  match s with
  | c :: s' => if isDigit c then skipDigits s' else s
  | [] => []
  end.

(** [([*-]|\d+\.)] *)
Definition marker (s : str) : option str :=
  match s with
  | c :: s' =>
      if N.eqb c 42 || N.eqb c 45 then Some s'
      else if isDigit c then
        match skipDigits s' with
        | d :: r => if N.eqb d 46 then Some r else None
        | [] => None
        end
      else None
  | [] => None
  end.

(** [\s+] after its first unit [last]: the last unit matched and the rest. *)
Fixpoint whiteSpaceRun (last : N) (s : str) : N * str :=
  match s with
  | c :: s' => if isWhiteSpace c then whiteSpaceRun c s' else (last, s)
  | [] => (last, [])
  end.

(** The regex tried at a line start: whether the match ends on a line
    terminator (the next position is then a line start again), and the
    rest. *)
Definition matchBullet (s : str) : option (bool * str) :=
  match marker (trimStart s) with
  | Some (c :: r) =>
      if isWhiteSpace c then
        let (last, rest) := whiteSpaceRun c r in
        Some (isLineTerminator last, rest)
      else None
  | _ => None
  end.

(** [.replace(/^\s*([*-]|\d+\.)\s+/gm, '• ')]: every leftmost match, found
    at a line start (the start of the text or after a line terminator),
    becomes a bullet and a space. *)
Fixpoint replaceBullets_go (fuel : nat) (lineStart : bool) (s : str) : str :=
  match fuel with
  | O => s
  | S fuel' =>
      match s with
      | [] => []
      | c :: s' =>
          match (if lineStart then matchBullet s else None) with
          | Some (endsLine, rest) =>
              BULLET :: 32%N :: replaceBullets_go fuel' endsLine rest
          | None => c :: replaceBullets_go fuel' (isLineTerminator c) s'
          end
      end
  end.

Definition replaceBullets (s : str) : str :=
  replaceBullets_go (length s) true s.

(** *** The three line-break replacements *)

Definition BR : str := lit "<br>".

(** [.replace(/\n\n+/g, '<br>')]: [inRun] says the units before were LFs
    of a run already replaced. *)
Fixpoint replaceBlankLines (inRun : bool) (s : str) : str :=
  match s with
  | [] => []
  | c :: s' =>
      if N.eqb c LF then
        if inRun then replaceBlankLines true s'
        else if startsWith [LF] s' then BR ++ replaceBlankLines true s'
        else c :: replaceBlankLines false s'
      else c :: replaceBlankLines false s'
  end.

(** [.replace(/\n/g, '<br>')] *)
Fixpoint replaceLineBreaks (s : str) : str :=
  match s with
  | [] => []
  | c :: s' =>
      if N.eqb c LF then BR ++ replaceLineBreaks s' else c :: replaceLineBreaks s'
  end.

(** [.replace(/<br>/g, '\n\n')] *)
Fixpoint replaceBR (s : str) : str :=
  match s with
  | c1 :: ((c2 :: c3 :: c4 :: r) as s') =>
      if N.eqb c1 60 && N.eqb c2 98 && N.eqb c3 114 && N.eqb c4 62
      then LF :: LF :: replaceBR r
      else c1 :: replaceBR s'
  | c :: s' => c :: replaceBR s'
  | [] => []
  end.

(** *** [_formatAssistantContent] *)

(** The callback of [parts.map]. *)
Definition formatPart (index : nat) (part : str) : str :=
  match part with
  | [] => []
  | _ =>
      if Nat.odd index then part
      else
        let formattedText := trim (replaceBullets part) in
        if Nat.ltb 0 (length formattedText)
        then replaceBR (replaceLineBreaks (replaceBlankLines false formattedText))
        else formattedText
  end.

Fixpoint mapi_from {A B : Type} (i : nat) (f : nat -> A -> B) (l : list A) : list B :=
  match l with
  | [] => []
  | x :: l' => f i x :: mapi_from (S i) f l'
  end.

Definition _formatAssistantContent (text : str) : str :=
  match text with
  | [] => []
  | _ =>
      let parts := splitProtected text in
      let formattedParts := mapi_from 0 formatPart parts in
      trim (concat formattedParts)
  end.

(** The protected blocks of a text: the parts at odd indices. *)
Fixpoint oddParts (parts : list str) : list str :=
  match parts with
  | _ :: b :: rest => b :: oddParts rest
  | _ => []
  end.

Definition protectedBlocks (text : str) : list str :=
  oddParts (splitProtected text).

End Formatter.

(* ================================================================== *)
(** ** [new TextDecoder()]: the streaming UTF-8 decoder *)
(* ================================================================== *)

Module TextDecoder.
Import JS.

(** The state kept between [decode(value, { stream: true })] calls: the
    UTF-8 decoder's variables (WHATWG Encoding, section 9.1.1) and the
    "BOM seen" flag of the [TextDecoder] object. *)
Record decoder : Type := Decoder {
  codePoint : N;
  bytesSeen : N;
  bytesNeeded : N;
  lowerBoundary : N;
  upperBoundary : N;
  bomSeen : bool
}.

Definition initial : decoder := Decoder 0 0 0 128 191 false.

Definition inRange (lo hi b : N) : bool := N.leb lo b && N.leb b hi.

Definition REPLACEMENT : N := 65533.    (* U+FFFD *)

(** A byte read while no sequence is pending: the next variables and the
    code points emitted. *)
Definition leadByte (seenBOM : bool) (b : N) : decoder * list N :=
  if inRange 0 127 b then (Decoder 0 0 0 128 191 seenBOM, [b])
  else if inRange 194 223 b then
    (Decoder (N.land b 31) 0 1 128 191 seenBOM, [])
  else if inRange 224 239 b then
    (Decoder (N.land b 15) 0 2
             (if N.eqb b 224 then 160 else 128)
             (if N.eqb b 237 then 159 else 191) seenBOM, [])
  else if inRange 240 244 b then
    (Decoder (N.land b 7) 0 3
             (if N.eqb b 240 then 144 else 128)
             (if N.eqb b 244 then 143 else 191) seenBOM, [])
  else (Decoder 0 0 0 128 191 seenBOM, [REPLACEMENT]).

(** The UTF-8 decoder's handler for one byte.  A byte outside the expected
    range ends the pending sequence with U+FFFD and is then read again as a
    lead byte. *)
Definition handleByte (d : decoder) (b : N) : decoder * list N :=
  if N.eqb (bytesNeeded d) 0 then leadByte (bomSeen d) b
  else if negb (inRange (lowerBoundary d) (upperBoundary d) b) then
    let (d', out) := leadByte (bomSeen d) b in (d', REPLACEMENT :: out)
  else
    let cp := N.lor (N.shiftl (codePoint d) 6) (N.land b 63) in
    let seen := (bytesSeen d + 1)%N in
    if N.eqb seen (bytesNeeded d)
    then (Decoder 0 0 0 128 191 (bomSeen d), [cp])
    else (Decoder cp seen (bytesNeeded d) 128 191 (bomSeen d), []).

(** A code point as UTF-16 code units. *)
Definition utf16 (cp : N) : str :=
  if N.ltb cp 65536 then [cp]
  else let v := (cp - 65536)%N in
       [(55296 + N.shiftr v 10)%N; (56320 + N.land v 1023)%N].

(** Serializing the emitted code points: the first one ever emitted sets
    "BOM seen" and is dropped if it is U+FEFF. *)
Fixpoint serialize (seenBOM : bool) (cps : list N) : bool * str :=
  match cps with
  | [] => (seenBOM, [])
  | cp :: cps' =>
      let (seen', out) := serialize true cps' in
      if negb seenBOM && N.eqb cp 65279 then (seen', out)
      else (seen', utf16 cp ++ out)
  end.

(** [decoder.decode(value, { stream: true })]: the bytes of [value] go
    through the handler; what the decoder holds at the end of the chunk
    stays pending for the next call. *)
Fixpoint decode (d : decoder) (value : list Byte.byte) : decoder * str :=
  match value with
  | [] => (d, [])
  | b :: value' =>
      let (d1, cps) := handleByte d (Byte.to_N b) in
      let (seen, out1) := serialize (bomSeen d1) cps in
      let d2 := Decoder (codePoint d1) (bytesSeen d1) (bytesNeeded d1)
                        (lowerBoundary d1) (upperBoundary d1) seen in
      let (d3, out2) := decode d2 value' in
      (d3, out1 ++ out2)
  end.

(** [decoder.decode()], the flushing call: a pending sequence becomes
    U+FFFD.  [_processStream] never makes this call. *)
Definition flush (d : decoder) : str :=
  if N.eqb (bytesNeeded d) 0 then []
  else snd (serialize (bomSeen d) [REPLACEMENT]).

End TextDecoder.

(* ================================================================== *)
(** ** [JSON.parse] and the values it returns *)
(* ================================================================== *)

Module JSON.
Import JS.

(** A JSON number as written: sign, the integer spelled by its integer and
    fraction digits, and the power of ten that scales it. *)
Record jnumber : Type := JNum {
  negative : bool;
  mantissa : N;
  exponent10 : Z
}.

#[warnings="-register-all"] Inductive json : Type :=
| JNull
| JBool (b : bool)
| JNumber (n : jnumber)
| JString (s : str)
| JArray (elements : list json)
| JObject (members : list (str * json)).

(** JSON whitespace: tab, LF, CR, space. *)
Definition isJsonWs (c : N) : bool :=
  N.eqb c 9 || N.eqb c 10 || N.eqb c 13 || N.eqb c 32.

Fixpoint skipWs (s : str) : str :=
  match s with
  | c :: s' => if isJsonWs c then skipWs s' else s
  | [] => []
  end.

(** The digits at the head of [s], and the rest. *)
Fixpoint takeDigits (s : str) : str * str :=
  match s with
  | c :: s' =>
      if isDigit c then let (ds, r) := takeDigits s' in (c :: ds, r)
      else ([], s)
  | [] => ([], [])
  end.

Definition valueOfDigits (ds : str) : N := N.of_uint (uintOfUnits ds).

(** [int]: a zero, or a non-zero digit and further digits. *)
Definition parseIntPart (s : str) : option (str * str) :=
  match s with
  | c :: s' =>
      if N.eqb c 48 then Some ([c], s')
      else if isDigit c then Some (takeDigits s)
      else None
  | [] => None
  end.

(** [frac]: nothing, or a point and one digit at least. *)
Definition parseFraction (s : str) : option (str * str) :=
  match s with
  | c :: s' =>
      if N.eqb c 46 then
        match takeDigits s' with
        | ([], _) => None
        | (ds, r) => Some (ds, r)
        end
      else Some ([], s)
  | [] => Some ([], [])
  end.

(** [exp]: nothing, or [e]/[E], a sign if any, and one digit at least. *)
Definition parseExponent (s : str) : option (Z * str) :=
  match s with
  | c :: s' =>
      if N.eqb c 101 || N.eqb c 69 then
        let (neg, s'') :=
          match s' with
          | sg :: t => if N.eqb sg 45 then (true, t)
                       else if N.eqb sg 43 then (false, t) else (false, s')
          | [] => (false, s')
          end in
        match takeDigits s'' with
        | ([], _) => None
        | (ds, r) =>
            let e := Z.of_N (valueOfDigits ds) in
            Some (if neg then (- e)%Z else e, r)
        end
      else Some (0%Z, s)
  | [] => Some (0%Z, [])
  end.

Definition parseNumber (s : str) : option (jnumber * str) :=
  let (neg, s1) :=
    match s with
    | c :: s' => if N.eqb c 45 then (true, s') else (false, s)
    | [] => (false, s)
    end in
  match parseIntPart s1 with
  | Some (ints, s2) =>
      match parseFraction s2 with
      | Some (fracs, s3) =>
          match parseExponent s3 with
          | Some (e, s4) =>
              Some (JNum neg (valueOfDigits (ints ++ fracs))
                         (e - Z.of_nat (length fracs))%Z, s4)
          | None => None
          end
      | None => None
      end
  | None => None
  end.

(** The unit a one-letter escape stands for. *)
Definition simpleEscape (e : N) : option N :=
  if N.eqb e 34 then Some 34%N            (* quotation mark *)
  else if N.eqb e 92 then Some 92%N       (* reverse solidus *)
  else if N.eqb e 47 then Some 47%N       (* solidus *)
  else if N.eqb e 98 then Some 8%N        (* b: backspace *)
  else if N.eqb e 102 then Some 12%N      (* f: form feed *)
  else if N.eqb e 110 then Some 10%N      (* n: line feed *)
  else if N.eqb e 114 then Some 13%N      (* r: carriage return *)
  else if N.eqb e 116 then Some 9%N       (* t: tab *)
  else None.

Definition hex4 (h1 h2 h3 h4 : N) : option N :=
  match hexValue h1, hexValue h2, hexValue h3, hexValue h4 with
  | Some a, Some b, Some c, Some d => Some (((a * 16 + b) * 16 + c) * 16 + d)%N
  | _, _, _, _ => None
  end.

Definition consResult (c : N) (x : option (str * str)) : option (str * str) :=
  match x with
  | Some (m, r) => Some (c :: m, r)
  | None => None
  end.

(** A string after its opening quote: its value and what follows the
    closing quote. *)
Fixpoint parseString (s : str) : option (str * str) :=
  match s with
  | [] => None
  | c :: s' =>
      if N.eqb c 34 then Some ([], s')
      else if N.eqb c 92 then
        match s' with
        | e :: s'' =>
            if N.eqb e 117 then
              match s'' with
              | h1 :: h2 :: h3 :: h4 :: r =>
                  match hex4 h1 h2 h3 h4 with
                  | Some u => consResult u (parseString r)
                  | None => None
                  end
              | _ => None
              end
            else
              match simpleEscape e with
              | Some u => consResult u (parseString s'')
              | None => None
              end
        | [] => None
        end
      else if N.ltb c 32 then None
      else consResult c (parseString s')
  end.

(** A value with the whitespace before it; then, after a value, the
    elements of an array up to its bracket and the members of an object up
    to its brace. *)
Fixpoint parseValue (fuel : nat) (s : str) : option (json * str) :=
  match fuel with
  | O => None
  | S fuel' =>
      match skipWs s with
      | [] => None
      | c :: r =>
          if N.eqb c 123 then
            match skipWs r with
            | c' :: r' =>
                if N.eqb c' 125 then Some (JObject [], r')
                else match parseMembers fuel' r with
                     | Some (ms, r'') => Some (JObject ms, r'')
                     | None => None
                     end
            | [] => None
            end
          else if N.eqb c 91 then
            match skipWs r with
            | c' :: r' =>
                if N.eqb c' 93 then Some (JArray [], r')
                else match parseElements fuel' r with
                     | Some (vs, r'') => Some (JArray vs, r'')
                     | None => None
                     end
            | [] => None
            end
          else if N.eqb c 34 then
            match parseString r with
            | Some (v, r') => Some (JString v, r')
            | None => None
            end
          else if startsWith (lit "true") (c :: r) then Some (JBool true, skipn 4 (c :: r))
          else if startsWith (lit "false") (c :: r) then Some (JBool false, skipn 5 (c :: r))
          else if startsWith (lit "null") (c :: r) then Some (JNull, skipn 4 (c :: r))
          else match parseNumber (c :: r) with
               | Some (n, r') => Some (JNumber n, r')
               | None => None
               end
      end
  end
with parseElements (fuel : nat) (s : str) : option (list json * str) :=
  match fuel with
  | O => None
  | S fuel' =>
      match parseValue fuel' s with
      | Some (v, r) =>
          match skipWs r with
          | c :: r' =>
              if N.eqb c 44 then
                match parseElements fuel' r' with
                | Some (vs, r'') => Some (v :: vs, r'')
                | None => None
                end
              else if N.eqb c 93 then Some ([v], r')
              else None
          | [] => None
          end
      | None => None
      end
  end
with parseMembers (fuel : nat) (s : str) : option (list (str * json) * str) :=
  match fuel with
  | O => None
  | S fuel' =>
      match skipWs s with
      | q :: r0 =>
          if N.eqb q 34 then
            match parseString r0 with
            | Some (k, r1) =>
                match skipWs r1 with
                | colon :: r2 =>
                    if N.eqb colon 58 then
                      match parseValue fuel' r2 with
                      | Some (v, r3) =>
                          match skipWs r3 with
                          | c :: r4 =>
                              if N.eqb c 44 then
                                match parseMembers fuel' r4 with
                                | Some (ms, r5) => Some ((k, v) :: ms, r5)
                                | None => None
                                end
                              else if N.eqb c 125 then Some ([(k, v)], r4)
                              else None
                          | [] => None
                          end
                      | None => None
                      end
                    else None
                | [] => None
                end
            | None => None
            end
          else None
      | [] => None
      end
  end.

(** Every call above has read a unit for each two it spends of [fuel]. *)
Definition fuelFor (s : str) : nat := 2 * length s + 2.

(** [JSON.parse(text)]; [None] is the SyntaxError it throws. *)
Definition parse (text : str) : option json :=
  match parseValue (fuelFor text) text with
  | Some (v, r) =>
      match skipWs r with
      | [] => Some v
      | _ :: _ => None
      end
  | None => None
  end.

(** *** Reading the parsed value as [_processStream] does *)

(** [o[name]] for an own property of an object [JSON.parse] built; an
    array, a string, a number or a boolean has no property of the names
    read here ("choices", "delta", "content"), and the last of several
    members with one name is the one kept.  [None] is [undefined]. *)
Fixpoint lookupMember (name : str) (ms : list (str * json)) : option json :=
  match ms with
  | [] => None
  | (k, v) :: ms' =>
      match lookupMember name ms' with
      | Some v' => Some v'
      | None => if str_eqb name k then Some v else None
      end
  end.

Definition getNamed (name : str) (j : json) : option json :=
  match j with
  | JObject ms => lookupMember name ms
  | _ => None
  end.

(** [v[0]] for a value other than [null]: the member "0", the first
    element, the first unit of a string. *)
Definition getIndex0 (j : json) : option json :=
  match j with
  | JObject ms => lookupMember (lit "0") ms
  | JArray (v :: _) => Some v
  | JString (c :: _) => Some (JString [c])
  | _ => None
  end.

(** Truthiness.  A number is falsy when it is zero: when its digits are, or
    it is so small that the nearest double is zero (at most 2^-1075). *)
Definition numberIsZero (n : jnumber) : bool :=
  N.eqb (mantissa n) 0 ||
  (Z.ltb (exponent10 n) 0 &&
   Z.leb (Z.of_N (mantissa n) * 2 ^ 1075) (10 ^ (- exponent10 n)))%Z.

Definition truthy (j : json) : bool :=
  match j with
  | JNull => false
  | JBool b => b
  | JNumber n => negb (numberIsZero n)
  | JString s => match s with [] => false | _ => true end
  | JArray _ => true
  | JObject _ => true
  end.

Fixpoint joinWith (sep : str) (l : list str) : str :=
  match l with
  | [] => []
  | [x] => x
  | x :: l' => x ++ sep ++ joinWith sep l'
  end.

Fixpoint sequence (l : list (option str)) : option (list str) :=
  match l with
  | [] => Some []
  | Some x :: l' =>
      match sequence l' with Some xs => Some (x :: xs) | None => None end
  | None :: _ => None
  end.

Section Conversions.

(** [Number.prototype.toString] renders the double nearest to the number;
    that rounding is outside this development, which takes the rendering
    as given. *)
Variable Number_toString : jnumber -> str.

(** The string [fullResponse += content] appends; [None] is the TypeError
    of an object that has a member named "toString" (never callable). *)
Fixpoint toString (j : json) : option str :=
  match j with
  | JNull => Some (lit "null")
  | JBool true => Some (lit "true")
  | JBool false => Some (lit "false")
  | JNumber n => Some (Number_toString n)
  | JString s => Some s
  | JArray vs =>
      match sequence (map (fun v => match v with
                                    | JNull => Some []
                                    | _ => toString v
                                    end) vs) with
      | Some xs => Some (joinWith (lit ",") xs)
      | None => None
      end
  | JObject ms =>
      match lookupMember (lit "toString") ms with
      | Some _ => None
      | None => Some (lit "[object Object]")
      end
  end.

End Conversions.

(** The rendering of a number that is an integer written without fraction
    or exponent, below 2^53 in magnitude: its digits. *)
Definition integerToString (n : jnumber) : str :=
  if N.eqb (mantissa n) 0 then lit "0"
  else stringOfInt ((if negative n then -1 else 1) * Z.of_N (mantissa n) * 10 ^ exponent10 n)%Z.

End JSON.

(* ================================================================== *)
(** ** The stream decoder: [_processStream] of [src/js/app.js] *)
(* ================================================================== *)

Module StreamDecoder.
Import JS JSON.

Section ProcessStream.

Variable Number_toString : jnumber -> str.

(** [json.choices[0]?.delta?.content]: the outer [None] is the TypeError of
    reading a property of [null] or [undefined], the inner one is
    [undefined]. *)
Definition deltaContent (j : json) : option (option json) :=
  match j with
  | JNull => None                             (* null.choices *)
  | _ =>
      match getNamed (lit "choices") j with
      | None | Some JNull => None             (* undefined[0], null[0] *)
      | Some choices =>
          match getIndex0 choices with
          | None | Some JNull => Some None    (* ?. on a nullish value *)
          | Some first =>
              match getNamed (lit "delta") first with
              | None | Some JNull => Some None
              | Some delta => Some (getNamed (lit "content") delta)
              end
          end
      end
  end.

(** What the body of the [for] loop does with one line. *)
Inductive lineEffect : Type :=
| Skip                      (* not a data line, or no content: nothing *)
| Break                     (* the sentinel: [break] *)
| Append (content : str)    (* [fullResponse += content] *)
| LogError (data : str).    (* the [catch]: [console.error(..., data)] *)

Definition DATA_MARKER : str := lit "data: ".
Definition DONE : str := lit "[DONE]".

Definition processLine (line : str) : lineEffect :=
  if startsWith DATA_MARKER line then
    let data := substringFrom 6 line in
    if str_eqb (trim data) DONE then Break
    else
      match JSON.parse data with
      | None => LogError data
      | Some json =>
          match deltaContent json with
          | None => LogError data
          | Some None => Skip
          | Some (Some content) =>
              if truthy content then
                match toString Number_toString content with
                | Some text => Append text
                | None => LogError data
                end
              else Skip
          end
      end
  else Skip.

(** The text accumulated so far and what [console.error] was given.  The
    redraw requests ([frameRequested], [requestAnimationFrame]) act on the
    page only and are left out. *)
Record progress : Type := Progress {
  fullResponse : str;
  errorLog : list str
}.

(** [for (const line of lines) { ... }] *)
Fixpoint forLines (lines : list str) (p : progress) : progress :=
  match lines with
  | [] => p
  | line :: rest =>
      match processLine line with
      | Skip => forLines rest p
      | Break => p
      | Append content =>
          forLines rest (Progress (fullResponse p ++ content) (errorLog p))
      | LogError data =>
          forLines rest (Progress (fullResponse p) (errorLog p ++ [data]))
      end
  end.

Definition EVENT_DELIMITER : str := [LF; LF].

(** One turn of the [while] loop for a chunk that was read. *)
Definition processChunk (chunk : str) (p : progress) : progress :=
  forLines (split EVENT_DELIMITER chunk) p.

(** [while (true) { ... }] over the reads of the stream: the chunks it
    delivers, then [done].  The result is the state at the [break]: the
    decoder as the last chunk left it, and the progress. *)
Fixpoint readLoop (decoder : TextDecoder.decoder) (p : progress)
    (reads : list (list Byte.byte)) : TextDecoder.decoder * progress :=
  match reads with
  | [] => (decoder, p)
  | value :: more =>
      let (decoder', chunk) := TextDecoder.decode decoder value in
      readLoop decoder' (processChunk chunk p) more
  end.

(** [_processStream(stream, messageWrapper)]: the returned [fullResponse]. *)
Definition _processStream (reads : list (list Byte.byte)) : str :=
  fullResponse (snd (readLoop TextDecoder.initial (Progress [] []) reads)).

End ProcessStream.

(** The bytes of a string of code units below 128. *)
Definition asciiBytes (s : str) : list Byte.byte :=
  map (fun c => match Byte.of_N c with Some b => b | None => Byte.x00 end) s.

End StreamDecoder.

(* ================================================================== *)
(** ** The page: [UIManager] of [src/js/ui.js] *)
(* ================================================================== *)

From Stdlib Require QArith Qround.
From Stdlib Require Import Permutation Sorted.

Module UIManager.
Import JS StateManager.

(** [parseInt(s, 10)]: leading white space, a sign, then the longest run
    of decimal digits; no hexadecimal prefix is looked for.  [None] is
    NaN. *)
Definition parseIntRadix10 (s : str) : option Z :=
  let s1 := trimStart s in
  let (neg, s2) :=
    match s1 with
    | 45%N :: r => (true, r)
    | 43%N :: r => (false, r)
    | _ => (false, s1)
    end in
  match s2 with
  | c :: _ =>
      if isDigit c
      then let m := Z.of_N (N.of_uint (uintOfUnits s2)) in
           Some (if neg then (- m)%Z else m)
      else None
  | [] => None
  end.

(** *** [renderChatList(chats, activeChatId)] *)

(** One [li] of the list: [dataset.chatId], whether its class is the one
    of the active entry, and the text of its title [span]. *)
Record listItem : Type := ListItem {
  itemChatId : str;
  itemActive : bool;
  itemTitle : str
}.

(** [chatId === activeChatId] *)
Definition isActiveId (chatId : str) (activeChatId : option str) : bool :=
  match activeChatId with
  | Some a => str_eqb chatId a
  | None => false
  end.

(** [chatIds.forEach(chatId => { const chat = chats[chatId]; ... })] for
    ids that are keys of [chats], as those of [renderChatList] are:
    [chats[chatId]] reads an own property.  [None] is the TypeError of
    reading [chat.title] of [undefined]. *)
Fixpoint forEachChatId (chats : list (str * chat)) (activeChatId : option str)
    (chatIds : list str) : option (list listItem) :=
  match chatIds with
  | [] => Some []
  | chatId :: rest =>
      match lookup chatId chats with
      | Some chat =>
          match forEachChatId chats activeChatId rest with
          | Some items =>
              Some (ListItem chatId (isActiveId chatId activeChatId) (title chat) :: items)
          | None => None
          end
      | None => None
      end
  end.

(** The items [renderChatList] leaves in [dom.chatList]. *)
Definition renderChatList (chats : list (str * chat)) (activeChatId : option str)
  : option (list listItem) :=
  let chatIds := keys chats in
  match chatIds with
  | [] => Some []
  | _ => forEachChatId chats activeChatId (sortByTimestampDesc chatIds)
  end.

(** *** [updateTokenCount(messages)] *)

(** [messages.reduce((sum, msg) => sum + msg.content.length, 0)] *)
Definition totalChars (messages : list message) : Z :=
  fold_left (fun sum msg => (sum + Z.of_nat (length (content msg)))%Z) messages 0%Z.

(** [Math.ceil(totalChars / 4)]: the quotient is a rational, exactly the
    double JavaScript computes (a division by four of an integer below
    2^53 is exact). *)
Definition estimatedTokens (messages : list message) : Z :=
  Qround.Qceiling (QArith_base.Qmake (totalChars messages) 4).

(** The text [updateTokenCount] writes into [dom.tokenCount]. *)
Definition updateTokenCount (messages : list message) : str :=
  lit "Tokens: " ++ stringOfInt (estimatedTokens messages).

(** *** The message bubbles *)

(** One [div.message-bubble]: [dataset.messageIndex], the sender label,
    whether the class [justify-end] was added, and the text handed to
    [marked.parse] for the body. *)
Record bubble : Type := Bubble {
  messageIndex : str;
  senderLabel : str;
  justifyEnd : bool;
  body : str
}.

Definition LABEL_USER : str := [84; 250; 58]%N.        (* "Tú:" *)
Definition LABEL_ASSISTANT : str := lit "IA:".

(** [_createMessageWrapper(role, index)] for an integer [index]; the body
    is empty. *)
Definition _createMessageWrapper (role : str) (index : Z) : bubble :=
  let isUser := str_eqb role (lit "user") in
  Bubble (stringOfInt index)
         (if isUser then LABEL_USER else LABEL_ASSISTANT)
         isUser [].

(** [appendMessage(role, content, index)]: the bubble added to the log. *)
Definition appendMessage (role content : str) (index : Z) : bubble :=
  let messageWrapper := _createMessageWrapper role index in
  let processedContent :=
    if str_eqb role (lit "assistant")
    then Formatter._formatAssistantContent content else content in
  Bubble (messageIndex messageWrapper) (senderLabel messageWrapper)
         (justifyEnd messageWrapper) processedContent.

(** [createAssistantMessagePlaceholder(index)] *)
Definition createAssistantMessagePlaceholder (index : Z) : bubble :=
  _createMessageWrapper (lit "assistant") index.

(** What [renderChatContent] writes. *)
Record chatView : Type := ChatView {
  chatTitle : str;
  systemPromptInput : str;
  chatLog : list bubble;
  tokenCount : str
}.

(** [chat.messages.forEach((message, index) => this.appendMessage(...))] *)
Fixpoint forEachMessage (index : Z) (messages : list message) : list bubble :=
  match messages with
  | [] => []
  | message :: rest =>
      appendMessage (role message) (content message) index
        :: forEachMessage (index + 1)%Z rest
  end.

(** [renderChatContent(chat)]: what it has written when it returns.  For
    an inherited member, which is truthy and has no [messages],
    [chat.messages.forEach] throws. *)
Definition renderChatContent (chat : member) : completion chatView :=
  match chat with
  | Undefined => Returned (ChatView (lit "Chat") [] [] (updateTokenCount []))
  | Inherited => Thrown
  | Conversation chat =>
      Returned (ChatView (title chat) (systemPrompt chat)
                         (forEachMessage 0 (messages chat))
                         (updateTokenCount (messages chat)))
  end.

(** *** [applySettings(settings)] *)

(** [sizeMap]: the name and the pixel size of the sizes 1 to 5. *)
Definition sizeMap (sizeValue : option Z) : option (str * str) :=
  match sizeValue with
  | Some 1%Z => Some (lit "Peque" ++ [241%N] ++ lit "o", lit "13px")   (* "Pequeño" *)
  | Some 2%Z => Some (lit "Normal", lit "14px")
  | Some 3%Z => Some (lit "Mediano", lit "16px")
  | Some 4%Z => Some (lit "Grande", lit "18px")
  | Some 5%Z => Some (lit "Enorme", lit "20px")
  | _ => None
  end.

(** What [applySettings] writes for the font size: the [fontSize] style of
    the page and the text beside the slider. *)
Record fontView : Type := FontView {
  appFontSize : str;
  fontSizeName : str
}.

Section ApplySettings.

(** [String(n)] for an integer Number [n]: [parseInt] converts
    [settings.fontSize] to a string first.  It is [stringOfInt n] for [n]
    below 2^53 in magnitude; greater integers are written with the
    digits that tell them from the neighbouring doubles, then zeros, and
    from 10^21 on with an exponent part. *)
Variable Number_toString : Z -> str.

Definition applySettings (settings : settings) : fontView :=
  let sizeValue := parseIntRadix10 (Number_toString (fontSize settings)) in
  FontView (match sizeMap sizeValue with
            | Some (_, px) => px
            | None => lit "16px"
            end)
           (match sizeMap sizeValue with
            | Some (name, _) => name
            | None => lit "Mediano"
            end).

End ApplySettings.

End UIManager.

(* ================================================================== *)
(** ** The controller: [ChatApp] of [src/js/app.js] *)
(* ================================================================== *)

Module ChatApp.
Import JS StateManager UIManager.

(** *** [_getApiKey()] *)

(** [!apiKey] for a value that is a string, [null] or [undefined]. *)
Definition missing (apiKey : option str) : bool :=
  match apiKey with
  | None | Some [] => true
  | Some (_ :: _) => false
  end.

(** [!apiKey || apiKey.startsWith('%')] *)
Definition unusable (apiKey : option str) : bool :=
  match apiKey with
  | None | Some [] => true
  | Some k => startsWith [37%N] k
  end.

(** [_getApiKey()]: [windowKey] is [window.HUGGING_FACE_API_KEY], [stored]
    the item [hf_api_key_local] of [localStorage], [answer] what [prompt]
    returns if it is shown.  The result is the returned key ([None] is
    [null]) and the item afterwards. *)
Definition _getApiKey (windowKey stored answer : option str)
  : option str * option str :=
  let '(apiKey, stored') :=
    if unusable windowKey then
      if missing stored
      then (answer, if missing answer then stored else answer)
      else (stored, stored)
    else (windowKey, stored) in
  if unusable apiKey then (None, stored') else (apiKey, stored').

(** *** The store operations behind the buttons

    Each gives the store afterwards and how the call ends. *)

(** [_setActiveChat(chatId)]: the store operation, then the list and the
    content of the active conversation are rendered. *)
Definition _setActiveChat (chatId : option str) (s : state) : state * completion unit :=
  let state := setActiveChat chatId s in
  match renderChatList (chats state) (activeChatId state),
        renderChatContent (memberAt (propertyKey (activeChatId state)) (chats state)) with
  | Some _, Returned _ => (state, Returned tt)
  | _, _ => (state, Thrown)
  end.

(** [_createNewChat()] *)
Definition _createNewChat (now : Z) (s : state) : state * completion unit :=
  let s1 := fst (createNewChat now s) in
  _setActiveChat (getActiveChatId s1) s1.

(** [_deleteChat(chatIdToDelete)]; [confirmed] is what [confirm] returns. *)
Definition _deleteChat (confirmed : bool) (chatIdToDelete : str) (now : Z)
    (s : state) : state * completion unit :=
  if negb confirmed then (s, Returned tt)
  else
    let s1 := deleteChat chatIdToDelete now s in
    _setActiveChat (getActiveChatId s1) s1.

(** [_init()], after [_getApiKey].  What follows the first call -- the
    list is rendered again and the settings are applied -- throws
    nothing and leaves the store alone. *)
Definition _init (now : Z) (s : state) : state * completion unit :=
  let r :=
    match keys (chats s) with
    | [] => _createNewChat now s
    | _ => _setActiveChat (activeChatId s) s
    end in
  match snd r, renderChatList (chats (fst r)) (activeChatId (fst r)) with
  | Returned _, Some _ => (fst r, Returned tt)
  | _, _ => (fst r, Thrown)
  end.

(** [_deleteMessage(button)] for the button of a bubble: the store
    afterwards and the view rendered from it.  An index that [parseInt]
    cannot read is NaN: [deleteMessage] finds no turn there and does
    nothing, or throws as for any index when the active member is an
    inherited one. *)
Definition _deleteMessage (bubble : bubble) (s : state) : state * completion chatView :=
  let deleted :=
    match parseIntRadix10 (messageIndex bubble) with
    | Some index => deleteMessage index s
    | None =>
        match getActiveChat s with
        | Inherited => (s, Thrown)
        | _ => (s, Returned tt)
        end
    end in
  match snd deleted with
  | Returned _ => (fst deleted, renderChatContent (getActiveChat (fst deleted)))
  | Thrown => (fst deleted, Thrown)
  end.

(** *** [_prepareApiPayload()] and [_handleFormSubmit(e)] *)

(** The [messages] of the payload; [None] is the TypeError of reading
    [activeChat.systemPrompt] without an active conversation, or of
    spreading the [messages] of an inherited member. *)
Definition _prepareApiPayload (s : state) : option (list message) :=
  match getActiveChat s with
  | Conversation activeChat =>
      Some (Message (lit "system") (systemPrompt activeChat)
              :: map (fun m => Message (role m) (content m)) (messages activeChat))
  | _ => None
  end.

(** How the request ends: a response with a body that delivers the given
    reads, a response without one, or a rejection with an error message
    (from [query], or from a read of the body). *)
Inductive outcome : Type :=
| Streamed (reads : list (list Byte.byte))
| NoBody
| Rejected (message : str).

Definition NO_VALID_RESPONSE : str :=
  lit "Error: No se recibi" ++ [243%N] ++ lit " una respuesta v" ++ [225%N]
      ++ lit "lida de la API.".

Definition errorTextOf (message : str) : str :=
  lit "Lo siento, ha ocurrido un error: " ++ message.

(** What a submit leaves behind: the store, the payload handed to
    [apiService.query] if the call was made, and whether the handler ended
    by throwing. *)
Record submitted : Type := Submitted {
  store : state;
  sent : option (list message);
  threw : bool
}.

Section HandleFormSubmit.

Variable Number_toString : JSON.jnumber -> str.

(** [_handleFormSubmit(e)], run without another handler in between:
    [inputValue] and [promptValue] are the values of the two text fields,
    [hasApiService] says whether [this.apiService] is set, and [query]
    stands for the service, returning how the request made with a payload
    ends. *)
Definition _handleFormSubmit (inputValue promptValue : str) (hasApiService : bool)
    (query : list message -> outcome) (s : state) : submitted :=
  let userInput := trim inputValue in
  if match userInput with [] => true | _ => false end || negb hasApiService
  then Submitted s None false
  else
    let s1 := updateSystemPrompt promptValue s in
    match addMessage (lit "user") userInput s1 with
    | (s2, Thrown) => Submitted s2 None true
    | (s2, Returned _) =>
        match getActiveChat s2 with
        | Conversation _ =>
            match _prepareApiPayload s2 with
            | None => Submitted s2 None true
            | Some payload =>
                let answer :=
                  match query payload with
                  | Streamed reads => StreamDecoder._processStream Number_toString reads
                  | NoBody => NO_VALID_RESPONSE
                  | Rejected message => errorTextOf message
                  end in
                match addMessage (lit "assistant") answer s2 with
                | (s3, Returned _) => Submitted s3 (Some payload) false
                | (s3, Thrown) => Submitted s3 (Some payload) true
                end
            end
        | _ => Submitted s2 None true       (* [getActiveChat().messages] *)
        end
    end.

End HandleFormSubmit.

(** *** Scrolling from message to message *)

(** [rect.top >= 0 && rect.top < clientHeight] for a bubble whose top edge
    is at [top]. *)
Definition inView (clientHeight : Z) (top : QArith_base.Q) : bool :=
  QArith_base.Qle_bool (QArith_base.inject_Z 0) top &&
  negb (QArith_base.Qle_bool (QArith_base.inject_Z clientHeight) top).

(** The [for] loop of [_getCurrentMessageIndex] from index [i] on: the
    first index whose bubble is in view, or -1. *)
Fixpoint firstInView (clientHeight : Z) (i : Z) (tops : list QArith_base.Q) : Z :=
  match tops with
  | [] => (-1)%Z
  | top :: rest =>
      if inView clientHeight top then i
      else firstInView clientHeight (i + 1)%Z rest
  end.

(** [_getCurrentMessageIndex()]: [tops] are the top edges of the bubbles
    of the log, in order. *)
Definition _getCurrentMessageIndex (clientHeight : Z) (tops : list QArith_base.Q) : Z :=
  let currentIndex := firstInView clientHeight 0 tops in
  if Z.eqb currentIndex (-1) && Nat.ltb 0 (length tops)
  then (Z.of_nat (length tops) - 1)%Z
  else currentIndex.

(** [bubbles[i]] is an element, hence truthy, exactly for the indices of
    the array. *)
Definition hasBubble (n : nat) (i : Z) : bool :=
  Z.leb 0 i && Z.ltb i (Z.of_nat n).

(** [for (let i = currentIndex - 1; i >= 0; i--)] of [_handleScrollUp]:
    [steps] bounds the number of turns of the loop. *)
Fixpoint searchUp (n : nat) (steps : nat) (i : Z) : Z :=
  match steps with
  | O => (-1)%Z
  | S steps' =>
      if Z.leb 0 i
      then if hasBubble n i then i else searchUp n steps' (i - 1)%Z
      else (-1)%Z
  end.

(** [for (let i = currentIndex + 1; i < bubbles.length; i++)] of
    [_handleScrollDown]. *)
Fixpoint searchDown (n : nat) (steps : nat) (i : Z) : Z :=
  match steps with
  | O => (-1)%Z
  | S steps' =>
      if Z.ltb i (Z.of_nat n)
      then if hasBubble n i then i else searchDown n steps' (i + 1)%Z
      else (-1)%Z
  end.

(** [_handleScrollUp()] and [_handleScrollDown()]: the index of the bubble
    scrolled to, if any. *)
Definition _handleScrollUp (clientHeight : Z) (tops : list QArith_base.Q) : option Z :=
  let currentIndex := _getCurrentMessageIndex clientHeight tops in
  let targetIndex :=
    searchUp (length tops) (S (length tops)) (currentIndex - 1)%Z in
  if Z.eqb targetIndex (-1) then None else Some targetIndex.

Definition _handleScrollDown (clientHeight : Z) (tops : list QArith_base.Q) : option Z :=
  let currentIndex := _getCurrentMessageIndex clientHeight tops in
  let targetIndex :=
    searchDown (length tops) (S (length tops)) (currentIndex + 1)%Z in
  if Z.eqb targetIndex (-1) then None else Some targetIndex.

End ChatApp.

(* ================================================================== *)
(** ** Saving and loading the store: [saveState] and [_initState] of
       [src/js/App.js], with [JSON.stringify] *)
(* ================================================================== *)

Module Persistence.
Import JS JSON StateManager.

(** *** [JSON.stringify(value)], without replacer and indentation *)

(** One hexadecimal digit, lower case. *)
Definition hexDigit (n : N) : N :=
  if N.ltb n 10 then (48 + n)%N else (87 + n)%N.

(** UnicodeEscape: a reverse solidus, [u] and the four digits of the unit. *)
Definition unicodeEscape (c : N) : str :=
  [92%N; 117%N;
   hexDigit (c / 4096 mod 16); hexDigit (c / 256 mod 16);
   hexDigit (c / 16 mod 16); hexDigit (c mod 16)].

(** The letter of the two-character escape of a unit, if it has one. *)
Definition shortEscape (c : N) : option N :=
  if N.eqb c 8 then Some 98%N            (* backspace: b *)
  else if N.eqb c 9 then Some 116%N      (* tab: t *)
  else if N.eqb c 10 then Some 110%N     (* line feed: n *)
  else if N.eqb c 12 then Some 102%N     (* form feed: f *)
  else if N.eqb c 13 then Some 114%N     (* carriage return: r *)
  else if N.eqb c 34 then Some 34%N      (* quotation mark *)
  else if N.eqb c 92 then Some 92%N      (* reverse solidus *)
  else None.

Definition isLeadingSurrogate (c : N) : bool := N.leb 55296 c && N.leb c 56319.
Definition isTrailingSurrogate (c : N) : bool := N.leb 56320 c && N.leb c 57343.

(** The inside of QuoteJSONString: the code points of the string in turn;
    a leading surrogate followed by a trailing one is one code point,
    written as it is; a surrogate on its own is escaped. *)
Fixpoint quoteUnits (s : str) : str :=
  match s with
  | [] => []
  | c :: s' =>
      match shortEscape c with
      | Some e => 92%N :: e :: quoteUnits s'
      | None =>
          if N.ltb c 32 then unicodeEscape c ++ quoteUnits s'
          else if isLeadingSurrogate c then
            match s' with
            | d :: s'' =>
                if isTrailingSurrogate d then c :: d :: quoteUnits s''
                else unicodeEscape c ++ quoteUnits s'
            | [] => unicodeEscape c
            end
          else if isTrailingSurrogate c then unicodeEscape c ++ quoteUnits s'
          else c :: quoteUnits s'
      end
  end.

Definition QuoteJSONString (s : str) : str := 34%N :: quoteUnits s ++ [34%N].

Section Stringify.

Variable Number_toString : jnumber -> str.

(** SerializeJSONProperty for a value made of [null], booleans, finite
    numbers, strings, arrays and plain objects.  The members of an object
    are written in the order of the list, which has to be the order of its
    property keys: each key once, and no key that is an array index
    (JavaScript lists those first). *)
Fixpoint stringify (value : json) : str :=
  match value with
  | JNull => lit "null"
  | JBool true => lit "true"
  | JBool false => lit "false"
  | JNumber n => Number_toString n
  | JString s => QuoteJSONString s
  | JArray elements =>
      [91%N] ++ joinWith [44%N] (map stringify elements) ++ [93%N]
  | JObject members =>
      [123%N] ++
      joinWith [44%N]
        (map (fun m => QuoteJSONString (fst m) ++ [58%N] ++ stringify (snd m)) members)
      ++ [125%N]
  end.

End Stringify.

(** *** The properties of an object *)

(** An array index: the canonical decimal string of an integer below
    2^32 - 1. *)
Definition arrayIndex (k : str) : option N :=
  match k with
  | [] => None
  | c :: r =>
      if forallb isDigit k &&
         (negb (N.eqb c 48) || match r with [] => true | _ => false end)
      then let i := N.of_uint (uintOfUnits k) in
           if N.ltb i 4294967295 then Some i else None
      else None
  end.

Fixpoint hasMember (k : str) (ms : list (str * json)) : bool :=
  match ms with
  | [] => false
  | (k', _) :: ms' => str_eqb k k' || hasMember k ms'
  end.

(** A new value for a key that is there: the key keeps its place. *)
Fixpoint setMember (k : str) (v : json) (ms : list (str * json)) : list (str * json) :=
  match ms with
  | [] => []
  | (k', v') :: ms' =>
      if str_eqb k k' then (k, v) :: ms' else (k', v') :: setMember k v ms'
  end.

(** A new key that is the array index [i]: it goes among the array
    indices, which come first, in ascending order. *)
Fixpoint insertIndex (i : N) (k : str) (v : json) (ms : list (str * json))
  : list (str * json) :=
  match ms with
  | [] => [(k, v)]
  | (k', v') :: ms' =>
      match arrayIndex k' with
      | Some i' =>
          if N.ltb i' i then (k', v') :: insertIndex i k v ms' else (k, v) :: ms
      | None => (k, v) :: ms
      end
  end.

(** CreateDataProperty on an ordinary object whose properties, in the
    order of its keys, are [ms]. *)
Definition defineMember (k : str) (v : json) (ms : list (str * json))
  : list (str * json) :=
  if hasMember k ms then setMember k v ms
  else match arrayIndex k with
       | Some i => insertIndex i k v ms
       | None => ms ++ [(k, v)]
       end.

Definition defineAll (source target : list (str * json)) : list (str * json) :=
  fold_left (fun acc m => defineMember (fst m) (snd m) acc) source target.

(** The elements of an array, or the units of a string, under their
    indices. *)
Fixpoint indexed {A : Type} (wrap : A -> json) (i : N) (l : list A) : list (str * json) :=
  match l with
  | [] => []
  | x :: l' => (stringOfInt (Z.of_N i), wrap x) :: indexed wrap (i + 1) l'
  end.

(** The own enumerable properties of a value [JSON.parse] returned, in the
    order of the keys: an object has the members of its text, defined one
    after the other. *)
Definition ownProperties (value : json) : list (str * json) :=
  match value with
  | JObject members => defineAll members []
  | JArray elements => indexed (fun v => v) 0 elements
  | JString s => indexed (fun c => JString [c]) 0 s
  | _ => []
  end.

(** [{ ...target, ...source }], for the properties [target] copied so far. *)
Definition spread (target : list (str * json)) (source : json) : list (str * json) :=
  defineAll (ownProperties source) target.

(** *** [_initState()] *)

Definition numberOf (z : Z) : jnumber := JNum (Z.ltb z 0) (Z.abs_N z) 0.

Definition defaultSettings : json :=
  JObject [(lit "fontSize", JNumber (numberOf 3));
           (lit "maxTokens", JNumber (numberOf 2048));
           (lit "showThoughts", JBool false)].

Definition defaultStateObject : json :=
  JObject [(lit "chats", JObject []);
           (lit "activeChatId", JNull);
           (lit "settings", defaultSettings)].

(** [_initState()]: [item] is what [localStorage.getItem('chatAppState')]
    returns, [None] for [null] (which [JSON.parse] reads as the text
    "null").  The result is the state object; [None] is the SyntaxError of
    [JSON.parse]. *)
Definition _initState (item : option str) : option json :=
  match JSON.parse (match item with Some text => text | None => lit "null" end) with
  | None => None
  | Some savedState =>
      let state := spread (spread [] defaultStateObject) savedState in
      let savedSettings :=            (* [savedState?.settings || {}] *)
        match getNamed (lit "settings") savedState with
        | Some v => if truthy v then v else JObject []
        | None => JObject []
        end in
      let settings := JObject (spread (spread [] defaultSettings) savedSettings) in
      Some (JObject (defineMember (lit "settings") settings state))
  end.

(** *** [saveState()] *)

(** The objects the store holds. *)
Definition messageObject (m : message) : json :=
  JObject [(lit "role", JString (role m)); (lit "content", JString (content m))].

Definition chatObject (c : chat) : json :=
  JObject [(lit "id", JString (id c));
           (lit "title", JString (title c));
           (lit "messages", JArray (map messageObject (messages c)));
           (lit "systemPrompt", JString (systemPrompt c))].

Definition settingsObject (st : settings) : json :=
  JObject [(lit "fontSize", JNumber (numberOf (fontSize st)));
           (lit "maxTokens", JNumber (numberOf (maxTokens st)));
           (lit "showThoughts", JBool (showThoughts st))].

(** [this.state] as an object. *)
Definition stateObject (s : state) : json :=
  JObject [(lit "chats", JObject (map (fun e => (fst e, chatObject (snd e))) (chats s)));
           (lit "activeChatId",
            match activeChatId s with Some k => JString k | None => JNull end);
           (lit "settings", settingsObject (stateSettings s))].

(** [saveState()]: the text stored under [chatAppState].  The numbers of
    the settings are integers, written by their digits. *)
Definition saveState (s : state) : str :=
  stringify integerToString (stateObject s).

End Persistence.

(* ================================================================== *)
(** ** The service: [ApiService] of [src/js/api.js] *)
(* ================================================================== *)

Module ApiService.
Import JS JSON StateManager Persistence.

Definition MODEL : str := lit "openai/gpt-oss-120b:novita".

(** The object [_prepareApiPayload] returns for the given messages:
    [{ model, messages, stream: true }]. *)
Definition payloadObject (messages : list message) : json :=
  JObject [(lit "model", JString MODEL);
           (lit "messages", JArray (map messageObject messages));
           (lit "stream", JBool true)].

(** What [query] hands to [fetch]: the [Authorization] header and the
    body. *)
Record request : Type := Request {
  authorization : str;
  requestBody : str
}.

Definition requestOf (apiKey : str) (messages : list message) : request :=
  Request (lit "Bearer " ++ apiKey)
          (stringify integerToString (payloadObject messages)).

(** What [fetch] comes back with: a rejection with an error message, or a
    response; [body] is what the stream of the response delivers, [None]
    for a response without body. *)
Record response : Type := Response {
  ok : bool;
  status : Z;
  statusText : str;
  body : option (list (list Byte.byte))
}.

Inductive fetched : Type :=
| FetchRejected (message : str)
| Fetched (r : response).

(** [response.text()]: the bytes of the body, decoded at once. *)
Definition text (r : response) : str :=
  match body r with
  | Some reads =>
      let (d, t) := TextDecoder.decode TextDecoder.initial (concat reads) in
      t ++ TextDecoder.flush d
  | None => []
  end.

(** [query(payload)], for what [fetch] came back with: the response it
    returns, or the message of the error it throws. *)
Definition query (f : fetched) : response + str :=
  match f with
  | FetchRejected message => inr message
  | Fetched r =>
      if negb (ok r)
      then inr (lit "API Error: " ++ stringOfInt (status r) ++ lit " "
                  ++ statusText r ++ lit " - " ++ text r)
      else inl r
  end.

(** How [_handleFormSubmit] goes on after [await this.apiService.query]:
    with the body of the response returned, without one, or in its
    [catch] with the message of the error thrown. *)
Definition outcomeOf (f : fetched) : ChatApp.outcome :=
  match query f with
  | inl r =>
      match body r with
      | Some reads => ChatApp.Streamed reads
      | None => ChatApp.NoBody
      end
  | inr message => ChatApp.Rejected message
  end.

End ApiService.

(* ================================================================== *)
(** ** The former controller: [ChatApp] of [src/js/App.js] *)
(* ================================================================== *)

Module LegacyChatApp.
Import JS StateManager.

(** The part of [this.state] the methods below read and write: the
    settings are not touched by them.  Each method is modelled by the
    state it leaves, whether it returns or throws: a method that throws
    does so before it changes the state ([_addMessageToState] and
    [_deleteMessage] on an inherited member) or while it renders, after
    its last change ([_setActiveChat]). *)
Record appState : Type := AppState {
  stateChats : list (str * chat);
  stateActiveChatId : option str
}.

(** [!this.state.activeChatId] *)
Definition noActiveId (a : option str) : bool :=
  match a with
  | None | Some [] => true
  | Some (_ :: _) => false
  end.

(** The assignment to [this.state.activeChatId] that opens
    [_setActiveChat]. *)
Definition selectChat (chatId : option str) (s : appState) : appState :=
  let usable :=
    match chatId with
    | Some k => negb (str_eqb k []) && truthyMember (memberAt k (stateChats s))
    | None => false
    end in
  if negb usable then
    let chatIds := keys (stateChats s) in
    AppState (stateChats s)
             (match sortByTimestampDesc chatIds with
              | first :: _ => Some first
              | [] => None
              end)
  else AppState (stateChats s) chatId.

(** [_setActiveChat(chatId)] and [_createNewChat()], which call each
    other; [fuel] bounds the depth of the calls and [now] is what
    [Date.now()] returns. *)
Fixpoint _setActiveChat (fuel : nat) (now : Z) (chatId : option str) (s : appState)
    {struct fuel} : appState :=
  match fuel with
  | O => s
  | S fuel' =>
      let s1 := selectChat chatId s in
      if noActiveId (stateActiveChatId s1) &&
         match keys (stateChats s1) with [] => true | _ => false end
      then _createNewChat fuel' now s1
      else s1
  end
with _createNewChat (fuel : nat) (now : Z) (s : appState) {struct fuel} : appState :=
  match fuel with
  | O => s
  | S fuel' =>
      let newChatId := chatIdOf now in
      _setActiveChat fuel' now (Some newChatId)
        (AppState (assign newChatId
                          (Chat newChatId defaultTitle [] defaultSystemPrompt)
                          (stateChats s))
                  (stateActiveChatId s))
  end.

(** [_deleteChat(chatIdToDelete)]; [confirmed] is what [confirm] returns
    when it is asked. *)
Definition _deleteChat (fuel : nat) (confirmed : bool) (chatIdToDelete : str)
    (now : Z) (s : appState) : appState :=
  match memberAt chatIdToDelete (stateChats s) with
  | Undefined => s
  | _ =>
      if negb confirmed then s
      else
        let wasActive :=
          match stateActiveChatId s with
          | Some a => str_eqb a chatIdToDelete
          | None => false
          end in
        let s1 := AppState (remove chatIdToDelete (stateChats s)) (stateActiveChatId s) in
        if wasActive then
          match sortByTimestampDesc (keys (stateChats s1)) with
          | first :: _ => _setActiveChat fuel now (Some first) s1
          | [] => _createNewChat fuel now s1
          end
        else s1
  end.

(** [_addMessageToState(role, content)]; for an inherited member the
    push throws, before anything is changed. *)
Definition _addMessageToState (role content : str) (s : appState) : appState :=
  match memberAt (propertyKey (stateActiveChatId s)) (stateChats s) with
  | Undefined | Inherited => s
  | Conversation activeChat =>
      let messages' := messages activeChat ++ [Message role content] in
      let title' :=
        if Nat.eqb (length messages') 1 && str_eqb role (lit "user")
        then substringTo 30 content ++
             (if Nat.ltb 30 (length content) then lit "..." else [])
        else title activeChat in
      AppState (assign (propertyKey (stateActiveChatId s))
                       (Chat (id activeChat) title' messages' (systemPrompt activeChat))
                       (stateChats s))
               (stateActiveChatId s)
  end.

(** [_deleteMessage(button)] for the index read from the bubble; an index
    that is no index of a turn reads [undefined]; for an inherited member
    the test throws. *)
Definition _deleteMessage (index : Z) (s : appState) : appState :=
  match memberAt (propertyKey (stateActiveChatId s)) (stateChats s) with
  | Undefined | Inherited => s
  | Conversation activeChat =>
      if (Z.leb 0 index && Z.ltb index (Z.of_nat (length (messages activeChat))))%bool
      then AppState (assign (propertyKey (stateActiveChatId s))
                            (Chat (id activeChat) (title activeChat)
                                  (splice1 (Z.to_nat index) (messages activeChat))
                                  (systemPrompt activeChat))
                            (stateChats s))
                    (stateActiveChatId s)
      else s
  end.

(** [_saveSystemPrompt()] for the text of the prompt field; for an
    inherited member the prompt is written to that member, not to the
    state. *)
Definition _saveSystemPrompt (prompt : str) (s : appState) : appState :=
  match memberAt (propertyKey (stateActiveChatId s)) (stateChats s) with
  | Undefined | Inherited => s
  | Conversation activeChat =>
      AppState (assign (propertyKey (stateActiveChatId s))
                       (Chat (id activeChat) (title activeChat) (messages activeChat) prompt)
                       (stateChats s))
               (stateActiveChatId s)
  end.

End LegacyChatApp.

(* ================================================================== *)
(** ** Facts about the string primitives *)
(* ================================================================== *)

Module JSFacts.
Import JS.

Lemma str_eqb_refl (a : str) : str_eqb a a = true.
Proof.
  induction a as [|x a IH]; simpl; [reflexivity|].
  now rewrite N.eqb_refl, IH.
Qed.

Lemma str_eqb_eq (a b : str) : str_eqb a b = true <-> a = b.
Proof.
  split; [|intros ->; apply str_eqb_refl].
  revert b; induction a as [|x a IH]; intros [|y b]; simpl; try discriminate; auto.
  intros H; apply andb_true_iff in H as [Hx Hab].
  apply N.eqb_eq in Hx; subst; f_equal; auto.
Qed.

Lemma str_eqb_neq (a b : str) : str_eqb a b = false <-> a <> b.
Proof.
  split.
  - intros H E; apply str_eqb_eq in E; congruence.
  - intros H; destruct (str_eqb a b) eqn:E; [|reflexivity].
    apply str_eqb_eq in E; contradiction.
Qed.

Lemma substringTo_short (n : nat) (s : str) :
  length s <= n -> substringTo n s = s.
Proof. apply firstn_all2. Qed.

(** [uintOfUnits] reads back what [unitsOfUint] wrote. *)
Lemma uintOfUnits_unitsOfUint (d : Decimal.uint) : uintOfUnits (unitsOfUint d) = d.
Proof. induction d; simpl; congruence. Qed.

Lemma unitsOfUint_inj (d d' : Decimal.uint) :
  unitsOfUint d = unitsOfUint d' -> d = d'.
Proof.
  intros H; rewrite <- (uintOfUnits_unitsOfUint d), H.
  apply uintOfUnits_unitsOfUint.
Qed.

(** Code units of a rendered integer: digits, or the minus sign. *)
Definition isIntChar (c : N) : bool := isDigit c || N.eqb c 45.

Lemma unitsOfUint_digits (d : Decimal.uint) : forallb isDigit (unitsOfUint d) = true.
Proof. induction d; simpl; auto. Qed.

Lemma stringOfInt_chars (t : Z) : forallb isIntChar (stringOfInt t) = true.
Proof.
  unfold stringOfInt.
  assert (H : forall d, forallb isIntChar (unitsOfUint d) = true).
  { induction d; simpl; auto. }
  destruct (Z.to_int t); simpl; auto.
Qed.

(** A piece with no occurrence of a one-unit separator is not split. *)
Lemma split_go_absent (sep : N) (s : str) :
  forallb (fun c => negb (N.eqb sep c)) s = true ->
  forall cur fuel, length s <= fuel -> split_go [sep] cur fuel s = [rev cur ++ s].
Proof.
  induction s as [|c s IH]; intros Hs cur fuel Hf.
  - destruct fuel; simpl; now rewrite ?app_nil_r.
  - simpl in Hs. apply andb_true_iff in Hs as [Hc Hs].
    destruct fuel as [|fuel]; [simpl in Hf; lia|].
    simpl. apply negb_true_iff in Hc. rewrite Hc. simpl.
    rewrite IH by (auto; simpl in Hf; lia).
    simpl. now rewrite <- app_assoc.
Qed.

Lemma parseInt_digits (d : Decimal.uint) :
  d <> Decimal.Nil ->
  parseInt (unitsOfUint d) = Some (Z.of_N (N.of_uint d)) /\
  parseInt (45%N :: unitsOfUint d) = Some (- Z.of_N (N.of_uint d))%Z.
Proof.
  intros Hd.
  pose proof (uintOfUnits_unitsOfUint d) as E.
  destruct d as [|d|d|d|d|d|d|d|d|d|d]; try congruence;
    unfold parseInt; simpl trimStart; cbv iota beta; simpl unitsOfUint in E;
    try (simpl (isDigit _); cbv iota; rewrite E; split; reflexivity).
  (* a leading zero: the next unit is a digit, never [x] or [X] *)
  destruct d; simpl unitsOfUint in *; cbv iota beta;
    simpl (isDigit _); cbv iota; rewrite E; split; reflexivity.
Qed.

(** [parseInt] reads back the integer [stringOfInt] rendered. *)
Lemma parseInt_stringOfInt (t : Z) : parseInt (stringOfInt t) = Some t.
Proof.
  unfold stringOfInt.
  pose proof (DecimalZ.of_to t) as Hz.
  destruct t as [|p|p]; simpl Z.to_int in *.
  - reflexivity.
  - destruct (parseInt_digits (DecimalPos.Unsigned.to_uint_nonnil p)) as [H _].
    rewrite H. f_equal. exact Hz.
  - destruct (parseInt_digits (DecimalPos.Unsigned.to_uint_nonnil p)) as [_ H].
    rewrite H. f_equal. exact Hz.
Qed.

Lemma stringOfInt_inj (t t' : Z) : stringOfInt t = stringOfInt t' -> t = t'.
Proof.
  intros H. pose proof (parseInt_stringOfInt t) as E.
  rewrite H, parseInt_stringOfInt in E. congruence.
Qed.

(** *** Numbers *)

(** An integer below 2^53 in magnitude is its own Number. *)
Lemma toNumber_exact (z : Z) :
  (Z.abs z < 2 ^ 53)%Z -> toNumber z = Finite z.
Proof.
  intros H. unfold toNumber, roundTo53.
  assert (L : (N.log2 (Z.abs_N z) <= 52)%N).
  { destruct (N.eq_0_gt_0_cases (Z.abs_N z)) as [E|P]; [rewrite E; simpl; lia|].
    apply N.lt_succ_r. change (N.succ 52) with 53%N.
    apply N.log2_lt_pow2; [exact P|].
    change (2 ^ 53)%N with (Z.to_N (2 ^ 53)). lia. }
  apply N.sub_0_le in L. rewrite L. cbn [N.eqb].
  apply N.sub_0_le in L.
  replace (N.leb 1024 (N.log2 (Z.abs_N z))) with false
    by (symmetry; apply N.leb_gt; lia).
  f_equal. destruct (Z.ltb_spec z 0); lia.
Qed.

Lemma differenceNegative_irrefl (a : number) : differenceNegative a a = false.
Proof. destruct a as [x|[]]; simpl; [apply Z.ltb_irrefl|reflexivity|reflexivity]. Qed.

Lemma differenceNegative_asym (a b : number) :
  differenceNegative a b = true -> differenceNegative b a = false.
Proof.
  destruct a as [x|[]], b as [y|[]]; simpl; try congruence.
  intros H. apply Z.ltb_lt in H. apply Z.ltb_ge. lia.
Qed.

(** "Not below" is transitive. *)
Lemma differenceNegative_trans (a b c : number) :
  differenceNegative a b = false -> differenceNegative b c = false ->
  differenceNegative a c = false.
Proof.
  destruct a as [x|[]], b as [y|[]], c as [z|[]]; simpl; try congruence.
  intros H1 H2. apply Z.ltb_ge in H1, H2. apply Z.ltb_ge. lia.
Qed.

Lemma startsWith_eq (p s : str) :
  startsWith p s = true -> s = p ++ skipn (length p) s.
Proof.
  revert s. induction p as [|x p IH]; intros [|y s]; simpl; try discriminate; auto.
  intros H. apply andb_true_iff in H as [Hx H]. apply N.eqb_eq in Hx.
  subst. f_equal. auto.
Qed.

(** *** [trim] *)

Lemma trimStart_split (s : str) :
  exists w, s = w ++ trimStart s /\ forallb isWhiteSpace w = true.
Proof.
  induction s as [|c s [w [E Hw]]]; simpl; [now exists []|].
  destruct (isWhiteSpace c) eqn:Ec.
  - exists (c :: w). simpl. rewrite Ec, Hw. split; [congruence|reflexivity].
  - now exists [].
Qed.

Lemma trimEnd_split (s : str) :
  exists w, s = trimEnd s ++ w /\ forallb isWhiteSpace w = true.
Proof.
  unfold trimEnd. destruct (trimStart_split (rev s)) as [w [E Hw]].
  exists (rev w). split.
  - rewrite <- rev_app_distr, <- E. now rewrite rev_involutive.
  - rewrite forallb_forall in *. intros c Hc. apply Hw. now apply in_rev.
Qed.

(** A text whose first unit is no whitespace is its own [trimStart]. *)
Lemma trimStart_head (c : N) (s : str) :
  isWhiteSpace c = false -> trimStart (c :: s) = c :: s.
Proof. simpl. now intros ->. Qed.

Lemma trimStart_idem (s : str) : trimStart (trimStart s) = trimStart s.
Proof.
  induction s as [|c s IH]; simpl; [reflexivity|].
  destruct (isWhiteSpace c) eqn:E; [exact IH|]. simpl. now rewrite E.
Qed.

(** A text that starts with a unit that is no whitespace. *)
Definition startsNonWs (s : str) : Prop :=
  match s with
  | c :: _ => isWhiteSpace c = false
  | [] => False
  end.

Lemma trimStart_result (s : str) : trimStart s = [] \/ startsNonWs (trimStart s).
Proof.
  induction s as [|c s IH]; simpl; [now left|].
  destruct (isWhiteSpace c) eqn:E; [exact IH|]. right. exact E.
Qed.

Lemma startsNonWs_app (s t : str) : startsNonWs s -> startsNonWs (s ++ t).
Proof. destruct s; simpl; [intros []|auto]. Qed.

Lemma trimStart_keep (u t : str) :
  startsNonWs t -> exists u', trimStart (u ++ t) = u' ++ t.
Proof.
  intros Ht. induction u as [|c u [u' IH]]; simpl.
  - exists []. destruct t as [|x t]; [destruct Ht|]. simpl in *. now rewrite Ht.
  - destruct (isWhiteSpace c); [now exists u'|]. now exists (c :: u).
Qed.

Lemma trimEnd_keep (t v : str) :
  startsNonWs (rev t) -> exists v', trimEnd (t ++ v) = t ++ v'.
Proof.
  intros Ht. unfold trimEnd. rewrite rev_app_distr.
  destruct (trimStart_keep (rev v) (rev t) Ht) as [u' E].
  exists (rev u'). rewrite E, rev_app_distr. now rewrite rev_involutive.
Qed.

(** [trim] keeps a text that starts and ends with units that are no
    whitespace. *)
Lemma trim_id (s : str) : startsNonWs s -> startsNonWs (rev s) -> trim s = s.
Proof.
  intros H1 H2. unfold trim, trimEnd.
  destruct s as [|c s]; [destruct H1|].
  rewrite (trimStart_head c s H1).
  destruct (rev (c :: s)) as [|x r] eqn:E; [destruct H2|].
  rewrite (trimStart_head x r H2), <- E. apply rev_involutive.
Qed.

(** The shape of a trimmed text, and where it lies in the text. *)
Lemma trim_shape (b : str) :
  (exists w1 w2, b = w1 ++ trim b ++ w2) /\
  (trim b = [] \/ (startsNonWs (trim b) /\ startsNonWs (rev (trim b)))).
Proof.
  destruct (trimStart_split b) as [w1 [E1 _]].
  destruct (trimEnd_split (trimStart b)) as [w2 [E2 _]].
  fold (trim b) in E2. split.
  - exists w1, w2. now rewrite <- E2.
  - destruct (trim b) as [|c m] eqn:Em; [now left|right]. split.
    + destruct (trimStart_result b) as [H|H]; rewrite E2 in H; [discriminate|exact H].
    + rewrite <- Em. unfold trim, trimEnd. rewrite rev_involutive.
      destruct (trimStart_result (rev (trimStart b))) as [H|H]; [|exact H].
      unfold trim, trimEnd in Em. rewrite H in Em. discriminate.
Qed.

(** Trimming a text keeps the trimmed form of each of its parts. *)
Lemma trim_infix (pre b post : str) :
  exists pre' post', trim (pre ++ b ++ post) = pre' ++ trim b ++ post'.
Proof.
  destruct (trim_shape b) as [[w1 [w2 Eb]] [Hm|[Hs He]]].
  - exists (trim (pre ++ b ++ post)), []. rewrite Hm. now rewrite !app_nil_r.
  - set (m := trim b) in *.
    assert (E : pre ++ b ++ post = (pre ++ w1) ++ (m ++ (w2 ++ post))).
    { rewrite Eb at 1. now rewrite <- !app_assoc. }
    rewrite E. unfold trim at 1.
    destruct (trimStart_keep (pre ++ w1) (m ++ (w2 ++ post))
                (startsNonWs_app m _ Hs)) as [u' Eu].
    rewrite Eu.
    assert (E' : u' ++ m ++ w2 ++ post = (u' ++ m) ++ (w2 ++ post))
      by now rewrite <- !app_assoc.
    rewrite E'.
    destruct (trimEnd_keep (u' ++ m) (w2 ++ post)) as [v' Ev].
    { rewrite rev_app_distr. now apply startsNonWs_app. }
    rewrite Ev. exists u', v'. now rewrite <- !app_assoc.
Qed.

End JSFacts.

(* ================================================================== *)
(** ** The conversation store: proofs *)
(* ================================================================== *)

Module StateManagerFacts.
Import JS JSFacts StateManager.

(** *** The map operations *)

Lemma lookup_In (k : str) (m : list (str * chat)) (c : chat) :
  lookup k m = Some c -> In k (keys m).
Proof.
  induction m as [|[k' v] m IH]; simpl; [discriminate|].
  destruct (str_eqb k k') eqn:E; [|auto].
  apply str_eqb_eq in E; auto.
Qed.

Lemma lookup_assign_same (k : str) (v : chat) (m : list (str * chat)) :
  lookup k (assign k v m) = Some v.
Proof.
  induction m as [|[k' v'] m IH]; simpl.
  - now rewrite str_eqb_refl.
  - destruct (str_eqb k k') eqn:E; simpl.
    + now rewrite str_eqb_refl.
    + now rewrite E.
Qed.

Lemma In_keys_assign (k k0 : str) (v : chat) (m : list (str * chat)) :
  In k0 (keys (assign k v m)) <-> k0 = k \/ In k0 (keys m).
Proof.
  induction m as [|[k' v'] m IH]; simpl.
  - intuition.
  - destruct (str_eqb k k') eqn:E; simpl.
    + apply str_eqb_eq in E; subst. intuition.
    + rewrite IH. intuition.
Qed.

(** Assigning to a key that is present changes no key. *)
Lemma keys_assign_present (k : str) (v : chat) (m : list (str * chat)) :
  In k (keys m) -> keys (assign k v m) = keys m.
Proof.
  induction m as [|[k' v'] m IH]; simpl; [tauto|].
  intros H. destruct (str_eqb k k') eqn:E; simpl.
  - apply str_eqb_eq in E; now subst.
  - f_equal. apply IH. destruct H as [H|H]; [|exact H].
    subst. now rewrite str_eqb_refl in E.
Qed.

Lemma In_keys_remove (k k0 : str) (m : list (str * chat)) :
  In k0 (keys (remove k m)) <-> k0 <> k /\ In k0 (keys m).
Proof.
  unfold keys, remove. rewrite !in_map_iff. split.
  - intros [[k1 v] [E H]]. simpl in E; subst.
    apply filter_In in H as [H Hn]. simpl in Hn.
    apply negb_true_iff, str_eqb_neq in Hn. split; [congruence|].
    exists (k0, v); auto.
  - intros [Hn [[k1 v] [E H]]]. simpl in E; subst.
    exists (k0, v). split; [reflexivity|].
    apply filter_In. split; [exact H|]. simpl.
    apply negb_true_iff, str_eqb_neq. congruence.
Qed.

(** *** Reading a member *)

Lemma memberAt_own (k : str) (m : list (str * chat)) (c : chat) :
  lookup k m = Some c -> memberAt k m = Conversation c.
Proof. unfold memberAt. now intros ->. Qed.

Lemma memberAt_Conversation (k : str) (m : list (str * chat)) (c : chat) :
  memberAt k m = Conversation c <-> lookup k m = Some c.
Proof.
  unfold memberAt. destruct (lookup k m) as [c'|].
  - split; intros E; injection E as ->; reflexivity.
  - split; [|discriminate]. destruct (inheritedKey k); discriminate.
Qed.

Lemma In_memberAt (k : str) (m : list (str * chat)) :
  In k (keys m) -> exists c, memberAt k m = Conversation c.
Proof.
  induction m as [|[k0 v0] m IH]; simpl; [tauto|].
  unfold memberAt. simpl.
  intros H. destruct (str_eqb k k0) eqn:E; [eauto|].
  apply str_eqb_neq in E. destruct H as [H|H]; [congruence|].
  destruct (IH H) as [c Hc]. apply memberAt_Conversation in Hc.
  rewrite Hc. eauto.
Qed.

(** A member that is only inherited is no own property. *)
Lemma memberAt_Inherited (k : str) (m : list (str * chat)) :
  memberAt k m = Inherited -> inheritedKey k = true /\ ~ In k (keys m).
Proof.
  intros H. split.
  - unfold memberAt in H. destruct (lookup k m); [discriminate|].
    destruct (inheritedKey k); [reflexivity|discriminate].
  - intros Hin. destruct (In_memberAt k m Hin) as [c Hc]. congruence.
Qed.

(** *** The sort *)

Lemma In_insertSorted (x y : str) (l : list str) :
  In y (insertSorted x l) <-> y = x \/ In y l.
Proof.
  induction l as [|z l IH]; simpl.
  - intuition.
  - destruct (sortsBefore z x); simpl; [rewrite IH|]; intuition.
Qed.

Lemma In_sortByTimestampDesc (y : str) (l : list str) :
  In y (sortByTimestampDesc l) <-> In y l.
Proof.
  induction l as [|x l IH]; simpl; [tauto|].
  rewrite In_insertSorted, IH. intuition.
Qed.

Lemma sortByTimestampDesc_nil (l : list str) :
  sortByTimestampDesc l = [] -> l = [].
Proof.
  destruct l as [|x l]; [reflexivity|]. intros H.
  assert (I : In x (sortByTimestampDesc (x :: l)))
    by (apply In_sortByTimestampDesc; now left).
  rewrite H in I. destruct I.
Qed.

(** The time values of ECMA-262: [Date.now()] returns one of them, and
    each is a double that represents its integer exactly. *)
Definition timeValue (t : Z) : Prop :=
  (-8640000000000000 <= t <= 8640000000000000)%Z.

Lemma toNumber_timeValue (t : Z) : timeValue t -> toNumber t = Finite t.
Proof. intros H. apply toNumber_exact. unfold timeValue in H. lia. Qed.

(** An id [createNewChat] can have made. *)
Definition createdId (k : str) : Prop := exists t, timeValue t /\ k = chatIdOf t.

Lemma embeddedTimestamp_chatIdOf (t : Z) : embeddedTimestamp (chatIdOf t) = Some t.
Proof.
  unfold embeddedTimestamp, chatIdOf, split.
  assert (S : forall fuel, length (stringOfInt t) <= fuel ->
            split_go (lit "_") [] fuel (stringOfInt t) = [stringOfInt t]).
  { intros fuel Hf. apply (split_go_absent 95 (stringOfInt t)); [|exact Hf].
    pose proof (stringOfInt_chars t) as H. rewrite forallb_forall in *.
    intros c Hc. specialize (H c Hc). unfold isIntChar, isDigit in H.
    destruct (N.eqb_spec 95 c) as [<-|]; [discriminate H|reflexivity]. }
  rewrite length_app. simpl.
  rewrite S by lia. apply parseInt_stringOfInt.
Qed.

Lemma chatIdOf_inj (t t' : Z) : chatIdOf t = chatIdOf t' -> t = t'.
Proof.
  intros H. pose proof (embeddedTimestamp_chatIdOf t) as E.
  rewrite H, embeddedTimestamp_chatIdOf in E. congruence.
Qed.

(** The head of the sorted ids carries a greatest timestamp, when every id
    carries one: the Number of no other timestamp is above its Number. *)
Lemma sortByTimestampDesc_head (l : list str) :
  Forall (fun k => embeddedTimestamp k <> None) l ->
  forall first rest, sortByTimestampDesc l = first :: rest ->
  exists tmax, embeddedTimestamp first = Some tmax /\
    forall k t, In k l -> embeddedTimestamp k = Some t ->
                differenceNegative (toNumber tmax) (toNumber t) = false.
Proof.
  induction 1 as [|x l Hx Hl IH]; intros first rest; simpl; [discriminate|].
  destruct (embeddedTimestamp x) as [tx|] eqn:Ex; [clear Hx|congruence].
  destruct (sortByTimestampDesc l) as [|y r] eqn:Es.
  - apply sortByTimestampDesc_nil in Es; subst l. simpl.
    intros E; injection E as <- <-.
    exists tx. split; [exact Ex|].
    intros k t [<-|[]] Ek. rewrite Ex in Ek. injection Ek as <-.
    apply differenceNegative_irrefl.
  - destruct (IH y r eq_refl) as [ty [Ey Hmax]].
    simpl. unfold sortsBefore at 1. rewrite Ey, Ex.
    destruct (differenceNegative (toNumber tx) (toNumber ty)) eqn:D;
      intros E; injection E as <- <-.
    + exists ty. split; [exact Ey|].
      intros k t [<-|Hk] Ek; [|eauto].
      rewrite Ex in Ek. injection Ek as <-.
      now apply differenceNegative_asym.
    + exists tx. split; [exact Ex|].
      intros k t [<-|Hk] Ek.
      * rewrite Ex in Ek. injection Ek as <-. apply differenceNegative_irrefl.
      * eapply differenceNegative_trans; [exact D|]. eauto.
Qed.

(** *** The invariant of the active id *)

(** When there are conversations, [activeChatId] is the id of one. *)
Definition activeResolves (s : state) : Prop :=
  chats s <> [] -> exists k, activeChatId s = Some k /\ In k (keys (chats s)).

Lemma setActiveChat_chats (a : option str) (s : state) :
  chats (setActiveChat a s) = chats s.
Proof. unfold setActiveChat. now destruct (negb _). Qed.

Lemma setActiveChat_settings (a : option str) (s : state) :
  stateSettings (setActiveChat a s) = stateSettings s.
Proof. unfold setActiveChat. now destruct (negb _). Qed.

(** The argument of [setActiveChat] names a member that [chats] inherits
    and does not own. *)
Definition namesInherited (a : option str) (s : state) : Prop :=
  exists k, a = Some k /\ memberAt k (chats s) = Inherited.

(** Such an argument is stored as it is. *)
Lemma setActiveChat_inherited (a : option str) (s : state) :
  namesInherited a s -> setActiveChat a s = State (chats s) a (stateSettings s).
Proof.
  intros (k & -> & H). unfold setActiveChat. rewrite H.
  destruct (memberAt_Inherited _ _ H) as [Hi _].
  destruct k as [|c k]; [discriminate Hi|reflexivity].
Qed.

(** With any other argument [setActiveChat] establishes the invariant,
    from any state. *)
Lemma setActiveChat_resolves (a : option str) (s : state) :
  ~ namesInherited a s -> activeResolves (setActiveChat a s).
Proof.
  intros Hn. unfold activeResolves. rewrite setActiveChat_chats. intros Hne.
  assert (F : exists f, (match sortByTimestampDesc (keys (chats s)) with
                         | first :: _ => Some first
                         | [] => None
                         end) = Some f /\ In f (keys (chats s))).
  { destruct (sortByTimestampDesc (keys (chats s))) as [|f r] eqn:Es.
    - apply sortByTimestampDesc_nil in Es. destruct (chats s); [congruence|discriminate].
    - exists f. split; [reflexivity|].
      apply In_sortByTimestampDesc. rewrite Es. now left. }
  unfold setActiveChat.
  destruct a as [k|]; cbn [negb]; [|exact F].
  destruct (str_eqb k []) eqn:Ek; cbn [negb andb]; [exact F|].
  destruct (memberAt k (chats s)) as [c| |] eqn:Em; cbn [truthyMember negb].
  - exists k. split; [reflexivity|].
    apply memberAt_Conversation in Em. eapply lookup_In; eauto.
  - exfalso. apply Hn. now exists k.
  - exact F.
Qed.

(** Selecting an id that is present selects it. *)
Lemma setActiveChat_present (k : str) (s : state) :
  k <> [] -> In k (keys (chats s)) ->
  setActiveChat (Some k) s = State (chats s) (Some k) (stateSettings s).
Proof.
  intros Hk Hin. unfold setActiveChat.
  apply str_eqb_neq in Hk. rewrite Hk.
  destruct (In_memberAt k (chats s) Hin) as [c ->]. reflexivity.
Qed.

Lemma present_not_inherited (k : str) (s : state) :
  In k (keys (chats s)) -> ~ namesInherited (Some k) s.
Proof.
  intros Hin (k' & E & H). injection E as <-.
  destruct (In_memberAt k (chats s) Hin) as [c Hc]. congruence.
Qed.

Lemma chatIdOf_nonempty (t : Z) : chatIdOf t <> [].
Proof. discriminate. Qed.

Lemma createNewChat_state (now : Z) (s : state) :
  fst (createNewChat now s) =
  State (assign (chatIdOf now) (Chat (chatIdOf now) defaultTitle [] defaultSystemPrompt) (chats s))
        (Some (chatIdOf now)) (stateSettings s).
Proof.
  unfold createNewChat. simpl fst.
  rewrite setActiveChat_present; simpl; auto using chatIdOf_nonempty.
  apply In_keys_assign; now left.
Qed.

(** The operations that write into the active conversation keep every key
    and the active id. *)
Lemma assign_active_keys (s : state) (c c' : chat) :
  getActiveChat s = Conversation c ->
  keys (assign (propertyKey (activeChatId s)) c' (chats s)) = keys (chats s).
Proof.
  intros H. apply keys_assign_present.
  apply memberAt_Conversation in H. eapply lookup_In; eauto.
Qed.

Lemma activeResolves_same_keys (s s' : state) :
  keys (chats s') = keys (chats s) -> activeChatId s' = activeChatId s ->
  activeResolves s -> activeResolves s'.
Proof.
  unfold activeResolves. intros Hk Ha H Hne. rewrite Hk, Ha. apply H.
  intros E. rewrite E in Hk. destruct (chats s'); [congruence|discriminate].
Qed.

Lemma addMessage_resolves role content s :
  activeResolves s -> activeResolves (fst (addMessage role content s)).
Proof.
  unfold addMessage. destruct (getActiveChat s) as [c| |] eqn:E; simpl; auto.
  apply activeResolves_same_keys; simpl; [|reflexivity].
  eapply assign_active_keys; eauto.
Qed.

Lemma deleteMessage_resolves index s :
  activeResolves s -> activeResolves (fst (deleteMessage index s)).
Proof.
  unfold deleteMessage. destruct (getActiveChat s) as [c| |] eqn:E; simpl; auto.
  destruct (_ && _)%bool; simpl; [|auto].
  apply activeResolves_same_keys; simpl; [|reflexivity].
  eapply assign_active_keys; eauto.
Qed.

Lemma updateSystemPrompt_resolves prompt s :
  activeResolves s -> activeResolves (updateSystemPrompt prompt s).
Proof.
  unfold updateSystemPrompt. destruct (getActiveChat s) as [c| |] eqn:E; auto.
  apply activeResolves_same_keys; simpl; [|reflexivity].
  eapply assign_active_keys; eauto.
Qed.

Lemma updateSettings_resolves p s :
  activeResolves s -> activeResolves (updateSettings p s).
Proof. apply activeResolves_same_keys; reflexivity. Qed.

Lemma createNewChat_resolves now s : activeResolves (fst (createNewChat now s)).
Proof.
  unfold createNewChat. simpl. apply setActiveChat_resolves.
  apply present_not_inherited. simpl. apply In_keys_assign. now left.
Qed.

Lemma deleteChat_resolves k now s :
  activeResolves s -> activeResolves (deleteChat k now s).
Proof.
  intros H. unfold deleteChat.
  destruct (activeChatId s) as [a|] eqn:Ea.
  - destruct (str_eqb a k) eqn:Eak.
    + destruct (sortByTimestampDesc _) as [|f r] eqn:Es; [apply createNewChat_resolves|].
      apply setActiveChat_resolves, present_not_inherited.
      apply In_sortByTimestampDesc. rewrite Es. now left.
    + unfold activeResolves in *. simpl. intros Hne.
      destruct H as [k0 [E0 Hin]].
      { intros E. rewrite E in Hne. now apply Hne. }
      rewrite Ea in E0. injection E0 as <-.
      exists a. split; [reflexivity|]. apply In_keys_remove. split; [|exact Hin].
      apply str_eqb_neq. exact Eak.
  - unfold activeResolves in *. simpl. intros Hne.
    destruct H as [k0 [E0 _]]; [|congruence].
    intros E. rewrite E in Hne. now apply Hne.
Qed.

End StateManagerFacts.

(* ================================================================== *)
(** ** The conversation store: the specification's statements *)
(* ================================================================== *)

Module StateManagerSpec.
Import JS JSFacts StateManager StateManagerFacts.

(** A store with one fresh conversation, created at clock reading [100]. *)
Definition oneChat : state := fst (createNewChat 100 defaultState).

(** A store with three conversations, created at [100], [200] and [150];
    the last one is active. *)
Definition threeChats : state :=
  fst (createNewChat 150 (fst (createNewChat 200 oneChat))).

(** [addMessage] applied to each [(role, content)] in turn. *)
Definition addMessages (turns : list (str * str)) (s : state) : state :=
  fold_left (fun st rc => fst (addMessage (fst rc) (snd rc) st)) turns s.

(** The title of the active conversation, if there is one. *)
Definition activeTitle (s : state) : option str :=
  match getActiveChat s with
  | Conversation c => Some (title c)
  | _ => None
  end.

Lemma addMessage_active (role content : str) (s : state) (c : chat) :
  getActiveChat s = Conversation c ->
  exists c', getActiveChat (fst (addMessage role content s)) = Conversation c' /\
    messages c' = messages c ++ [Message role content] /\
    title c' = (if Nat.eqb (length (messages c ++ [Message role content])) 1
                   && str_eqb role (lit "user")
                then deriveTitle content else title c) /\
    snd (addMessage role content s) = Returned (Some (title c')).
Proof.
  intros H. unfold addMessage. rewrite H. simpl.
  eexists. split.
  - unfold getActiveChat. simpl. apply memberAt_own, lookup_assign_same.
  - simpl. repeat split; reflexivity.
Qed.

(** Once a conversation has a turn, appending turns leaves its title. *)
Lemma addMessages_title (turns : list (str * str)) (s : state) (c : chat) :
  getActiveChat s = Conversation c -> messages c <> [] ->
  activeTitle (addMessages turns s) = Some (title c).
Proof.
  revert s c. induction turns as [|[r x] turns IH]; intros s c Hc Hm; simpl.
  - unfold activeTitle. now rewrite Hc.
  - destruct (addMessage_active r x s Hc) as [c' [Hc' [Hm' [Ht' _]]]].
    simpl. rewrite (IH _ c' Hc').
    + rewrite Ht'. rewrite length_app. simpl.
      destruct (messages c); [congruence|]. simpl.
      now rewrite Nat.add_comm.
    + rewrite Hm'. now destruct (messages c).
Qed.



(** C8: when a user turn is appended as the active conversation's first
    turn, the title becomes the first 30 code units of the content followed
    by "..." if the content is longer than 30, and the content itself
    otherwise; whatever turns are appended afterwards, the title stays. *)
Theorem first_user_turn_sets_title_once
    (s : state) (c : chat) (content : str) (later : list (str * str)) :
  getActiveChat s = Conversation c -> messages c = [] ->
  let expected :=
    if Nat.ltb 30 (length content)
    then firstn 30 content ++ lit "..." else content in
  let s1 := fst (addMessage (lit "user") content s) in
  activeTitle s1 = Some expected /\
  activeTitle (addMessages later s1) = Some expected.
Proof.
  intros Hc Hm expected s1.
  destruct (addMessage_active (lit "user") content s Hc) as [c' [Hc' [Hm' [Ht' _]]]].
  fold s1 in Hc'.
  assert (Et : title c' = expected).
  { rewrite Ht', Hm. simpl. unfold deriveTitle, expected, substringTo.
    destruct (Nat.ltb_spec 30 (length content)) as [Hl|Hl]; [reflexivity|].
    rewrite app_nil_r. now apply firstn_all2. }
  split.
  - unfold activeTitle. rewrite Hc'. simpl. now rewrite Et.
  - rewrite (addMessages_title later s1 Hc'); [now rewrite Et|].
    rewrite Hm'. now destruct (messages c).
Qed.

(** C8 at a 40-unit content sent to a fresh conversation and followed by an
    assistant turn and a second user turn. *)
Lemma first_user_turn_sets_title_once_witness :
  let content := lit "0123456789012345678901234567890123456789" in
  let later := [(lit "assistant", lit "ok"); (lit "user", lit "otra pregunta")] in
  let s1 := fst (addMessage (lit "user") content oneChat) in
  activeTitle s1 = Some (lit "012345678901234567890123456789...") /\
  activeTitle (addMessages later s1) = Some (lit "012345678901234567890123456789...").
Proof.
  intros content later s1.
  exact (first_user_turn_sets_title_once oneChat content later
           (c := Chat (chatIdOf 100) defaultTitle [] defaultSystemPrompt)
           eq_refl eq_refl).
Defined.

(** C9, amended: a conversation id is "chat_" followed by the clock reading
    at creation, which [parseInt] reads back from it; two [createNewChat]
    calls give different ids exactly when their clock readings differ.  Two
    calls within one clock millisecond give the same id, and the second
    conversation takes the place of the first. *)
Theorem createNewChat_ids (now1 now2 : Z) (s : state) :
  timeValue now1 -> timeValue now2 ->
  let r1 := createNewChat now1 s in
  let r2 := createNewChat now2 (fst r1) in
  embeddedTimestamp (snd r1) = Some now1 /\
  embeddedTimestamp (snd r2) = Some now2 /\
  (snd r1 <> snd r2 <-> now1 <> now2) /\
  (now1 = now2 -> keys (chats (fst r2)) = keys (chats (fst r1))) /\
  In (snd r1) (keys (chats (fst r1))) /\
  activeChatId (fst r2) = Some (snd r2).
Proof.
  intros _ _ r1 r2. subst r1 r2. simpl snd.
  rewrite !createNewChat_state. simpl.
  repeat split; try apply embeddedTimestamp_chatIdOf.
  - intros H E. subst. now apply H.
  - intros H E. apply chatIdOf_inj in E. contradiction.
  - intros <-. apply keys_assign_present. apply In_keys_assign. now left.
  - apply In_keys_assign. now left.
Qed.

(** C9, amended, at two calls one millisecond apart. *)
Lemma createNewChat_ids_witness :
  let r1 := createNewChat 1700000000000 defaultState in
  let r2 := createNewChat 1700000000001 (fst r1) in
  embeddedTimestamp (snd r1) = Some 1700000000000%Z /\
  embeddedTimestamp (snd r2) = Some 1700000000001%Z /\
  snd r1 <> snd r2.
Proof.
  intros r1 r2.
  assert (T1 : timeValue 1700000000000) by (unfold timeValue; lia).
  assert (T2 : timeValue 1700000000001) by (unfold timeValue; lia).
  destruct (createNewChat_ids defaultState T1 T2) as (E1 & E2 & D & _).
  split; [exact E1|]. split; [exact E2|]. apply D. discriminate.
Defined.

(** C9 as stated fails: two conversations created within the same clock
    millisecond get the same id, and the store holds one conversation. *)
Lemma createNewChat_same_millisecond_same_id :
  let r1 := createNewChat 1700000000000 defaultState in
  let r2 := createNewChat 1700000000000 (fst r1) in
  snd r1 = snd r2 /\ length (chats (fst r2)) = 1.
Proof. split; reflexivity. Qed.




End StateManagerSpec.

(* ================================================================== *)
(** ** [JSON.parse]: proofs *)
(* ================================================================== *)

Module JSONFacts.
Import JS JSFacts JSON.

(** *** The equations of the parser *)

Lemma parseValue_S (f : nat) (s : str) :
  parseValue (S f) s =
  match skipWs s with
  | [] => None
  | c :: r =>
      if N.eqb c 123 then
        match skipWs r with
        | c' :: r' =>
            if N.eqb c' 125 then Some (JObject [], r')
            else match parseMembers f r with
                 | Some (ms, r'') => Some (JObject ms, r'')
                 | None => None
                 end
        | [] => None
        end
      else if N.eqb c 91 then
        match skipWs r with
        | c' :: r' =>
            if N.eqb c' 93 then Some (JArray [], r')
            else match parseElements f r with
                 | Some (vs, r'') => Some (JArray vs, r'')
                 | None => None
                 end
        | [] => None
        end
      else if N.eqb c 34 then
        match parseString r with
        | Some (v, r') => Some (JString v, r')
        | None => None
        end
      else if startsWith (lit "true") (c :: r) then Some (JBool true, skipn 4 (c :: r))
      else if startsWith (lit "false") (c :: r) then Some (JBool false, skipn 5 (c :: r))
      else if startsWith (lit "null") (c :: r) then Some (JNull, skipn 4 (c :: r))
      else match parseNumber (c :: r) with
           | Some (n, r') => Some (JNumber n, r')
           | None => None
           end
  end.
Proof. reflexivity. Qed.

Lemma parseElements_S (f : nat) (s : str) :
  parseElements (S f) s =
  match parseValue f s with
  | Some (v, r) =>
      match skipWs r with
      | c :: r' =>
          if N.eqb c 44 then
            match parseElements f r' with
            | Some (vs, r'') => Some (v :: vs, r'')
            | None => None
            end
          else if N.eqb c 93 then Some ([v], r')
          else None
      | [] => None
      end
  | None => None
  end.
Proof. reflexivity. Qed.

Lemma parseMembers_S (f : nat) (s : str) :
  parseMembers (S f) s =
  match skipWs s with
  | q :: r0 =>
      if N.eqb q 34 then
        match parseString r0 with
        | Some (k, r1) =>
            match skipWs r1 with
            | colon :: r2 =>
                if N.eqb colon 58 then
                  match parseValue f r2 with
                  | Some (v, r3) =>
                      match skipWs r3 with
                      | c :: r4 =>
                          if N.eqb c 44 then
                            match parseMembers f r4 with
                            | Some (ms, r5) => Some ((k, v) :: ms, r5)
                            | None => None
                            end
                          else if N.eqb c 125 then Some ([(k, v)], r4)
                          else None
                      | [] => None
                      end
                  | None => None
                  end
                else None
            | [] => None
            end
        | None => None
        end
      else None
  | [] => None
  end.
Proof. reflexivity. Qed.

(** *** More fuel changes no result *)

Lemma parse_fuel_mono (f : nat) :
  (forall s x, parseValue f s = Some x -> parseValue (S f) s = Some x) /\
  (forall s x, parseElements f s = Some x -> parseElements (S f) s = Some x) /\
  (forall s x, parseMembers f s = Some x -> parseMembers (S f) s = Some x).
Proof.
  induction f as [|f [IHv [IHe IHm]]]; [repeat split; intros; discriminate|].
  repeat split; intros s x H.
  - rewrite parseValue_S in H. rewrite parseValue_S.
    destruct (skipWs s) as [|c r]; [discriminate|].
    destruct (N.eqb c 123).
    { destruct (skipWs r) as [|c' r']; [discriminate|].
      destruct (N.eqb c' 125); [exact H|].
      destruct (parseMembers f r) as [[ms r'']|] eqn:E; [|discriminate].
      now rewrite (IHm _ _ E). }
    destruct (N.eqb c 91); [|exact H].
    destruct (skipWs r) as [|c' r']; [discriminate|].
    destruct (N.eqb c' 93); [exact H|].
    destruct (parseElements f r) as [[vs r'']|] eqn:E; [|discriminate].
    now rewrite (IHe _ _ E).
  - rewrite parseElements_S in H. rewrite parseElements_S.
    destruct (parseValue f s) as [[v r]|] eqn:E; [|discriminate].
    rewrite (IHv _ _ E).
    destruct (skipWs r) as [|c r']; [discriminate|].
    destruct (N.eqb c 44); [|exact H].
    destruct (parseElements f r') as [[vs r'']|] eqn:E'; [|discriminate].
    now rewrite (IHe _ _ E').
  - rewrite parseMembers_S in H. rewrite parseMembers_S.
    destruct (skipWs s) as [|q r0]; [discriminate|].
    destruct (N.eqb q 34); [|discriminate].
    destruct (parseString r0) as [[k r1]|]; [|discriminate].
    destruct (skipWs r1) as [|colon r2]; [discriminate|].
    destruct (N.eqb colon 58); [|discriminate].
    destruct (parseValue f r2) as [[v r3]|] eqn:E; [|discriminate].
    rewrite (IHv _ _ E).
    destruct (skipWs r3) as [|c r4]; [discriminate|].
    destruct (N.eqb c 44); [|exact H].
    destruct (parseMembers f r4) as [[ms r5]|] eqn:E'; [|discriminate].
    now rewrite (IHm _ _ E').
Qed.

Lemma parseValue_fuel_le (f f' : nat) (s : str) (x : json * str) :
  f <= f' -> parseValue f s = Some x -> parseValue f' s = Some x.
Proof.
  induction 1 as [|f' Hle IH]; [auto|].
  intros H. apply parse_fuel_mono. auto.
Qed.

(** *** Reading on: text added after a parsed value *)

Lemma skipWs_app (s q : str) (c : N) (r : str) :
  skipWs s = c :: r -> skipWs (s ++ q) = c :: r ++ q.
Proof.
  induction s as [|x s IH]; simpl; [discriminate|].
  destruct (isJsonWs x); [exact IH|].
  intros H; injection H as <- <-. reflexivity.
Qed.

Lemma startsWith_app (p s q : str) :
  startsWith p s = true -> startsWith p (s ++ q) = true.
Proof.
  revert s. induction p as [|x p IH]; intros [|y s]; simpl; auto; try discriminate.
  intros H. apply andb_true_iff in H as [-> H]. simpl. auto.
Qed.

Lemma startsWith_head (x : N) (p : str) (c : N) (s : str) :
  startsWith (x :: p) (c :: s) = true -> c = x.
Proof.
  cbn [startsWith]. intros H. apply andb_true_iff in H as [H _].
  apply N.eqb_eq in H. congruence.
Qed.

Lemma startsWith_skipn_app (p s q : str) :
  startsWith p s = true -> skipn (length p) (s ++ q) = skipn (length p) s ++ q.
Proof.
  revert s. induction p as [|x p IH]; intros [|y s]; simpl; auto; try discriminate.
  intros H. apply andb_true_iff in H as [_ H]. auto.
Qed.

Lemma takeDigits_app (s q ds r : str) :
  takeDigits s = (ds, r) -> r <> [] -> takeDigits (s ++ q) = (ds, r ++ q).
Proof.
  revert ds. induction s as [|c s IH]; intros ds; simpl.
  - intros H; injection H as <- <-. congruence.
  - destruct (isDigit c).
    + destruct (takeDigits s) as [ds' r'] eqn:E.
      intros H Hr; injection H as <- <-.
      now rewrite (IH ds' eq_refl Hr).
    + intros H _; injection H as <- <-. reflexivity.
Qed.

(** What a sub-parser leaves is no longer than what it was given. *)
Lemma takeDigits_rest (s ds r : str) :
  takeDigits s = (ds, r) -> r <> [] -> s <> [].
Proof. destruct s; simpl; [intros H; injection H as <- <-; auto|discriminate]. Qed.

Lemma parseString_app (s q v r : str) :
  parseString s = Some (v, r) -> parseString (s ++ q) = Some (v, r ++ q).
Proof.
  remember (length s) as n eqn:Hn. revert s v Hn.
  induction n as [n IH] using lt_wf_ind. intros s v Hn.
  destruct s as [|c s]; [discriminate|].
  cbn [parseString app].
  destruct (N.eqb c 34).
  { intros H; injection H as <- <-. reflexivity. }
  destruct (N.eqb c 92).
  { destruct s as [|e s]; [discriminate|]. cbn [app].
    destruct (N.eqb e 117).
    - destruct s as [|h1 [|h2 [|h3 [|h4 s]]]]; try discriminate. cbn [app].
      destruct (hex4 h1 h2 h3 h4) as [u|]; [|discriminate].
      destruct (parseString s) as [[m r']|] eqn:E; [|discriminate].
      intros H; injection H as <- <-.
      rewrite (IH (length s)) with (v := m); [reflexivity|simpl in Hn; lia|reflexivity|exact E].
    - destruct (simpleEscape e) as [u|]; [|discriminate].
      destruct (parseString s) as [[m r']|] eqn:E; [|discriminate].
      intros H; injection H as <- <-.
      rewrite (IH (length s)) with (v := m); [reflexivity|simpl in Hn; lia|reflexivity|exact E]. }
  destruct (N.ltb c 32); [discriminate|].
  destruct (parseString s) as [[m r']|] eqn:E; [|discriminate].
  intros H; injection H as <- <-.
  rewrite (IH (length s)) with (v := m); [reflexivity|simpl in Hn; lia|reflexivity|exact E].
Qed.

Lemma parseIntPart_app (s q ints r : str) :
  parseIntPart s = Some (ints, r) -> r <> [] ->
  parseIntPart (s ++ q) = Some (ints, r ++ q).
Proof.
  destruct s as [|c s]; [discriminate|]. unfold parseIntPart. cbn [app].
  destruct (N.eqb c 48).
  - intros H _; injection H as <- <-. reflexivity.
  - destruct (isDigit c) eqn:Ed; [|discriminate].
    intros H Hr. injection H as H.
    change (c :: s ++ q) with ((c :: s) ++ q).
    now rewrite (takeDigits_app (c :: s) q H Hr).
Qed.

Lemma parseFraction_app (s q fracs r : str) :
  parseFraction s = Some (fracs, r) -> r <> [] ->
  parseFraction (s ++ q) = Some (fracs, r ++ q).
Proof.
  destruct s as [|c s]; [intros H; injection H as <- <-; congruence|].
  unfold parseFraction. cbn [app].
  destruct (N.eqb c 46).
  - destruct (takeDigits s) as [ds r'] eqn:E.
    destruct ds as [|d ds]; [discriminate|].
    intros H Hr; injection H as <- <-.
    now rewrite (takeDigits_app s q E Hr).
  - intros H _; injection H as <- <-. reflexivity.
Qed.

Lemma parseExponent_app (s q : str) (e : Z) (r : str) :
  parseExponent s = Some (e, r) -> r <> [] ->
  parseExponent (s ++ q) = Some (e, r ++ q).
Proof.
  destruct s as [|c s]; [intros H; injection H as <- <-; congruence|].
  unfold parseExponent. cbn [app].
  destruct (N.eqb c 101 || N.eqb c 69).
  - destruct s as [|sg t].
    + simpl. discriminate.
    + cbn [app].
      destruct (N.eqb sg 45).
      * destruct (takeDigits t) as [ds r'] eqn:E.
        destruct ds as [|d ds]; [discriminate|].
        intros H Hr; injection H as <- <-.
        now rewrite (takeDigits_app t q E Hr).
      * destruct (N.eqb sg 43).
        -- destruct (takeDigits t) as [ds r'] eqn:E.
           destruct ds as [|d ds]; [discriminate|].
           intros H Hr; injection H as <- <-.
           now rewrite (takeDigits_app t q E Hr).
        -- destruct (takeDigits (sg :: t)) as [ds r'] eqn:E.
           destruct ds as [|d ds]; [discriminate|].
           intros H Hr; injection H as <- <-.
           change (sg :: t ++ q) with ((sg :: t) ++ q).
           now rewrite (takeDigits_app (sg :: t) q E Hr).
  - intros H _; injection H as <- <-. reflexivity.
Qed.

Lemma parseIntPart_nonempty (s ints r : str) :
  parseIntPart s = Some (ints, r) -> s <> [].
Proof. destruct s; [discriminate|discriminate]. Qed.

Lemma parseFraction_rest (s fracs r : str) :
  parseFraction s = Some (fracs, r) -> r <> [] -> s <> [].
Proof. destruct s; [intros H; injection H as <- <-; auto|discriminate]. Qed.

Lemma parseExponent_rest (s : str) (e : Z) (r : str) :
  parseExponent s = Some (e, r) -> r <> [] -> s <> [].
Proof. destruct s; [intros H; injection H as <- <-; auto|discriminate]. Qed.

Lemma parseNumber_app (s q : str) (n : jnumber) (r : str) :
  parseNumber s = Some (n, r) -> r <> [] ->
  parseNumber (s ++ q) = Some (n, r ++ q).
Proof.
  unfold parseNumber. intros H Hr.
  assert (G : forall neg s1,
    match parseIntPart s1 with
    | Some (ints, s2) =>
        match parseFraction s2 with
        | Some (fracs, s3) =>
            match parseExponent s3 with
            | Some (e, s4) =>
                Some (JNum neg (valueOfDigits (ints ++ fracs))
                           (e - Z.of_nat (length fracs))%Z, s4)
            | None => None
            end
        | None => None
        end
    | None => None
    end = Some (n, r) ->
    match parseIntPart (s1 ++ q) with
    | Some (ints, s2) =>
        match parseFraction s2 with
        | Some (fracs, s3) =>
            match parseExponent s3 with
            | Some (e, s4) =>
                Some (JNum neg (valueOfDigits (ints ++ fracs))
                           (e - Z.of_nat (length fracs))%Z, s4)
            | None => None
            end
        | None => None
        end
    | None => None
    end = Some (n, r ++ q)).
  { intros neg s1 G.
    destruct (parseIntPart s1) as [[ints s2]|] eqn:E1; [|discriminate].
    destruct (parseFraction s2) as [[fracs s3]|] eqn:E2; [|discriminate].
    destruct (parseExponent s3) as [[e s4]|] eqn:E3; [|discriminate].
    injection G as <- <-.
    pose proof (parseExponent_rest E3 Hr) as H3.
    pose proof (parseFraction_rest E2 H3) as H2.
    rewrite (parseIntPart_app _ q E1 H2), (parseFraction_app _ q E2 H3),
            (parseExponent_app _ q E3 Hr). reflexivity. }
  destruct s as [|c s].
  - simpl in H. discriminate.
  - cbn [app]. destruct (N.eqb c 45).
    + apply G. exact H.
    + change (c :: s ++ q) with ((c :: s) ++ q). apply G. exact H.
Qed.

(** A number starts with a minus sign or a digit. *)
Definition startsNumber (c : N) : bool := N.eqb c 45 || isDigit c.

Lemma parseNumber_head (c : N) (s : str) (x : jnumber * str) :
  parseNumber (c :: s) = Some x -> startsNumber c = true.
Proof.
  unfold parseNumber, startsNumber.
  destruct (N.eqb c 45); [reflexivity|]. simpl.
  unfold parseIntPart.
  destruct (N.eqb_spec c 48) as [->|]; [reflexivity|].
  destruct (isDigit c); [reflexivity|discriminate].
Qed.

Lemma startsNumber_cases (c : N) :
  startsNumber c = true ->
  N.eqb c 123 = false /\ N.eqb c 91 = false /\ N.eqb c 34 = false /\
  N.eqb 116 c = false /\ N.eqb 102 c = false /\ N.eqb 110 c = false.
Proof.
  unfold startsNumber, isDigit. intros H.
  apply orb_true_iff in H.
  rewrite N.eqb_eq, andb_true_iff, !N.leb_le in H.
  repeat split; apply N.eqb_neq; lia.
Qed.

(** The value parsed stays the value, and what follows it stays what
    follows, when text is added at the end -- unless the value is a number
    that ends the text, which the added text may continue. *)
Definition isNumber (v : json) : bool :=
  match v with JNumber _ => true | _ => false end.

Lemma parse_app (q : str) (f : nat) :
  (forall s v r, parseValue f s = Some (v, r) -> r <> [] \/ isNumber v = false ->
                 parseValue f (s ++ q) = Some (v, r ++ q)) /\
  (forall s vs r, parseElements f s = Some (vs, r) ->
                  parseElements f (s ++ q) = Some (vs, r ++ q)) /\
  (forall s ms r, parseMembers f s = Some (ms, r) ->
                  parseMembers f (s ++ q) = Some (ms, r ++ q)).
Proof.
  induction f as [|f [IHv [IHe IHm]]]; [repeat split; intros; discriminate|].
  repeat split.
  - intros s v r H Hr. rewrite parseValue_S in H. rewrite parseValue_S.
    destruct (skipWs s) as [|c r0] eqn:Es; [discriminate|].
    rewrite (skipWs_app s q Es).
    destruct (N.eqb c 123) eqn:E123.
    { destruct (skipWs r0) as [|c' r'] eqn:Es'; [discriminate|].
      rewrite (skipWs_app r0 q Es').
      destruct (N.eqb c' 125).
      - injection H as <- <-. reflexivity.
      - destruct (parseMembers f r0) as [[ms r'']|] eqn:E; [|discriminate].
        injection H as <- <-. now rewrite (IHm _ _ _ E). }
    destruct (N.eqb c 91) eqn:E91.
    { destruct (skipWs r0) as [|c' r'] eqn:Es'; [discriminate|].
      rewrite (skipWs_app r0 q Es').
      destruct (N.eqb c' 93).
      - injection H as <- <-. reflexivity.
      - destruct (parseElements f r0) as [[vs r'']|] eqn:E; [|discriminate].
        injection H as <- <-. now rewrite (IHe _ _ _ E). }
    destruct (N.eqb c 34) eqn:E34.
    { destruct (parseString r0) as [[k r']|] eqn:E; [|discriminate].
      injection H as <- <-. now rewrite (parseString_app r0 q E). }
    change (c :: r0 ++ q) with ((c :: r0) ++ q).
    destruct (startsWith (lit "true") (c :: r0)) eqn:Et.
    { injection H as <- <-. rewrite (startsWith_app _ _ q Et).
      pose proof (startsWith_skipn_app (lit "true") (c :: r0) q Et) as K.
      change (length (lit "true")) with 4 in K. now rewrite K. }
    destruct (startsWith (lit "false") (c :: r0)) eqn:Ef.
    { injection H as <- <-.
      assert (T : startsWith (lit "true") ((c :: r0) ++ q) = false).
      { rewrite (startsWith_head 102 (lit "alse") c r0 Ef). reflexivity. }
      rewrite T, (startsWith_app _ _ q Ef).
      pose proof (startsWith_skipn_app (lit "false") (c :: r0) q Ef) as K.
      change (length (lit "false")) with 5 in K. now rewrite K. }
    destruct (startsWith (lit "null") (c :: r0)) eqn:En.
    { injection H as <- <-.
      assert (T : startsWith (lit "true") ((c :: r0) ++ q) = false /\
                  startsWith (lit "false") ((c :: r0) ++ q) = false).
      { rewrite (startsWith_head 110 (lit "ull") c r0 En). split; reflexivity. }
      destruct T as [-> ->]. rewrite (startsWith_app _ _ q En).
      pose proof (startsWith_skipn_app (lit "null") (c :: r0) q En) as K.
      change (length (lit "null")) with 4 in K. now rewrite K. }
    destruct (parseNumber (c :: r0)) as [[n r']|] eqn:E; [|discriminate].
    injection H as <- <-.
    destruct Hr as [Hr|Hr]; [|discriminate].
    pose proof (startsNumber_cases _ (parseNumber_head _ _ E)) as (_ & _ & _ & Ht & Hf & Hn).
    cbn [app startsWith lit map String.list_ascii_of_string].
    change (N_of_ascii "t") with 116%N. change (N_of_ascii "f") with 102%N.
    change (N_of_ascii "n") with 110%N.
    rewrite Ht, Hf, Hn. cbn [andb].
    change (c :: r0 ++ q) with ((c :: r0) ++ q).
    now rewrite (parseNumber_app _ q E Hr).
  - intros s vs r H. rewrite parseElements_S in H. rewrite parseElements_S.
    destruct (parseValue f s) as [[v r1]|] eqn:E; [|discriminate].
    destruct (skipWs r1) as [|c r'] eqn:Es; [discriminate|].
    assert (Hr1 : r1 <> []) by (intros ->; discriminate).
    rewrite (IHv _ _ _ E (or_introl Hr1)), (skipWs_app r1 q Es).
    destruct (N.eqb c 44).
    + destruct (parseElements f r') as [[vs' r'']|] eqn:E'; [|discriminate].
      injection H as <- <-. now rewrite (IHe _ _ _ E').
    + destruct (N.eqb c 93); [|discriminate].
      injection H as <- <-. reflexivity.
  - intros s ms r H. rewrite parseMembers_S in H. rewrite parseMembers_S.
    destruct (skipWs s) as [|qt r0] eqn:Es; [discriminate|].
    rewrite (skipWs_app s q Es).
    destruct (N.eqb qt 34); [|discriminate].
    destruct (parseString r0) as [[k r1]|] eqn:Ek; [|discriminate].
    rewrite (parseString_app r0 q Ek).
    destruct (skipWs r1) as [|colon r2] eqn:Es1; [discriminate|].
    rewrite (skipWs_app r1 q Es1).
    destruct (N.eqb colon 58); [|discriminate].
    destruct (parseValue f r2) as [[v r3]|] eqn:E; [|discriminate].
    destruct (skipWs r3) as [|c r4] eqn:Es3; [discriminate|].
    assert (Hr3 : r3 <> []) by (intros ->; discriminate).
    rewrite (IHv _ _ _ E (or_introl Hr3)), (skipWs_app r3 q Es3).
    destruct (N.eqb c 44).
    + destruct (parseMembers f r4) as [[ms' r5]|] eqn:E'; [|discriminate].
      injection H as <- <-. now rewrite (IHm _ _ _ E').
    + destruct (N.eqb c 125); [|discriminate].
      injection H as <- <-. reflexivity.
Qed.

(** *** A text cut short *)

Lemma skipWs_app_nil (a b : str) : skipWs (a ++ b) = [] -> skipWs b = [].
Proof.
  induction a as [|c a IH]; simpl; [auto|].
  destruct (isJsonWs c); [exact IH|discriminate].
Qed.

Lemma parseValue_number_head (f : nat) (s : str) (n : jnumber) (r : str) :
  parseValue f s = Some (JNumber n, r) ->
  exists c r0, skipWs s = c :: r0 /\ startsNumber c = true.
Proof.
  destruct f as [|f]; [discriminate|]. rewrite parseValue_S.
  destruct (skipWs s) as [|c r0]; [discriminate|].
  destruct (N.eqb c 123).
  { destruct (skipWs r0) as [|c' r']; [discriminate|].
    destruct (N.eqb c' 125); [discriminate|].
    destruct (parseMembers f r0) as [[ms r'']|]; discriminate. }
  destruct (N.eqb c 91).
  { destruct (skipWs r0) as [|c' r']; [discriminate|].
    destruct (N.eqb c' 93); [discriminate|].
    destruct (parseElements f r0) as [[vs r'']|]; discriminate. }
  destruct (N.eqb c 34).
  { destruct (parseString r0) as [[k r']|]; discriminate. }
  destruct (startsWith (lit "true") (c :: r0)); [discriminate|].
  destruct (startsWith (lit "false") (c :: r0)); [discriminate|].
  destruct (startsWith (lit "null") (c :: r0)); [discriminate|].
  destruct (parseNumber (c :: r0)) as [[n' r']|] eqn:E; [|discriminate].
  intros _. exists c, r0. split; [reflexivity|].
  exact (parseNumber_head _ _ E).
Qed.

Lemma parseValue_head_number (f : nat) (s : str) (c : N) (r0 : str) (v : json) (r : str) :
  skipWs s = c :: r0 -> startsNumber c = true ->
  parseValue f s = Some (v, r) -> isNumber v = true.
Proof.
  intros Es Hc. destruct f as [|f]; [discriminate|]. rewrite parseValue_S, Es.
  destruct (startsNumber_cases _ Hc) as (-> & -> & -> & Ht & Hf & Hn).
  cbn [startsWith lit map String.list_ascii_of_string].
  change (N_of_ascii "t") with 116%N. change (N_of_ascii "f") with 102%N.
  change (N_of_ascii "n") with 110%N.
  rewrite Ht, Hf, Hn. cbn [andb].
  destruct (parseNumber (c :: r0)) as [[n r']|]; [|discriminate].
  intros H; injection H as <- _. reflexivity.
Qed.

Lemma fuelFor_app (p q : str) : fuelFor p <= fuelFor (p ++ q).
Proof. unfold fuelFor. rewrite length_app. lia. Qed.

(** If a text parses to a value that is no number, no shorter beginning
    of it parses, except one that lacks only whitespace. *)
Theorem parse_cut_short (p q : str) (j : json) :
  JSON.parse (p ++ q) = Some j -> isNumber j = false -> skipWs q <> [] ->
  JSON.parse p = None.
Proof.
  intros Hfull Hj Hq.
  destruct (JSON.parse p) as [vp|] eqn:Hp; [exfalso|reflexivity].
  unfold JSON.parse in Hp, Hfull.
  destruct (parseValue (fuelFor p) p) as [[v r]|] eqn:Ep; [|discriminate].
  destruct (skipWs r) eqn:Er; [|discriminate]. injection Hp as ->.
  destruct (parseValue (fuelFor (p ++ q)) (p ++ q)) as [[v' r']|] eqn:Efull; [|discriminate].
  destruct (skipWs r') eqn:Er'; [|discriminate]. injection Hfull as ->.
  assert (Cases : r <> [] \/ isNumber vp = false \/ (r = [] /\ isNumber vp = true)).
  { destruct r; [|left; discriminate]. destruct (isNumber vp); auto. }
  destruct Cases as [C|[C|[Cr Cn]]].
  - pose proof (proj1 (parse_app q (fuelFor p)) _ _ _ Ep (or_introl C)) as E.
    apply (parseValue_fuel_le _ (fuelFor_app p q)) in E.
    rewrite E in Efull. injection Efull as _ <-.
    apply Hq. eapply skipWs_app_nil; eauto.
  - pose proof (proj1 (parse_app q (fuelFor p)) _ _ _ Ep (or_intror C)) as E.
    apply (parseValue_fuel_le _ (fuelFor_app p q)) in E.
    rewrite E in Efull. injection Efull as _ <-.
    apply Hq. eapply skipWs_app_nil; eauto.
  - destruct vp; try discriminate.
    destruct (parseValue_number_head _ _ Ep) as [c [r0 [Es Hc]]].
    pose proof (parseValue_head_number _ _ (skipWs_app p q Es) Hc Efull) as Hn.
    congruence.
Qed.

(** *** The sentinel is no JSON text *)

Lemma whiteSpace_not_json_head (c : N) :
  isWhiteSpace c = true -> isJsonWs c = false ->
  N.eqb c 123 = false /\ N.eqb c 91 = false /\ N.eqb c 34 = false /\
  N.eqb 116 c = false /\ N.eqb 102 c = false /\ N.eqb 110 c = false /\
  startsNumber c = false.
Proof.
  unfold isWhiteSpace, startsNumber, isDigit. intros H _.
  rewrite !orb_true_iff, !andb_true_iff, !N.eqb_eq, !N.leb_le in H.
  assert (D : N.leb 48 c && N.leb c 57 = false).
  { apply andb_false_iff. rewrite !N.leb_gt. lia. }
  rewrite D. repeat split; try (apply N.eqb_neq; lia).
  rewrite orb_false_r. apply N.eqb_neq. lia.
Qed.

Lemma parseNumber_not_number (c : N) (s : str) :
  startsNumber c = false -> parseNumber (c :: s) = None.
Proof.
  unfold startsNumber. intros H. apply orb_false_iff in H as [H1 H2].
  unfold parseNumber. rewrite H1. unfold parseIntPart.
  rewrite H2. destruct (N.eqb_spec c 48) as [->|]; [discriminate H2|reflexivity].
Qed.

Lemma parseValue_after_whiteSpace (w t : str) :
  forallb isWhiteSpace w = true ->
  (forall f, parseValue f t = None) ->
  forall f, parseValue f (w ++ t) = None.
Proof.
  intros Hw Ht. induction w as [|c w IH]; [exact Ht|].
  simpl in Hw. apply andb_true_iff in Hw as [Hc Hw]. specialize (IH Hw).
  intros [|f]; [reflexivity|]. rewrite parseValue_S. cbn [app skipWs].
  destruct (isJsonWs c) eqn:Ej.
  - specialize (IH (S f)). rewrite parseValue_S in IH. exact IH.
  - destruct (whiteSpace_not_json_head c Hc Ej) as (-> & -> & -> & Ht' & Hf & Hn & Hnum).
    cbn [startsWith lit map String.list_ascii_of_string].
    change (N_of_ascii "t") with 116%N. change (N_of_ascii "f") with 102%N.
    change (N_of_ascii "n") with 110%N.
    rewrite Ht', Hf, Hn. cbn [andb].
    now rewrite (parseNumber_not_number c _ Hnum).
Qed.

Lemma parse_sentinel_followed (data q : str) :
  trim data = lit "[DONE]" -> JSON.parse (data ++ q) = None.
Proof.
  unfold trim. intros H.
  destruct (trimStart_split data) as [w1 [E1 H1]].
  destruct (trimEnd_split (trimStart data)) as [w2 [E2 _]].
  rewrite H in E2. rewrite E2 in E1.
  assert (E : data ++ q = w1 ++ (lit "[DONE]" ++ w2 ++ q)).
  { rewrite E1 at 1. now rewrite <- !app_assoc. }
  unfold JSON.parse. rewrite E at 2.
  rewrite parseValue_after_whiteSpace; [reflexivity|exact H1|].
  intros [|[|[|f]]]; reflexivity.
Qed.

Lemma parse_sentinel (data : str) :
  trim data = lit "[DONE]" -> JSON.parse data = None.
Proof.
  intros H. rewrite <- (app_nil_r data). now apply parse_sentinel_followed.
Qed.

End JSONFacts.

(* ================================================================== *)
(** ** The stream decoder: proofs *)
(* ================================================================== *)

Module StreamDecoderFacts.
Import JS JSFacts JSON StreamDecoder.

(** *** The decoder across chunks *)

(** Decoding two chunks one after the other is decoding their bytes at
    once: the decoder carries what is pending. *)
Lemma decode_app (d : TextDecoder.decoder) (a b : list Byte.byte) :
  TextDecoder.decode d (a ++ b) =
  let (d1, o1) := TextDecoder.decode d a in
  let (d2, o2) := TextDecoder.decode d1 b in
  (d2, o1 ++ o2).
Proof.
  revert d. induction a as [|x a IH]; intros d; simpl.
  - now destruct (TextDecoder.decode d b).
  - destruct (TextDecoder.handleByte d (Byte.to_N x)) as [d1 cps].
    destruct (TextDecoder.serialize (TextDecoder.bomSeen d1) cps) as [seen out1].
    rewrite IH.
    destruct (TextDecoder.decode _ a) as [d3 o3].
    destruct (TextDecoder.decode d3 b) as [d4 o4].
    now rewrite app_assoc.
Qed.

(** The texts [decoder.decode] returns for the successive reads, and the
    decoder after the last. *)
Fixpoint chunkTexts (d : TextDecoder.decoder) (reads : list (list Byte.byte))
  : TextDecoder.decoder * list str :=
  match reads with
  | [] => (d, [])
  | value :: more =>
      let (d', chunk) := TextDecoder.decode d value in
      let (d'', chunks) := chunkTexts d' more in
      (d'', chunk :: chunks)
  end.

Lemma chunkTexts_concat (d : TextDecoder.decoder) (reads : list (list Byte.byte)) :
  TextDecoder.decode d (concat reads) =
  (fst (chunkTexts d reads), concat (snd (chunkTexts d reads))).
Proof.
  revert d. induction reads as [|value more IH]; intros d; simpl; [reflexivity|].
  rewrite decode_app.
  destruct (TextDecoder.decode d value) as [d' chunk].
  rewrite IH. destruct (chunkTexts d' more) as [d'' chunks]. reflexivity.
Qed.

Lemma chunkTexts_app (d : TextDecoder.decoder) (a b : list (list Byte.byte)) :
  chunkTexts d (a ++ b) =
  let (d1, t1) := chunkTexts d a in
  let (d2, t2) := chunkTexts d1 b in
  (d2, t1 ++ t2).
Proof.
  revert d. induction a as [|x a IH]; intros d; simpl.
  - now destruct (chunkTexts d b).
  - destruct (TextDecoder.decode d x) as [d' chunk]. rewrite IH.
    destruct (chunkTexts d' a) as [d1 t1]. now destruct (chunkTexts d1 b).
Qed.

(** *** Splitting on the event delimiter *)

(** [split] on the delimiter, by recursion on the text. *)
Fixpoint pieces (cur : str) (s : str) : list str :=
  match s with
  | [] => [rev cur]
  | c :: s' =>
      match s' with
      | c' :: s'' =>
          if N.eqb LF c && N.eqb LF c' then rev cur :: pieces [] s''
          else pieces (c :: cur) s'
      | [] => pieces (c :: cur) s'
      end
  end.

Lemma split_go_pieces (fuel : nat) (cur s : str) :
  length s <= fuel -> split_go EVENT_DELIMITER cur fuel s = pieces cur s.
Proof.
  revert cur s. induction fuel as [|fuel IH]; intros cur s Hf.
  - destruct s; [|simpl in Hf; lia]. simpl. now rewrite app_nil_r.
  - destruct s as [|c [|c' s'']].
    + reflexivity.
    + cbn [split_go startsWith EVENT_DELIMITER pieces].
      rewrite andb_false_r. apply IH. simpl. lia.
    + cbn [split_go startsWith EVENT_DELIMITER pieces length skipn].
      rewrite andb_true_r. simpl in Hf.
      destruct (N.eqb LF c && N.eqb LF c'); [apply (f_equal (cons (rev cur)))|]; apply IH; simpl; lia.
Qed.

Lemma split_pieces (s : str) : split EVENT_DELIMITER s = pieces [] s.
Proof. apply split_go_pieces. lia. Qed.

Lemma pieces_cons2 (cur : str) (c c' : N) (s : str) :
  pieces cur (c :: c' :: s) =
  if N.eqb LF c && N.eqb LF c' then rev cur :: pieces [] s
  else pieces (c :: cur) (c' :: s).
Proof. reflexivity. Qed.

Lemma pieces_nonempty (cur s : str) : pieces cur s <> [].
Proof.
  revert cur. induction s as [|c s IH]; intros cur.
  - intros E; discriminate E.
  - destruct s as [|c' s'']; [intros E; discriminate E|].
    rewrite pieces_cons2.
    destruct (N.eqb LF c && N.eqb LF c'); [intros E; discriminate E|apply IH].
Qed.

(** A text whose last piece is empty ends on a delimiter; what follows it
    is split on its own. *)
Lemma pieces_app (a b : str) (cur : str) (front : list str) :
  pieces cur a = front ++ [[]] ->
  pieces cur (a ++ b) = front ++ pieces [] b.
Proof.
  remember (length a) as n eqn:Hn. revert a cur front Hn.
  induction n as [n IH] using lt_wf_ind. intros a cur front Hn.
  destruct a as [|c [|c' a'']].
  - intros H. destruct front as [|x [|y front]]; simpl in H; try discriminate.
    injection H as H. apply (f_equal (@rev N)) in H. rewrite rev_involutive in H.
    simpl in H. subst cur. reflexivity.
  - intros H. destruct front as [|x [|y front]]; simpl in H; try discriminate.
    injection H as H. apply (f_equal (@length N)) in H.
    rewrite length_app in H. simpl in H. lia.
  - change ((c :: c' :: a'') ++ b) with (c :: c' :: (a'' ++ b)).
    rewrite !pieces_cons2.
    destruct (N.eqb LF c && N.eqb LF c') eqn:E.
    + intros H. destruct front as [|x front].
      * simpl in H. injection H as _ H. now apply pieces_nonempty in H.
      * simpl in H. injection H as <- H. simpl. apply (f_equal (cons (rev cur))).
        apply (IH (length a'')); [simpl in Hn; lia|reflexivity|exact H].
    + intros H.
      change (c' :: a'' ++ b) with ((c' :: a'') ++ b).
      apply (IH (length (c' :: a''))); [simpl in *; lia|reflexivity|exact H].
Qed.

(** *** The loop over the lines of a chunk *)

(** A line that carries the sentinel: the one case of [break]. *)
Definition isSentinelLine (line : str) : bool :=
  startsWith DATA_MARKER line && str_eqb (trim (substringFrom 6 line)) DONE.

(** A line the loop looks into. *)
Definition isDataLine (line : str) : bool := startsWith DATA_MARKER line.

(** A chunk made of whole events, none of them the sentinel: its text ends
    on a delimiter. *)
Definition wholeEvents (chunk : str) : Prop :=
  exists front, split EVENT_DELIMITER chunk = front ++ [[]] /\
                Forall (fun l => isSentinelLine l = false) front.

(** All the lines the loop sees, read after read. *)
Definition allLines (d : TextDecoder.decoder) (reads : list (list Byte.byte)) : list str :=
  concat (map (split EVENT_DELIMITER) (snd (chunkTexts d reads))).

Section Loop.

Variable Number_toString : jnumber -> str.

Local Abbreviation processLine := (processLine Number_toString).
Local Abbreviation forLines := (forLines Number_toString).
Local Abbreviation processChunk := (processChunk Number_toString).
Local Abbreviation readLoop := (readLoop Number_toString).

Lemma processLine_Break (line : str) :
  processLine line = Break <-> isSentinelLine line = true.
Proof.
  unfold StreamDecoder.processLine, isSentinelLine.
  destruct (startsWith DATA_MARKER line); simpl; [|split; discriminate].
  destruct (str_eqb _ DONE); [tauto|].
  split; [|discriminate].
  destruct (JSON.parse _) as [j|]; [|discriminate].
  destruct (deltaContent j) as [[c|]|]; try discriminate.
  destruct (truthy c); [|discriminate].
  destruct (toString _ c); discriminate.
Qed.

Lemma processLine_not_data (line : str) :
  isDataLine line = false -> processLine line = Skip.
Proof. unfold StreamDecoder.processLine, isDataLine. now intros ->. Qed.

Lemma isDataLine_sentinel (line : str) :
  isDataLine line = false -> isSentinelLine line = false.
Proof. unfold isSentinelLine, isDataLine. now intros ->. Qed.

Lemma forLines_sentinel (line : str) (rest : list str) (p : progress) :
  isSentinelLine line = true -> forLines (line :: rest) p = p.
Proof. intros H. apply processLine_Break in H. simpl. now rewrite H. Qed.

Lemma forLines_app (a b : list str) (p : progress) :
  Forall (fun l => isSentinelLine l = false) a ->
  forLines (a ++ b) p = forLines b (forLines a p).
Proof.
  intros H. revert p. induction H as [|l a Hl Ha IH]; intros p; simpl; [reflexivity|].
  destruct (processLine l) eqn:E; auto.
  apply processLine_Break in E. congruence.
Qed.

(** Lines that are not data lines change nothing. *)
Lemma forLines_skip (a : list str) (p : progress) :
  Forall (fun l => isDataLine l = false) a -> forLines a p = p.
Proof.
  induction 1 as [|l a Hl Ha IH]; simpl; [reflexivity|].
  now rewrite (processLine_not_data l Hl).
Qed.

Lemma forLines_empty_line (p : progress) : forLines [[]] p = p.
Proof. reflexivity. Qed.

(** After a chunk of whole events the rest of the text is processed as a
    chunk of its own would be. *)
Lemma processChunk_app (a b : str) (p : progress) :
  wholeEvents a -> processChunk (a ++ b) p = processChunk b (processChunk a p).
Proof.
  intros [front [Hs Hf]]. unfold StreamDecoder.processChunk.
  rewrite !split_pieces in *. rewrite (pieces_app a b [] front Hs), Hs.
  rewrite !forLines_app by exact Hf. now rewrite forLines_empty_line.
Qed.

(** The loop is a fold of [processChunk] over the decoded chunk texts; the
    decoder it ends with is the one the last chunk left, pending bytes
    included: nothing is flushed. *)
Lemma readLoop_chunkTexts (d : TextDecoder.decoder) (p : progress)
    (reads : list (list Byte.byte)) :
  readLoop d p reads =
  (fst (chunkTexts d reads),
   fold_left (fun q chunk => processChunk chunk q) (snd (chunkTexts d reads)) p).
Proof.
  revert d p. induction reads as [|value more IH]; intros d p; simpl; [reflexivity|].
  destruct (TextDecoder.decode d value) as [d' chunk].
  rewrite IH. now destruct (chunkTexts d' more).
Qed.

(** When no line is the sentinel, the loop is one pass over all lines. *)
Lemma readLoop_allLines (d : TextDecoder.decoder) (p : progress)
    (reads : list (list Byte.byte)) :
  Forall (fun l => isSentinelLine l = false) (allLines d reads) ->
  snd (readLoop d p reads) = forLines (allLines d reads) p.
Proof.
  unfold allLines. revert d p.
  induction reads as [|value more IH]; intros d p; simpl; [reflexivity|].
  destruct (TextDecoder.decode d value) as [d' chunk] eqn:Ed.
  specialize (IH d'). destruct (chunkTexts d' more) as [d'' chunks] eqn:Ec.
  simpl in *. intros H. apply Forall_app in H as [H1 H2].
  rewrite forLines_app by exact H1. now apply IH.
Qed.

(** Reads that each deliver whole events give the same result as one read
    of all their bytes. *)
Lemma readLoop_whole_events (d : TextDecoder.decoder) (p : progress)
    (front : list (list Byte.byte)) (last : list Byte.byte) :
  Forall wholeEvents (snd (chunkTexts d front)) ->
  readLoop d p (front ++ [last]) = readLoop d p [concat (front ++ [last])].
Proof.
  revert d p. induction front as [|value front IH]; intros d p.
  - simpl. now rewrite app_nil_r.
  - simpl. rewrite decode_app.
    destruct (TextDecoder.decode d value) as [d1 t1] eqn:E1.
    specialize (IH d1). destruct (chunkTexts d1 front) as [d2 ts] eqn:Ec.
    simpl. intros H. inversion H as [|x l Hw Hrest]; subst.
    rewrite (IH (processChunk t1 p) Hrest). simpl.
    destruct (TextDecoder.decode d1 (concat (front ++ [last]))) as [d3 t3].
    now rewrite processChunk_app.
Qed.

End Loop.

End StreamDecoderFacts.

(* ================================================================== *)
(** ** The stream decoder: the specification's statements *)
(* ================================================================== *)

Module StreamDecoderSpec.
Import JS JSFacts JSON JSONFacts StreamDecoder StreamDecoderFacts.

(** A payload that carries the content increment [content]. *)
Definition carriesIncrement (payload content : str) : Prop :=
  exists j, JSON.parse payload = Some j /\
            deltaContent j = Some (Some (JString content)) /\
            content <> [].

(** The provider's frame for an increment written with apostrophes, and
    an event: a segment and the delimiter. *)
Definition frame (content : String.string) : str :=
  dq "data: {'choices':[{'delta':{'content':'" ++ lit content ++ dq "'}}]}".

Definition event (segment : str) : str := segment ++ EVENT_DELIMITER.

Lemma deltaContent_not_number (j : json) (c : option json) :
  deltaContent j = Some c -> isNumber j = false.
Proof. destruct j; simpl; auto; discriminate. Qed.

Section Statements.

Variable Number_toString : jnumber -> str.

Local Abbreviation processLine := (processLine Number_toString).
Local Abbreviation forLines := (forLines Number_toString).
Local Abbreviation readLoop := (readLoop Number_toString).
Local Abbreviation _processStream := (_processStream Number_toString).

Lemma processLine_data (payload : str) :
  processLine (DATA_MARKER ++ payload) =
  if str_eqb (trim payload) DONE then Break
  else match JSON.parse payload with
       | None => LogError payload
       | Some json =>
           match deltaContent json with
           | None => LogError payload
           | Some None => Skip
           | Some (Some content) =>
               if truthy content then
                 match toString Number_toString content with
                 | Some text => Append text
                 | None => LogError payload
                 end
               else Skip
           end
       end.
Proof. reflexivity. Qed.

Lemma processLine_increment (payload content : str) :
  carriesIncrement payload content ->
  processLine (DATA_MARKER ++ payload) = Append content.
Proof.
  intros [j [Hp [Hd Hc]]]. rewrite processLine_data.
  destruct (str_eqb (trim payload) DONE) eqn:E.
  - apply str_eqb_eq, parse_sentinel in E. congruence.
  - rewrite Hp, Hd. destruct content; [congruence|reflexivity].
Qed.

Lemma processLine_malformed (payload : str) :
  JSON.parse payload = None -> trim payload <> DONE ->
  processLine (DATA_MARKER ++ payload) = LogError payload.
Proof.
  intros Hp Hd. rewrite processLine_data.
  apply str_eqb_neq in Hd. now rewrite Hd, Hp.
Qed.

Lemma effect_not_sentinel (line : str) :
  processLine line <> Break -> isSentinelLine line = false.
Proof.
  intros H. destruct (isSentinelLine line) eqn:E; [|reflexivity].
  apply (processLine_Break Number_toString) in E. contradiction.
Qed.

Lemma isSentinelLine_data (payload : str) :
  isSentinelLine (DATA_MARKER ++ payload) = str_eqb (trim payload) DONE.
Proof. reflexivity. Qed.

(** C5: whatever the reads, when the lines they deliver hold three data
    segments -- one with a payload that is no JSON text (and not the
    sentinel) between two that carry content increments -- and no other
    data line, the loop accumulates both increments, logs the malformed
    payload once, and returns the two increments joined. *)
Theorem malformed_frame_does_not_abort
    (reads : list (list Byte.byte))
    (l0 l1 l2 l3 : list str) (p1 pbad p2 c1 c2 : str) :
  allLines TextDecoder.initial reads =
    l0 ++ (DATA_MARKER ++ p1) :: l1 ++ (DATA_MARKER ++ pbad) :: l2
       ++ (DATA_MARKER ++ p2) :: l3 ->
  Forall (fun l => isDataLine l = false) (l0 ++ l1 ++ l2 ++ l3) ->
  carriesIncrement p1 c1 ->
  JSON.parse pbad = None -> trim pbad <> DONE ->
  carriesIncrement p2 c2 ->
  snd (readLoop TextDecoder.initial (Progress [] []) reads) = Progress (c1 ++ c2) [pbad] /\
  _processStream reads = c1 ++ c2.
Proof.
  intros Hlines Hskip H1 Hbad Hnd H2.
  apply Forall_app in Hskip as [S0 Hskip].
  apply Forall_app in Hskip as [S1 Hskip].
  apply Forall_app in Hskip as [S2 S3].
  pose proof (processLine_increment H1) as E1.
  pose proof (processLine_increment H2) as E2.
  pose proof (processLine_malformed _ Hbad Hnd) as Eb.
  assert (NS : forall l, isDataLine l = false -> isSentinelLine l = false)
    by apply isDataLine_sentinel.
  assert (N1 : isSentinelLine (DATA_MARKER ++ p1) = false)
    by (apply effect_not_sentinel; rewrite E1; discriminate).
  assert (N2 : isSentinelLine (DATA_MARKER ++ p2) = false)
    by (apply effect_not_sentinel; rewrite E2; discriminate).
  assert (Nb : isSentinelLine (DATA_MARKER ++ pbad) = false)
    by (apply effect_not_sentinel; rewrite Eb; discriminate).
  assert (R : snd (readLoop TextDecoder.initial (Progress [] []) reads) =
              Progress (c1 ++ c2) [pbad]).
  { rewrite readLoop_allLines; rewrite Hlines.
    - rewrite forLines_app, (forLines_skip _ _ S0)
        by (eapply Forall_impl; [apply NS|exact S0]).
      cbn [StreamDecoder.forLines]. rewrite E1.
      rewrite forLines_app, (forLines_skip _ _ S1)
        by (eapply Forall_impl; [apply NS|exact S1]).
      cbn [StreamDecoder.forLines]. rewrite Eb.
      rewrite forLines_app, (forLines_skip _ _ S2)
        by (eapply Forall_impl; [apply NS|exact S2]).
      cbn [StreamDecoder.forLines]. rewrite E2.
      rewrite (forLines_skip _ _ S3). simpl. reflexivity.
    - apply Forall_app; split; [eapply Forall_impl; [apply NS|exact S0]|].
      apply Forall_cons; [exact N1|].
      apply Forall_app; split; [eapply Forall_impl; [apply NS|exact S1]|].
      apply Forall_cons; [exact Nb|].
      apply Forall_app; split; [eapply Forall_impl; [apply NS|exact S2]|].
      apply Forall_cons; [exact N2|].
      eapply Forall_impl; [apply NS|exact S3]. }
  split; [exact R|]. unfold StreamDecoder._processStream. now rewrite R.
Qed.

(** C4, amended: when a data segment's payload, trimmed, is the sentinel,
    the [break] leaves the loop over the lines of that chunk: the segments
    that follow it in the same chunk are not processed, whatever they
    hold.  The read loop goes on, and the chunks read afterwards are
    processed from the text accumulated up to the sentinel. *)
Theorem sentinel_ends_its_chunk_only
    (d d' : TextDecoder.decoder) (p : progress)
    (value : list Byte.byte) (more : list (list Byte.byte))
    (chunk : str) (before after : list str) (sentinel : str) :
  TextDecoder.decode d value = (d', chunk) ->
  split EVENT_DELIMITER chunk = before ++ sentinel :: after ->
  Forall (fun l => isSentinelLine l = false) before ->
  isSentinelLine sentinel = true ->
  readLoop d p (value :: more) = readLoop d' (forLines before p) more.
Proof.
  intros Hd Hs Hb Hsent. cbn [StreamDecoder.readLoop]. rewrite Hd.
  unfold processChunk. rewrite Hs, forLines_app by exact Hb.
  now rewrite forLines_sentinel.
Qed.

(** C3, amended: the decoder is stateful, so the texts decoded read after
    read, joined, are the text decoded from all the bytes at once, also
    when a read ends inside a multi-byte character; at completion nothing
    is flushed, the decoder stays as the last read left it and the
    returned text is accumulated from the texts of the reads alone.  Each
    read is split into events on its own: the returned text is the one a
    single read of all the bytes gives when every read but the last
    delivers whole events, none of them the sentinel. *)
Theorem chunking_of_whole_events
    (front : list (list Byte.byte)) (last : list Byte.byte) :
  Forall wholeEvents (snd (chunkTexts TextDecoder.initial front)) ->
  let reads := front ++ [last] in
  TextDecoder.decode TextDecoder.initial (concat reads) =
    (fst (chunkTexts TextDecoder.initial reads),
     concat (snd (chunkTexts TextDecoder.initial reads))) /\
  readLoop TextDecoder.initial (Progress [] []) reads =
    (fst (chunkTexts TextDecoder.initial reads),
     fold_left (fun q chunk => processChunk Number_toString chunk q)
               (snd (chunkTexts TextDecoder.initial reads)) (Progress [] [])) /\
  _processStream reads = _processStream [concat reads].
Proof.
  intros Hw reads. split; [apply chunkTexts_concat|].
  split; [apply readLoop_chunkTexts|].
  unfold StreamDecoder._processStream. subst reads.
  now rewrite readLoop_whole_events.
Qed.

(** C10, amended: a chunk is split into lines on its own, nothing is
    carried over from one read to the next.  So when a data segment that
    carries a content increment is delivered cut in two -- the second
    fragment still holding part of the JSON text and not beginning with
    the data marker -- the increment is dropped: the first fragment is not
    a data line (a cut inside the marker) and is ignored, or its payload
    fails to parse and is logged; the second fragment is ignored.  The
    reads go on as if the event had not been sent. *)
Theorem split_event_is_dropped
    (d d1 d2 : TextDecoder.decoder) (p : progress)
    (value1 value2 : list Byte.byte) (more : list (list Byte.byte))
    (chunk1 chunk2 : str) (before after : list str)
    (fragment1 fragment2 payload content : str) :
  TextDecoder.decode d value1 = (d1, chunk1) ->
  TextDecoder.decode d1 value2 = (d2, chunk2) ->
  split EVENT_DELIMITER chunk1 = before ++ [fragment1] ->
  split EVENT_DELIMITER chunk2 = fragment2 :: after ->
  Forall (fun l => isSentinelLine l = false) before ->
  fragment1 ++ fragment2 = DATA_MARKER ++ payload ->
  carriesIncrement payload content ->
  skipWs fragment2 <> [] ->
  isDataLine fragment2 = false ->
  let reached := forLines before p in
  processLine (fragment1 ++ fragment2) = Append content /\
  (processLine fragment1 = Skip \/
   processLine fragment1 = LogError (substringFrom 6 fragment1)) /\
  processLine fragment2 = Skip /\
  readLoop d p (value1 :: value2 :: more) =
    readLoop d2
      (forLines after
         (Progress (fullResponse reached)
                   (errorLog reached ++
                    if isDataLine fragment1 then [substringFrom 6 fragment1] else [])))
      more.
Proof.
  intros Hd1 Hd2 Hs1 Hs2 Hb Hcut Hinc Hrest Hf2 reached.
  assert (E2 : processLine fragment2 = Skip) by now apply processLine_not_data.
  assert (E1 : if isDataLine fragment1
               then processLine fragment1 = LogError (substringFrom 6 fragment1)
               else processLine fragment1 = Skip).
  { destruct (isDataLine fragment1) eqn:Ed; [|now apply processLine_not_data].
    unfold isDataLine in Ed. apply startsWith_eq in Ed.
    change (length DATA_MARKER) with 6 in Ed.
    fold (substringFrom 6 fragment1) in Ed.
    set (cut := substringFrom 6 fragment1) in *.
    rewrite Ed in Hcut |- *. rewrite <- app_assoc in Hcut.
    apply app_inv_head in Hcut.
    destruct Hinc as [j [Hp [Hdc _]]]. rewrite <- Hcut in Hp.
    pose proof (parse_cut_short cut fragment2 Hp
                  (deltaContent_not_number _ Hdc) Hrest) as Hnone.
    apply processLine_malformed; [exact Hnone|].
    intros Hsent. apply (parse_sentinel_followed cut fragment2) in Hsent.
    congruence. }
  split.
  { rewrite Hcut. now apply processLine_increment. }
  split.
  { destruct (isDataLine fragment1); auto. }
  split; [exact E2|].
  cbn [StreamDecoder.readLoop]. rewrite Hd1, Hd2.
  unfold processChunk. rewrite Hs1, Hs2.
  rewrite forLines_app by exact Hb. fold reached.
  cbn [StreamDecoder.forLines]. rewrite E2.
  destruct (isDataLine fragment1); rewrite E1; [reflexivity|].
  rewrite app_nil_r. now destruct reached.
Qed.

End Statements.

(** C5 at two reads: a valid frame and a malformed one in the first, a
    valid frame in the second. *)
Lemma malformed_frame_does_not_abort_witness :
  let reads := [asciiBytes (event (frame "Hel") ++ event (dq "data: {oops"));
                asciiBytes (event (frame "lo"))] in
  snd (readLoop integerToString TextDecoder.initial (Progress [] []) reads) =
    Progress (lit "Hello") [dq "{oops"] /\
  _processStream integerToString reads = lit "Hello".
Proof.
  intros reads.
  refine (@malformed_frame_does_not_abort integerToString reads
            [] [] [[]] [[]]
            (dq "{'choices':[{'delta':{'content':'Hel'}}]}")
            (dq "{oops")
            (dq "{'choices':[{'delta':{'content':'lo'}}]}")
            (lit "Hel") (lit "lo") _ _ _ _ _ _).
  - vm_compute. reflexivity.
  - repeat constructor.
  - eexists. split; [vm_compute; reflexivity|]. split; [reflexivity|discriminate].
  - vm_compute. reflexivity.
  - discriminate.
  - eexists. split; [vm_compute; reflexivity|]. split; [reflexivity|discriminate].
Defined.

(** C4 as stated fails: a data segment that follows the sentinel in the
    same chunk carries the increment "X", and nothing is accumulated. *)
Lemma segment_after_sentinel_is_skipped :
  isSentinelLine (lit "data: [DONE]") = true /\
  processLine integerToString (frame "X") = Append (lit "X") /\
  _processStream integerToString
    [asciiBytes (event (lit "data: [DONE]") ++ event (frame "X"))] = [].
Proof. repeat split; vm_compute; reflexivity. Qed.

(** C4, amended, at a chunk with the increments "A" and "B" around the
    sentinel, followed by a chunk with the increment "C". *)
Lemma sentinel_ends_its_chunk_only_witness :
  _processStream integerToString
    [asciiBytes (event (frame "A") ++ event (lit "data: [DONE]") ++ event (frame "B"));
     asciiBytes (event (frame "C"))] = lit "AC".
Proof.
  unfold _processStream.
  rewrite (@sentinel_ends_its_chunk_only integerToString
             TextDecoder.initial (TextDecoder.Decoder 0 0 0 128 191 true)
             (Progress [] []) _ _
             (event (frame "A") ++ event (lit "data: [DONE]") ++ event (frame "B"))
             [frame "A"] [frame "B"; []] (lit "data: [DONE]")).
  - vm_compute. reflexivity.
  - vm_compute. reflexivity.
  - vm_compute. reflexivity.
  - apply Forall_cons; [reflexivity|apply Forall_nil].
  - reflexivity.
Defined.

(** The bytes of one event cut inside the two-byte character U+00E9. *)
Definition cutInsideCharacter : list (list Byte.byte) :=
  [asciiBytes (dq "data: {'choices':[{'delta':{'content':'") ++ [Byte.xc3];
   [Byte.xa9] ++ asciiBytes (dq "'}}]}" ++ EVENT_DELIMITER)].

(** C3 as stated fails: read in two chunks that meet inside a character,
    the event yields no text, while the same bytes in one chunk yield the
    character; and a sequence pending when the stream ends is left in the
    decoder, which a flush would have turned into U+FFFD. *)
Lemma chunk_boundary_changes_the_text :
  _processStream integerToString cutInsideCharacter = [] /\
  _processStream integerToString [concat cutInsideCharacter] = [233%N] /\
  TextDecoder.flush
    (fst (readLoop integerToString TextDecoder.initial (Progress [] [])
            [asciiBytes (event (frame "A")) ++ [Byte.xc3]])) = [65533%N].
Proof. repeat split; vm_compute; reflexivity. Qed.

(** C3, amended, at three reads of whole events; the first ends inside the
    three-byte character U+20AC of a line that is no data line. *)
Lemma chunking_of_whole_events_witness :
  let front := [asciiBytes (event (frame "A")) ++ [Byte.xe2];
                [Byte.x82; Byte.xac] ++ asciiBytes EVENT_DELIMITER] in
  let last := asciiBytes (event (frame "B")) in
  Forall wholeEvents (snd (chunkTexts TextDecoder.initial front)) /\
  _processStream integerToString (front ++ [last]) =
    _processStream integerToString [concat (front ++ [last])] /\
  _processStream integerToString (front ++ [last]) = lit "AB".
Proof.
  intros front last.
  assert (W : Forall wholeEvents (snd (chunkTexts TextDecoder.initial front))).
  { assert (E : snd (chunkTexts TextDecoder.initial front) =
                [event (frame "A"); 8364%N :: EVENT_DELIMITER])
      by (vm_compute; reflexivity).
    rewrite E. apply Forall_cons; [|apply Forall_cons; [|apply Forall_nil]].
    - exists [frame "A"]. split; [vm_compute; reflexivity|].
      apply Forall_cons; [reflexivity|apply Forall_nil].
    - exists [[8364%N]]. split; [vm_compute; reflexivity|].
      apply Forall_cons; [reflexivity|apply Forall_nil]. }
  split; [exact W|].
  split; [exact (proj2 (proj2 (chunking_of_whole_events integerToString front last W)))|].
  vm_compute. reflexivity.
Defined.

(** C10 as stated fails: the segment of an event whose payload is followed
    by a space is delivered cut before that space, and its increment "Hi"
    is accumulated. *)
Lemma cut_after_the_payload_is_not_dropped :
  let segment := frame "Hi" ++ lit " " in
  split EVENT_DELIMITER (event segment) = [segment; []] /\
  processLine integerToString segment = Append (lit "Hi") /\
  _processStream integerToString
    [asciiBytes (frame "Hi"); asciiBytes (lit " " ++ EVENT_DELIMITER)] = lit "Hi".
Proof. repeat split; vm_compute; reflexivity. Qed.

(** C10, amended, at an event with the increment "X" cut inside its
    payload, followed by a read with the increment "Y". *)
Lemma split_event_is_dropped_witness :
  _processStream integerToString
    [asciiBytes (dq "data: {'choices':[{'delta':{'con");
     asciiBytes (dq "tent':'X'}}]}" ++ EVENT_DELIMITER);
     asciiBytes (event (frame "Y"))] = lit "Y".
Proof.
  assert (Inc : carriesIncrement (dq "{'choices':[{'delta':{'content':'X'}}]}") (lit "X")).
  { eexists. split; [vm_compute; reflexivity|]. split; [reflexivity|discriminate]. }
  assert (Rest : skipWs (dq "tent':'X'}}]}") <> []) by discriminate.
  pose proof (@split_event_is_dropped integerToString
       TextDecoder.initial (TextDecoder.Decoder 0 0 0 128 191 true)
       (TextDecoder.Decoder 0 0 0 128 191 true) (Progress [] [])
       (asciiBytes (dq "data: {'choices':[{'delta':{'con"))
       (asciiBytes (dq "tent':'X'}}]}" ++ EVENT_DELIMITER))
       [asciiBytes (event (frame "Y"))]
       (dq "data: {'choices':[{'delta':{'con")
       (dq "tent':'X'}}]}" ++ EVENT_DELIMITER)
       [] [[]]
       (dq "data: {'choices':[{'delta':{'con") (dq "tent':'X'}}]}")
       (dq "{'choices':[{'delta':{'content':'X'}}]}") (lit "X")
       eq_refl eq_refl eq_refl eq_refl (Forall_nil _) eq_refl
       Inc Rest eq_refl) as (_ & _ & _ & H).
  unfold _processStream. rewrite H. vm_compute. reflexivity.
Defined.

End StreamDecoderSpec.

(* ================================================================== *)
(** ** The response formatter: proofs *)
(* ================================================================== *)

Module FormatterFacts.
Import JS JSFacts Formatter.

(** *** The matchers return a beginning of the text and what follows it *)

Lemma closeFence_sound (s m r : str) :
  closeFence s = Some (m, r) -> s = m ++ r /\ exists m0, m = m0 ++ fence.
Proof.
  revert m. induction s as [|c s IH]; intros m; [discriminate|].
  cbn [closeFence].
  destruct (startsWith fence (c :: s)) eqn:E.
  - intros H; injection H as <- <-. split.
    + exact (startsWith_eq fence (c :: s) E).
    + now exists [].
  - destruct (closeFence s) as [[m' r']|]; [|discriminate].
    intros H; injection H as <- <-.
    destruct (IH m' eq_refl) as [-> [m0 ->]]. split; [reflexivity|].
    now exists (c :: m0).
Qed.

Lemma matchFence_sound (s m r : str) :
  matchFence s = Some (m, r) ->
  s = m ++ r /\ exists m0, m = fence ++ m0 ++ fence.
Proof.
  unfold matchFence. destruct (startsWith fence s) eqn:E; [|discriminate].
  destruct (closeFence (skipn 3 s)) as [[m' r']|] eqn:Ec; [|discriminate].
  intros H; injection H as <- <-.
  destruct (closeFence_sound _ Ec) as [Es [m0 ->]].
  split; [|now exists m0].
  rewrite (startsWith_eq fence s E) at 1.
  change (length fence) with 3. rewrite Es. simpl. now rewrite <- app_assoc.
Qed.

Lemma restOfLine_sound (s m r : str) :
  restOfLine s = Some (m, r) -> s = m ++ r.
Proof.
  revert m. induction s as [|c s IH]; intros m; [discriminate|].
  cbn [restOfLine].
  destruct (N.eqb c LF); [intros H; injection H as <- <-; reflexivity|].
  destruct (isLineTerminator c); [discriminate|].
  destruct (restOfLine s) as [[m' r']|]; [|discriminate].
  intros H; injection H as <- <-. now rewrite (IH m' eq_refl).
Qed.

Lemma tableLine_sound (s m r : str) :
  tableLine s = Some (m, r) -> s = m ++ r /\ exists m', m = PIPE :: m'.
Proof.
  destruct s as [|c s]; [discriminate|]. cbn [tableLine].
  destruct (N.eqb_spec c PIPE) as [->|]; [|discriminate].
  destruct (restOfLine s) as [[m' r']|] eqn:E; [|discriminate].
  intros H; injection H as <- <-.
  rewrite (restOfLine_sound _ E). split; [reflexivity|now exists m'].
Qed.

Lemma tableLines_sound (fuel : nat) (s : str) (n : nat) (m r : str) :
  tableLines fuel s = (n, m, r) ->
  s = m ++ r /\ (n <> 0 -> exists m', m = PIPE :: m').
Proof.
  revert s n m. induction fuel as [|fuel IH]; intros s n m; cbn [tableLines].
  - intros H; injection H as <- <- <-. split; [reflexivity|congruence].
  - destruct (tableLine s) as [[m1 r1]|] eqn:E.
    + destruct (tableLines fuel r1) as [[n' m'] r'] eqn:E'.
      intros H; injection H as <- <- <-.
      destruct (tableLine_sound _ E) as [-> [m1' ->]].
      destruct (IH _ _ _ E') as [-> _].
      split; [now rewrite <- app_assoc|]. intros _. now exists (m1' ++ m').
    + intros H; injection H as <- <- <-. split; [reflexivity|congruence].
Qed.

Lemma twoOrMoreLines_sound (s m r : str) :
  twoOrMoreLines s = Some (m, r) -> s = m ++ r /\ exists m', m = PIPE :: m'.
Proof.
  unfold twoOrMoreLines.
  destruct (tableLines (length s) s) as [[n m0] r0] eqn:E.
  destruct (Nat.leb_spec 2 n) as [Hn|]; [|discriminate].
  intros H; injection H as <- <-.
  destruct (tableLines_sound _ _ E) as [Es Hm]. split; [exact Es|].
  apply Hm. lia.
Qed.

Lemma matchTable_sound (atStart : bool) (s m r : str) :
  matchTable atStart s = Some (m, r) ->
  s = m ++ r /\ exists c m', m = c :: m' /\ (c = LF \/ c = PIPE).
Proof.
  unfold matchTable.
  assert (T : twoOrMoreLines s = Some (m, r) ->
              s = m ++ r /\ exists c m', m = c :: m' /\ (c = LF \/ c = PIPE)).
  { intros H. destruct (twoOrMoreLines_sound _ H) as [Es [m' ->]].
    split; [exact Es|]. exists PIPE, m'. auto. }
  destruct s as [|c s].
  - destruct atStart; [exact T|discriminate].
  - destruct (N.eqb_spec c LF) as [->|].
    + destruct (twoOrMoreLines s) as [[m1 r1]|] eqn:E.
      * intros H; injection H as <- <-.
        destruct (twoOrMoreLines_sound _ E) as [-> _].
        split; [reflexivity|]. exists LF, m1. auto.
      * destruct atStart; [exact T|discriminate].
    + destruct atStart; [exact T|discriminate].
Qed.

(** A protected block is a fenced block, that starts and ends with a
    fence, or a table block, that starts with a line feed or a pipe. *)
Definition fenced (b : str) : Prop := exists m0, b = fence ++ m0 ++ fence.
Definition tabular (b : str) : Prop :=
  exists c m', b = c :: m' /\ (c = LF \/ c = PIPE).

Lemma matchProtected_sound (atStart : bool) (s m r : str) :
  matchProtected atStart s = Some (m, r) ->
  s = m ++ r /\ (fenced m \/ tabular m).
Proof.
  unfold matchProtected.
  destruct (matchFence s) as [[m1 r1]|] eqn:E.
  - intros H; injection H as <- <-.
    destruct (matchFence_sound _ E) as [Es Hf]. auto.
  - intros H. destruct (matchTable_sound _ _ H) as [Es Ht]. auto.
Qed.

(** *** The split *)

Lemma split_go_concat (fuel : nat) (atStart : bool) (cur s : str) :
  concat (split_go fuel atStart cur s) = rev cur ++ s.
Proof.
  revert atStart cur s. induction fuel as [|fuel IH]; intros atStart cur s.
  - simpl. now rewrite app_nil_r.
  - destruct s as [|c s]; cbn [split_go].
    + simpl. now rewrite !app_nil_r.
    + destruct (matchProtected atStart (c :: s)) as [[m r]|] eqn:E.
      * destruct (matchProtected_sound _ _ E) as [-> _].
        cbn [concat]. rewrite IH. reflexivity.
      * rewrite IH. simpl. now rewrite <- app_assoc.
Qed.

Lemma split_go_blocks (fuel : nat) (atStart : bool) (cur s b : str) :
  In b (oddParts (split_go fuel atStart cur s)) -> fenced b \/ tabular b.
Proof.
  revert atStart cur s. induction fuel as [|fuel IH]; intros atStart cur s.
  - simpl. tauto.
  - destruct s as [|c s]; cbn [split_go]; [simpl; tauto|].
    destruct (matchProtected atStart (c :: s)) as [[m r]|] eqn:E; [|apply IH].
    cbn [oddParts In]. intros [<-|H]; [|eapply IH; eauto].
    now destruct (matchProtected_sound _ _ E).
Qed.

Lemma In_oddParts (parts : list str) (b : str) :
  In b (oddParts parts) -> In b parts.
Proof.
  remember (length parts) as n eqn:Hn. revert parts Hn.
  induction n as [n IH] using lt_wf_ind. intros parts Hn.
  destruct parts as [|a [|x rest]]; simpl; try tauto.
  intros [<-|H]; [auto|]. right; right.
  apply (IH (length rest)); [simpl in Hn; lia|reflexivity|exact H].
Qed.

Lemma In_concat_infix (parts : list str) (b : str) :
  In b parts -> exists pre post, concat parts = pre ++ b ++ post.
Proof.
  induction parts as [|a parts IH]; simpl; [tauto|].
  intros [->|H].
  - now exists [], (concat parts).
  - destruct (IH H) as [pre [post ->]]. exists (a ++ pre), post.
    now rewrite <- app_assoc.
Qed.

(** *** The parts, formatted and joined *)

Lemma formatPart_odd (i : nat) (b : str) :
  Nat.odd i = true -> formatPart i b = b.
Proof. intros H. unfold formatPart. rewrite H. now destruct b. Qed.

Lemma concat_formatted_blocks (parts : list str) (i : nat) (b : str) :
  Nat.even i = true -> In b (oddParts parts) ->
  exists pre post, concat (mapi_from i formatPart parts) = pre ++ b ++ post.
Proof.
  remember (length parts) as n eqn:Hn. revert parts i Hn.
  induction n as [n IH] using lt_wf_ind. intros parts i Hn Hi.
  destruct parts as [|a [|x rest]]; simpl; try tauto.
  assert (Ho : Nat.odd (S i) = true) by now rewrite Nat.odd_succ.
  rewrite (formatPart_odd _ x Ho).
  intros [<-|H].
  - now exists (formatPart i a), (concat (mapi_from (S (S i)) formatPart rest)).
  - destruct (IH (length rest)) with (parts := rest) (i := S (S i))
      as [pre [post E]]; [simpl in Hn; lia|reflexivity| |exact H|].
    { now rewrite Nat.even_succ_succ. }
    rewrite E. exists (formatPart i a ++ x ++ pre), post.
    now rewrite <- !app_assoc.
Qed.

(** *** The line-break replacements *)

(** What the three replacements amount to on a text without [<]: every run
    of line feeds becomes two line feeds.  [inRun] says the units before
    were line feeds. *)
Fixpoint collapse (inRun : bool) (s : str) : str :=
  match s with
  | [] => []
  | c :: s' =>
      if N.eqb c LF then
        if inRun then collapse true s' else LF :: LF :: collapse true s'
      else c :: collapse false s'
  end.

Definition normalizeBreaks (s : str) : str :=
  replaceBR (replaceLineBreaks (replaceBlankLines false s)).

Lemma replaceBR_other (c : N) (t : str) :
  N.eqb c 60 = false -> replaceBR (c :: t) = c :: replaceBR t.
Proof.
  intros H. destruct t as [|c2 [|c3 [|c4 r]]]; cbn [replaceBR]; try reflexivity.
  now rewrite H.
Qed.

Lemma replaceBR_BR (t : str) : replaceBR (BR ++ t) = LF :: LF :: replaceBR t.
Proof. reflexivity. Qed.

Lemma replaceLineBreaks_BR (t : str) :
  replaceLineBreaks (BR ++ t) = BR ++ replaceLineBreaks t.
Proof. reflexivity. Qed.

Lemma collapse_not_LF (b : bool) (s : str) :
  startsWith [LF] s = false -> collapse b s = collapse false s.
Proof.
  destruct s as [|c s]; [reflexivity|]. cbn [startsWith collapse].
  rewrite andb_true_r, N.eqb_sym. now intros ->.
Qed.

Lemma replacements_collapse (s : str) (b : bool) :
  forallb (fun c => negb (N.eqb c 60)) s = true ->
  replaceBR (replaceLineBreaks (replaceBlankLines b s)) = collapse b s.
Proof.
  revert b. induction s as [|c s IH]; intros b H; [reflexivity|].
  cbn [forallb] in H. apply andb_true_iff in H as [Hc H].
  apply negb_true_iff in Hc.
  cbn [replaceBlankLines collapse].
  destruct (N.eqb_spec c LF) as [->|Hn].
  - destruct b; [now apply IH|].
    destruct (startsWith [LF] s) eqn:E.
    + rewrite replaceLineBreaks_BR, replaceBR_BR. now rewrite IH.
    + cbn [replaceLineBreaks]. rewrite N.eqb_refl.
      rewrite replaceBR_BR, IH by exact H.
      now rewrite (collapse_not_LF true s E).
  - cbn [replaceLineBreaks]. apply N.eqb_neq in Hn. rewrite Hn.
    rewrite replaceBR_other by exact Hc. now rewrite IH.
Qed.

Lemma collapse_idem (s : str) (b : bool) :
  collapse b (collapse b s) = collapse b s.
Proof.
  revert b. induction s as [|c s IH]; intros b; [reflexivity|].
  cbn [collapse]. destruct (N.eqb c LF) eqn:E.
  - destruct b; [apply IH|].
    cbn [collapse]. rewrite N.eqb_refl. now rewrite IH.
  - cbn [collapse]. rewrite E. now rewrite IH.
Qed.

Lemma collapse_forallb (P : N -> bool) (s : str) (b : bool) :
  P LF = true -> forallb P s = true -> forallb P (collapse b s) = true.
Proof.
  intros HP. revert b. induction s as [|c s IH]; intros b H; [reflexivity|].
  cbn [forallb] in H. apply andb_true_iff in H as [Hc H].
  cbn [collapse]. destruct (N.eqb c LF).
  - destruct b; [now apply IH|]. cbn [forallb]. now rewrite HP, IH.
  - cbn [forallb]. now rewrite Hc, IH.
Qed.

(** A last unit that is no line feed stays last. *)
Lemma collapse_last (s : str) (c : N) (b : bool) :
  N.eqb c LF = false -> collapse b (s ++ [c]) = collapse b s ++ [c].
Proof.
  intros Hc. revert b. induction s as [|x s IH]; intros b.
  - cbn [app collapse]. now rewrite Hc.
  - cbn [app collapse]. destruct (N.eqb x LF).
    + destruct b; [apply IH|]. now rewrite IH.
    + now rewrite IH.
Qed.

Lemma whiteSpace_LF : isWhiteSpace LF = true.
Proof. reflexivity. Qed.

Lemma not_whiteSpace_not_LF (c : N) : isWhiteSpace c = false -> N.eqb c LF = false.
Proof.
  intros H. destruct (N.eqb_spec c LF) as [->|]; [discriminate H|reflexivity].
Qed.

(** A trimmed text stays trimmed. *)
Lemma collapse_trimmed (s : str) :
  startsNonWs s -> startsNonWs (rev s) ->
  startsNonWs (collapse false s) /\ startsNonWs (rev (collapse false s)).
Proof.
  intros H1 H2. split.
  - destruct s as [|c s]; [destruct H1|]. cbn [collapse].
    now rewrite (not_whiteSpace_not_LF c H1).
  - destruct (rev s) as [|c r] eqn:E; [destruct H2|].
    apply (f_equal (@rev N)) in E. rewrite rev_involutive in E. simpl in E.
    rewrite E, (collapse_last _ c false (not_whiteSpace_not_LF c H2)).
    rewrite rev_app_distr. exact H2.
Qed.

(** *** The list markers *)

(** The marker regex after its leading whitespace: a marker and one unit
    of whitespace. *)
Definition markerMatch (t : str) : bool :=
  match marker t with
  | Some (d :: _) => isWhiteSpace d
  | _ => false
  end.

(** Whether the regex matches at the head of [s]. *)
Definition isMatch (s : str) : bool := markerMatch (trimStart s).

(** Whether the regex matches somewhere in [s], at a line start. *)
Fixpoint hasBullet (lineStart : bool) (s : str) : bool :=
  match s with
  | [] => false
  | c :: s' => (lineStart && isMatch s) || hasBullet (isLineTerminator c) s'
  end.

Lemma matchBullet_isMatch (s : str) :
  isMatch s = match matchBullet s with Some _ => true | None => false end.
Proof.
  unfold isMatch, markerMatch, matchBullet.
  destruct (marker (trimStart s)) as [[|d r]|]; try reflexivity.
  destruct (isWhiteSpace d); [|reflexivity]. now destruct (whiteSpaceRun d r).
Qed.

Lemma lineTerminator_whiteSpace (c : N) :
  isLineTerminator c = true -> isWhiteSpace c = true.
Proof.
  unfold isLineTerminator. rewrite !orb_true_iff, !N.eqb_eq.
  intros [[[->| ->]| ->]| ->]; reflexivity.
Qed.

Lemma not_whiteSpace_not_lineTerminator (c : N) :
  isWhiteSpace c = false -> isLineTerminator c = false.
Proof.
  intros H. destruct (isLineTerminator c) eqn:E; [|reflexivity].
  apply lineTerminator_whiteSpace in E. congruence.
Qed.

Lemma isDigit_not_whiteSpace (c : N) : isDigit c = true -> isWhiteSpace c = false.
Proof.
  unfold isDigit, isWhiteSpace. rewrite andb_true_iff, !N.leb_le. intros H.
  repeat (apply orb_false_iff; split);
    try (apply N.eqb_neq; lia); apply andb_false_iff; rewrite !N.leb_gt; lia.
Qed.

Lemma isMatch_whiteSpace (c : N) (s : str) :
  isWhiteSpace c = true -> isMatch (c :: s) = isMatch s.
Proof. unfold isMatch. simpl. now intros ->. Qed.

Lemma isMatch_not_whiteSpace (c : N) (s : str) :
  isWhiteSpace c = false -> isMatch (c :: s) = markerMatch (c :: s).
Proof. unfold isMatch. simpl. now intros ->. Qed.

Lemma hasBullet_true (s : str) :
  hasBullet true s = isMatch s || hasBullet false s.
Proof. destruct s; reflexivity. Qed.

Lemma hasBullet_mono (b : bool) (s : str) :
  hasBullet true s = false -> hasBullet b s = false.
Proof.
  destruct b; [auto|]. rewrite hasBullet_true. intros H.
  now apply orb_false_iff in H.
Qed.

(** **** What a match consumes *)

Lemma skipDigits_suffix (s : str) : exists m, s = m ++ skipDigits s.
Proof.
  induction s as [|c s [m E]]; [now exists []|]. simpl.
  destruct (isDigit c); [|now exists []].
  exists (c :: m). simpl. congruence.
Qed.

Lemma marker_suffix (t r : str) :
  marker t = Some r -> exists m, t = m ++ r /\ m <> [].
Proof.
  destruct t as [|c t]; [discriminate|]. cbn [marker].
  destruct (N.eqb c 42 || N.eqb c 45).
  - intros H; injection H as <-. exists [c]. split; [reflexivity|discriminate].
  - destruct (isDigit c); [|discriminate].
    destruct (skipDigits_suffix t) as [m E].
    destruct (skipDigits t) as [|d r']; [discriminate|].
    destruct (N.eqb d 46); [|discriminate].
    intros H; injection H as <-.
    exists (c :: m ++ [d]). split; [|discriminate].
    simpl. rewrite <- app_assoc. simpl. congruence.
Qed.

Lemma whiteSpaceRun_suffix (last : N) (s : str) :
  exists m, s = m ++ snd (whiteSpaceRun last s).
Proof.
  revert last. induction s as [|c s IH]; intros last; [now exists []|].
  cbn [whiteSpaceRun]. destruct (isWhiteSpace c); [|now exists []].
  destruct (IH c) as [m E]. exists (c :: m). simpl. congruence.
Qed.

Lemma matchBullet_suffix (s : str) (e : bool) (rest : str) :
  matchBullet s = Some (e, rest) -> exists m, s = m ++ rest /\ m <> [].
Proof.
  unfold matchBullet.
  destruct (trimStart_split s) as [w [Ew _]].
  destruct (marker (trimStart s)) as [[|d r]|] eqn:Em; try discriminate.
  destruct (isWhiteSpace d); [|discriminate].
  destruct (whiteSpaceRun_suffix d r) as [m2 E2].
  destruct (whiteSpaceRun d r) as [last rest'].
  intros H; injection H as _ <-. simpl in E2.
  destruct (marker_suffix _ Em) as [m1 [E1 _]].
  exists (w ++ m1 ++ d :: m2). split.
  - rewrite Ew at 1. rewrite E1, E2. rewrite <- !app_assoc. reflexivity.
  - destruct w; [destruct m1|]; discriminate.
Qed.

Lemma matchBullet_shorter (s : str) (e : bool) (rest : str) :
  matchBullet s = Some (e, rest) -> length rest < length s.
Proof.
  intros H. destruct (matchBullet_suffix _ H) as [m [-> Hm]].
  rewrite length_app. destruct m; [congruence|simpl; lia].
Qed.

(** **** The match decided by the first units *)

Definition headWs (t : str) : bool :=
  match t with
  | d :: _ => isWhiteSpace d
  | [] => false
  end.

Definition afterDigits (t : str) : bool :=
  match skipDigits t with
  | d :: r => N.eqb d 46 && headWs r
  | [] => false
  end.

Lemma markerMatch_cons (c : N) (t : str) :
  markerMatch (c :: t) =
  if N.eqb c 42 || N.eqb c 45 then headWs t
  else if isDigit c then afterDigits t else false.
Proof.
  unfold markerMatch, afterDigits. cbn [marker].
  destruct (N.eqb c 42 || N.eqb c 45); [now destruct t|].
  destruct (isDigit c); [|reflexivity].
  destruct (skipDigits t) as [|d r]; [reflexivity|].
  destruct (N.eqb d 46); [now destruct r|reflexivity].
Qed.

(** [front t t']: the two texts agree up to and including their first
    unit of whitespace. *)
Inductive front : str -> str -> Prop :=
| front_nil : front [] []
| front_ws (c : N) (t t' : str) :
    isWhiteSpace c = true -> front (c :: t) (c :: t')
| front_keep (c : N) (t t' : str) :
    isWhiteSpace c = false -> front t t' -> front (c :: t) (c :: t').

Lemma front_refl (t : str) : front t t.
Proof.
  induction t as [|c t IH]; [constructor|].
  destruct (isWhiteSpace c) eqn:E; [now apply front_ws|now apply front_keep].
Qed.

Lemma front_headWs (t t' : str) : front t t' -> headWs t = headWs t'.
Proof. now destruct 1. Qed.

Lemma front_afterDigits (t t' : str) : front t t' -> afterDigits t = afterDigits t'.
Proof.
  unfold afterDigits. induction 1 as [|c t t' Hc|c t t' Hc Hf IH]; [reflexivity| |].
  - cbn [skipDigits]. destruct (isDigit c) eqn:Ed.
    + apply isDigit_not_whiteSpace in Ed. congruence.
    + destruct (N.eqb_spec c 46) as [->|]; [discriminate Hc|reflexivity].
  - cbn [skipDigits]. destruct (isDigit c); [exact IH|].
    now rewrite (front_headWs Hf).
Qed.

Lemma front_markerMatch (t t' : str) : front t t' -> markerMatch t = markerMatch t'.
Proof.
  destruct 1 as [|c t t' Hc|c t t' Hc Hf]; [reflexivity| |].
  - rewrite !markerMatch_cons.
    assert (E1 : N.eqb c 42 || N.eqb c 45 = false).
    { apply orb_false_iff.
      split; [destruct (N.eqb_spec c 42) as [->|]|destruct (N.eqb_spec c 45) as [->|]];
        try reflexivity; discriminate Hc. }
    rewrite E1. destruct (isDigit c) eqn:Ed; [|reflexivity].
    apply isDigit_not_whiteSpace in Ed. congruence.
  - rewrite !markerMatch_cons.
    now rewrite (front_headWs Hf), (front_afterDigits Hf).
Qed.

(** **** The replacement leaves no match *)

Lemma replaceBullets_go_front (fuel : nat) (s : str) :
  front s (replaceBullets_go fuel false s).
Proof.
  revert s. induction fuel as [|fuel IH]; intros s; [apply front_refl|].
  destruct s as [|c s]; [constructor|]. cbn [replaceBullets_go].
  destruct (isWhiteSpace c) eqn:E; [now apply front_ws|].
  apply front_keep; [exact E|].
  rewrite (not_whiteSpace_not_lineTerminator c E). apply IH.
Qed.

Lemma replaceBullets_go_isMatch (fuel : nat) (lineStart : bool) (s : str) :
  isMatch s = false -> isMatch (replaceBullets_go fuel lineStart s) = false.
Proof.
  revert lineStart s. induction fuel as [|fuel IH]; intros ls s H; [exact H|].
  destruct s as [|c s]; [reflexivity|]. cbn [replaceBullets_go].
  assert (Hm : (if ls then matchBullet (c :: s) else None) = None).
  { destruct ls; [|reflexivity]. rewrite matchBullet_isMatch in H.
    now destruct (matchBullet (c :: s)). }
  rewrite Hm. destruct (isWhiteSpace c) eqn:E.
  - rewrite isMatch_whiteSpace in * by exact E. now apply IH.
  - rewrite isMatch_not_whiteSpace in * by exact E.
    rewrite (not_whiteSpace_not_lineTerminator c E).
    erewrite <- front_markerMatch; [exact H|].
    apply front_keep; [exact E|]. apply replaceBullets_go_front.
Qed.

Lemma replaceBullets_go_clean (fuel : nat) (lineStart : bool) (s : str) :
  length s <= fuel ->
  hasBullet lineStart (replaceBullets_go fuel lineStart s) = false.
Proof.
  revert lineStart s. induction fuel as [|fuel IH]; intros ls s Hf.
  - destruct s; [reflexivity|simpl in Hf; lia].
  - destruct s as [|c s]; [reflexivity|]. cbn [replaceBullets_go].
    destruct (if ls then matchBullet (c :: s) else None) as [[e rest]|] eqn:Em.
    + assert (Hr : length rest <= fuel).
      { destruct ls; [|discriminate]. apply matchBullet_shorter in Em.
        simpl in *. lia. }
      change (BULLET :: 32%N :: replaceBullets_go fuel e rest)
        with ([BULLET; 32%N] ++ replaceBullets_go fuel e rest).
      specialize (IH e rest Hr).
      assert (Hfalse : hasBullet false (replaceBullets_go fuel e rest) = false).
      { destruct e; [|exact IH]. now apply hasBullet_mono. }
      cbn [app hasBullet].
      change (isLineTerminator BULLET) with false.
      change (isLineTerminator 32) with false.
      rewrite Hfalse.
      assert (Hb : forall o, isMatch (BULLET :: 32%N :: o) = false) by reflexivity.
      rewrite Hb. now destruct ls.
    + cbn [hasBullet]. rewrite IH by (simpl in Hf; lia).
      rewrite orb_false_r. destruct ls; [|reflexivity]. cbn [andb].
      assert (H : isMatch (c :: s) = false).
      { rewrite matchBullet_isMatch. now rewrite Em. }
      destruct (isWhiteSpace c) eqn:E.
      * rewrite isMatch_whiteSpace in * by exact E.
        now apply replaceBullets_go_isMatch.
      * rewrite isMatch_not_whiteSpace in * by exact E.
        rewrite (not_whiteSpace_not_lineTerminator c E).
        erewrite <- front_markerMatch; [exact H|].
        apply front_keep; [exact E|]. apply replaceBullets_go_front.
Qed.

(** A text without a match is left as it is. *)
Lemma replaceBullets_go_fixed (fuel : nat) (lineStart : bool) (s : str) :
  hasBullet lineStart s = false -> replaceBullets_go fuel lineStart s = s.
Proof.
  revert lineStart s. induction fuel as [|fuel IH]; intros ls s H; [reflexivity|].
  destruct s as [|c s]; [reflexivity|]. cbn [replaceBullets_go].
  cbn [hasBullet] in H. apply orb_false_iff in H as [H1 H2].
  assert (Hm : (if ls then matchBullet (c :: s) else None) = None).
  { destruct ls; [|reflexivity]. cbn [andb] in H1.
    rewrite matchBullet_isMatch in H1. now destruct (matchBullet (c :: s)). }
  rewrite Hm. now rewrite IH.
Qed.

(** **** Matches under [trim] *)

Lemma skipDigits_app (t w : str) :
  skipDigits t <> [] -> skipDigits (t ++ w) = skipDigits t ++ w.
Proof.
  induction t as [|c t IH]; [simpl; congruence|]. cbn [app skipDigits].
  destruct (isDigit c); [exact IH|reflexivity].
Qed.

Lemma headWs_app (t w : str) : headWs t = true -> headWs (t ++ w) = true.
Proof. destruct t; [discriminate|auto]. Qed.

Lemma afterDigits_app (t w : str) :
  afterDigits t = true -> afterDigits (t ++ w) = true.
Proof.
  unfold afterDigits. intros H.
  destruct (skipDigits t) as [|d r] eqn:E; [discriminate|].
  rewrite skipDigits_app, E by (rewrite E; discriminate).
  cbn [app]. apply andb_true_iff in H as [-> H]. now rewrite headWs_app.
Qed.

Lemma markerMatch_app (t w : str) :
  markerMatch t = true -> markerMatch (t ++ w) = true.
Proof.
  destruct t as [|c t]; [discriminate|]. cbn [app].
  rewrite !markerMatch_cons.
  destruct (N.eqb c 42 || N.eqb c 45); [apply headWs_app|].
  destruct (isDigit c); [apply afterDigits_app|discriminate].
Qed.

Lemma trimStart_app (t w : str) :
  trimStart t <> [] -> trimStart (t ++ w) = trimStart t ++ w.
Proof.
  induction t as [|c t IH]; [simpl; congruence|]. cbn [app trimStart].
  destruct (isWhiteSpace c); [exact IH|reflexivity].
Qed.

Lemma isMatch_app (a w : str) : isMatch a = true -> isMatch (a ++ w) = true.
Proof.
  unfold isMatch. intros H.
  rewrite trimStart_app; [now apply markerMatch_app|].
  intros E. rewrite E in H. discriminate.
Qed.

Lemma hasBullet_prefix (a w : str) (lineStart : bool) :
  hasBullet lineStart (a ++ w) = false -> hasBullet lineStart a = false.
Proof.
  revert lineStart. induction a as [|c a IH]; intros ls; [reflexivity|].
  cbn [app hasBullet]. intros H. apply orb_false_iff in H as [H1 H2].
  rewrite (IH _ H2), orb_false_r.
  destruct ls; [|reflexivity]. cbn [andb] in *.
  destruct (isMatch (c :: a)) eqn:E; [|reflexivity].
  apply (isMatch_app _ w) in E. cbn [app] in E. congruence.
Qed.

Lemma hasBullet_trimStart (s : str) :
  hasBullet true s = false -> hasBullet true (trimStart s) = false.
Proof.
  induction s as [|c s IH]; [reflexivity|]. intros H. cbn [trimStart].
  destruct (isWhiteSpace c) eqn:E; [|exact H].
  apply IH. cbn [hasBullet andb] in H. apply orb_false_iff in H as [H1 H2].
  rewrite hasBullet_true. rewrite isMatch_whiteSpace in H1 by exact E.
  rewrite H1. destruct (isLineTerminator c); [|exact H2].
  now apply hasBullet_mono.
Qed.

Lemma hasBullet_trim (s : str) :
  hasBullet true s = false -> hasBullet true (trim s) = false.
Proof.
  intros H. apply hasBullet_trimStart in H.
  destruct (trimEnd_split (trimStart s)) as [w [E _]].
  fold (trim s) in E. rewrite E in H. now apply hasBullet_prefix in H.
Qed.

(** **** Matches under the line-break replacements *)

Lemma collapse_front (t : str) : front t (collapse false t).
Proof.
  induction t as [|c t IH]; [constructor|]. cbn [collapse].
  destruct (N.eqb_spec c LF) as [->|Hn].
  - now apply front_ws.
  - destruct (isWhiteSpace c) eqn:E; [now apply front_ws|now apply front_keep].
Qed.

Lemma trimStart_collapse (s : str) (b : bool) :
  trimStart (collapse b s) = collapse false (trimStart s).
Proof.
  revert b. induction s as [|c s IH]; intros b; [reflexivity|].
  cbn [collapse trimStart].
  destruct (N.eqb_spec c LF) as [->|Hn].
  - rewrite whiteSpace_LF. destruct b; [apply IH|].
    cbn [trimStart]. rewrite whiteSpace_LF. apply IH.
  - cbn [trimStart]. destruct (isWhiteSpace c); [apply IH|].
    cbn [collapse]. apply N.eqb_neq in Hn. now rewrite Hn.
Qed.

Lemma isMatch_collapse (s : str) (b : bool) : isMatch (collapse b s) = isMatch s.
Proof.
  unfold isMatch. rewrite trimStart_collapse.
  symmetry. apply front_markerMatch, collapse_front.
Qed.

Lemma hasBullet_collapse (s : str) (lineStart b : bool) :
  hasBullet lineStart s = false -> hasBullet lineStart (collapse b s) = false.
Proof.
  revert lineStart b. induction s as [|c s IH]; intros ls b H; [reflexivity|].
  pose proof (isMatch_collapse (c :: s) b) as Hm.
  cbn [hasBullet] in H. apply orb_false_iff in H as [H1 H2].
  cbn [collapse] in *.
  destruct (N.eqb_spec c LF) as [->|Hn].
  - change (isLineTerminator LF) with true in H2.
    pose proof (IH true true H2) as Ht.
    assert (Hs : isMatch (collapse true s) = false).
    { rewrite isMatch_collapse. rewrite hasBullet_true in H2.
      now apply orb_false_iff in H2. }
    destruct b; [now apply hasBullet_mono|].
    cbn [hasBullet]. change (isLineTerminator LF) with true.
    rewrite Ht, orb_false_r. cbn [andb].
    rewrite !isMatch_whiteSpace by apply whiteSpace_LF.
    rewrite Hs. now destruct ls.
  - cbn [hasBullet]. rewrite (IH _ false H2), orb_false_r.
    rewrite Hm. exact H1.
Qed.

(** **** The units of the results *)

Lemma replaceBullets_go_forallb (P : N -> bool) (fuel : nat) (lineStart : bool) (s : str) :
  P BULLET = true -> P 32%N = true -> forallb P s = true ->
  forallb P (replaceBullets_go fuel lineStart s) = true.
Proof.
  intros Hb Hs. revert lineStart s.
  induction fuel as [|fuel IH]; intros ls s H; [exact H|].
  destruct s as [|c s]; [reflexivity|]. cbn [replaceBullets_go].
  destruct (if ls then matchBullet (c :: s) else None) as [[e rest]|] eqn:Em.
  - destruct ls; [|discriminate].
    destruct (matchBullet_suffix _ Em) as [m [E _]].
    rewrite E, forallb_app in H. apply andb_true_iff in H as [_ H].
    cbn [forallb]. now rewrite Hb, Hs, IH.
  - cbn [forallb] in *. apply andb_true_iff in H as [Hc H].
    now rewrite Hc, IH.
Qed.

Lemma trim_forallb (P : N -> bool) (s : str) :
  forallb P s = true -> forallb P (trim s) = true.
Proof.
  destruct (trim_shape s) as [[w1 [w2 E]] _]. intros H.
  rewrite E, !forallb_app in H.
  apply andb_true_iff in H as [_ H]. now apply andb_true_iff in H as [H _].
Qed.

(** **** A text with no backtick, no pipe and no [<] *)

Definition plain (c : N) : bool :=
  negb (N.eqb c BACKTICK) && negb (N.eqb c PIPE) && negb (N.eqb c 60).

Lemma plain_cases (c : N) :
  plain c = true ->
  N.eqb c BACKTICK = false /\ N.eqb c PIPE = false /\ N.eqb c 60 = false.
Proof.
  unfold plain. rewrite !andb_true_iff, !negb_true_iff. tauto.
Qed.

Lemma twoOrMoreLines_no_pipe (s : str) :
  match s with c :: _ => N.eqb c PIPE = false | [] => True end ->
  twoOrMoreLines s = None.
Proof.
  unfold twoOrMoreLines. destruct s as [|c s]; [reflexivity|].
  intros H. cbn [length tableLines tableLine]. now rewrite H.
Qed.

Lemma matchProtected_plain (atStart : bool) (s : str) :
  forallb plain s = true -> matchProtected atStart s = None.
Proof.
  destruct s as [|c s]; intros H.
  - unfold matchProtected, matchFence, matchTable. simpl. now destruct atStart.
  - cbn [forallb] in H. apply andb_true_iff in H as [Hc H].
    destruct (plain_cases c Hc) as (Hb & Hp & _).
    unfold matchProtected, matchFence. cbn [startsWith fence].
    rewrite (N.eqb_sym BACKTICK c), Hb. cbn [andb].
    unfold matchTable.
    rewrite (twoOrMoreLines_no_pipe (c :: s) Hp).
    assert (T : twoOrMoreLines s = None).
    { apply twoOrMoreLines_no_pipe. destruct s as [|d s]; [exact I|].
      cbn [forallb] in H. apply andb_true_iff in H as [Hd _].
      now destruct (plain_cases d Hd) as (_ & ? & _). }
    rewrite T. destruct (N.eqb c LF); now destruct atStart.
Qed.

Lemma split_go_plain (fuel : nat) (atStart : bool) (cur s : str) :
  forallb plain s = true -> split_go fuel atStart cur s = [rev cur ++ s].
Proof.
  revert atStart cur s. induction fuel as [|fuel IH]; intros atStart cur s H.
  - reflexivity.
  - destruct s as [|c s]; cbn [split_go]; [now rewrite app_nil_r|].
    rewrite (matchProtected_plain atStart (c :: s) H).
    cbn [forallb] in H. apply andb_true_iff in H as [_ H].
    rewrite IH by exact H. simpl. now rewrite <- app_assoc.
Qed.

End FormatterFacts.

(* ================================================================== *)
(** ** The response formatter: the specification's statements *)
(* ================================================================== *)

Module FormatterSpec.
Import JS JSFacts Formatter FormatterFacts.

(** *** White space at the ends of a joined text *)

(** White space only. *)
Definition blank (s : str) : bool := forallb isWhiteSpace s.

Lemma blank_rev (s : str) : blank (rev s) = blank s.
Proof.
  unfold blank. induction s as [|c s IH]; [reflexivity|].
  simpl. rewrite forallb_app, IH. simpl. rewrite andb_true_r. apply andb_comm.
Qed.

Lemma trimStart_blank_app (x y : str) :
  blank x = true -> trimStart (x ++ y) = trimStart y.
Proof.
  induction x as [|c x IH]; [reflexivity|]. simpl.
  intros H. apply andb_true_iff in H as [-> H]. now apply IH.
Qed.

Lemma trimStart_nonblank_app (x y : str) :
  blank x = false -> trimStart (x ++ y) = trimStart x ++ y.
Proof.
  induction x as [|c x IH]; [discriminate|]. simpl.
  destruct (isWhiteSpace c); simpl; [exact IH|reflexivity].
Qed.

Lemma trimEnd_blank_app (x y : str) :
  blank y = true -> trimEnd (x ++ y) = trimEnd x.
Proof.
  intros H. unfold trimEnd. rewrite rev_app_distr.
  rewrite trimStart_blank_app by now rewrite blank_rev. reflexivity.
Qed.

Lemma trimEnd_nonblank_app (x y : str) :
  blank y = false -> trimEnd (x ++ y) = x ++ trimEnd y.
Proof.
  intros H. unfold trimEnd. rewrite rev_app_distr.
  rewrite trimStart_nonblank_app by now rewrite blank_rev.
  now rewrite rev_app_distr, rev_involutive.
Qed.

Lemma blank_trimStart (x : str) : blank (trimStart x) = blank x.
Proof.
  induction x as [|c x IH]; [reflexivity|]. simpl.
  destruct (isWhiteSpace c) eqn:E; [exact IH|]. simpl. now rewrite E.
Qed.

(** What [trim] leaves of a text [before ++ b ++ after] whose part [b]
    holds a unit that is no white space: [b] whole when such a unit
    stands before it and after it, and otherwise without the white space
    at its start, at its end, or both. *)
Definition trimmedAround (before b after : str) : str :=
  (if blank before then [] else trimStart before) ++
  (match blank before, blank after with
   | false, false => b
   | true, false => trimStart b
   | false, true => trimEnd b
   | true, true => trim b
   end) ++
  (if blank after then [] else trimEnd after).

Lemma trim_around (before b after : str) :
  blank b = false -> trim (before ++ b ++ after) = trimmedAround before b after.
Proof.
  intros Hb. unfold trim, trimmedAround.
  destruct (blank before) eqn:Ea.
  - rewrite (trimStart_blank_app _ _ Ea), (trimStart_nonblank_app _ _ Hb).
    destruct (blank after) eqn:Ez.
    + rewrite (trimEnd_blank_app _ _ Ez). now rewrite app_nil_r.
    + now rewrite (trimEnd_nonblank_app _ _ Ez).
  - rewrite (trimStart_nonblank_app _ _ Ea).
    destruct (blank after) eqn:Ez.
    + rewrite app_assoc, (trimEnd_blank_app _ _ Ez).
      rewrite (trimEnd_nonblank_app _ _ Hb). now rewrite app_nil_r.
    + rewrite app_assoc, (trimEnd_nonblank_app _ _ Ez).
      now rewrite <- app_assoc.
Qed.

(** *** The protected blocks among the parts *)

(** A protected block holds a unit that is no white space: a backtick or
    a pipe. *)
Lemma matchProtected_nonblank (atStart : bool) (s m r : str) :
  matchProtected atStart s = Some (m, r) -> blank m = false.
Proof.
  unfold matchProtected.
  destruct (matchFence s) as [[m1 r1]|] eqn:E.
  - intros H; injection H as <- <-.
    destruct (matchFence_sound _ E) as [_ [m0 ->]]. reflexivity.
  - unfold matchTable.
    assert (T : twoOrMoreLines s = Some (m, r) -> blank m = false).
    { intros H. destruct (twoOrMoreLines_sound _ H) as [_ [m' ->]]. reflexivity. }
    destruct s as [|c s].
    + destruct atStart; [exact T|discriminate].
    + destruct (N.eqb_spec c LF) as [->|].
      * destruct (twoOrMoreLines s) as [[m1 r1]|] eqn:E1.
        -- intros H; injection H as <- <-.
           destruct (twoOrMoreLines_sound _ E1) as [_ [m' ->]]. reflexivity.
        -- destruct atStart; [exact T|discriminate].
      * destruct atStart; [exact T|discriminate].
Qed.

Lemma split_go_nonblank (fuel : nat) (atStart : bool) (cur s b : str) :
  In b (oddParts (split_go fuel atStart cur s)) -> blank b = false.
Proof.
  revert atStart cur s. induction fuel as [|fuel IH]; intros atStart cur s.
  - simpl. tauto.
  - destruct s as [|c s]; cbn [split_go]; [simpl; tauto|].
    destruct (matchProtected atStart (c :: s)) as [[m r]|] eqn:E; [|apply IH].
    cbn [oddParts In]. intros [<-|H]; [|eapply IH; eauto].
    eapply matchProtected_nonblank; eauto.
Qed.

(** A protected block is a part with an odd number of parts before it. *)
Lemma oddParts_position (parts : list str) (b : str) :
  In b (oddParts parts) ->
  exists front back, parts = front ++ b :: back /\ Nat.odd (length front) = true.
Proof.
  remember (length parts) as n eqn:Hn. revert parts Hn.
  induction n as [n IH] using lt_wf_ind. intros parts Hn.
  destruct parts as [|a [|x rest]]; simpl; try tauto.
  intros [<-|H].
  - now exists [a], rest.
  - destruct (IH (length rest)) with (parts := rest) as (front & back & -> & Ho);
      [simpl in Hn; lia|reflexivity|exact H|].
    exists (a :: x :: front), back. split; [reflexivity|].
    simpl length. now rewrite Nat.odd_succ_succ.
Qed.

(** The parts from index [i] on, formatted and joined. *)
Definition joined (i : nat) (parts : list str) : str :=
  concat (mapi_from i formatPart parts).

Lemma joined_app (i : nat) (front back : list str) :
  joined i (front ++ back) = joined i front ++ joined (i + length front) back.
Proof.
  unfold joined. revert i. induction front as [|a front IH]; intros i; simpl.
  - now rewrite Nat.add_0_r.
  - rewrite IH, <- app_assoc.
    now replace (S i + length front) with (i + S (length front)) by lia.
Qed.

Lemma fenced_trim (b : str) : fenced b -> trim b = b.
Proof.
  intros [m0 ->]. apply trim_id.
  - reflexivity.
  - rewrite !rev_app_distr. reflexivity.
Qed.

Lemma fenced_trimStart (b : str) : fenced b -> trimStart b = b.
Proof. intros [m0 ->]. reflexivity. Qed.

Lemma fenced_trimEnd (b : str) : fenced b -> trimEnd b = b.
Proof.
  intros [m0 ->]. unfold trimEnd. rewrite !rev_app_distr. simpl.
  rewrite <- !app_assoc. simpl.
  rewrite !rev_app_distr. simpl. rewrite rev_involutive. reflexivity.
Qed.


(** A text with a table block between two words. *)
Definition tableInside : str :=
  lit "x" ++ [LF] ++ lit "|a" ++ [LF] ++ lit "|b" ++ [LF] ++ lit "y".

Definition tableInsideBlock : str := [LF] ++ lit "|a" ++ [LF] ++ lit "|b" ++ [LF].


(** A table block whose last line is a pipe and a space. *)
Definition tableEndingInSpace : str := lit "|a" ++ [LF] ++ lit "| " ++ [LF].

(** The formatter on a text with no backtick, no pipe and no [<]: the one
    part is formatted and the result trimmed. *)
Lemma format_plain (text : str) :
  forallb plain text = true ->
  _formatAssistantContent text =
  match text with
  | [] => []
  | _ =>
      let formattedText := trim (replaceBullets text) in
      trim (if Nat.ltb 0 (length formattedText)
            then collapse false formattedText else formattedText)
  end.
Proof.
  intros H. destruct text as [|c text]; [reflexivity|].
  unfold _formatAssistantContent, splitProtected.
  rewrite (split_go_plain _ true [] _ H).
  cbn [rev app mapi_from concat]. rewrite app_nil_r.
  unfold formatPart. cbn [Nat.odd Nat.even negb].
  cbv zeta. destruct (Nat.ltb 0 _); [|reflexivity].
  rewrite replacements_collapse; [reflexivity|].
  assert (P : forallb plain (trim (replaceBullets (c :: text))) = true).
  { apply trim_forallb. now apply replaceBullets_go_forallb. }
  rewrite forallb_forall in *. intros x Hx. specialize (P x Hx).
  now destruct (plain_cases x P) as (_ & _ & ->).
Qed.

(** What the formatter returns for such a text is a fixed point of each of
    its steps. *)
Lemma format_plain_result (text : str) :
  forallb plain text = true ->
  let y := _formatAssistantContent text in
  forallb plain y = true /\
  (y = [] \/
   (replaceBullets y = y /\ trim y = y /\ collapse false y = y)).
Proof.
  intros H y. subst y. rewrite (format_plain text H).
  destruct text as [|c text]; [split; [reflexivity|now left]|].
  cbv zeta.
  set (ft := trim (replaceBullets (c :: text))).
  assert (Pft : forallb plain ft = true).
  { apply trim_forallb. now apply replaceBullets_go_forallb. }
  assert (Bft : hasBullet true ft = false).
  { apply hasBullet_trim. apply replaceBullets_go_clean. lia. }
  destruct (trim_shape (replaceBullets (c :: text))) as [_ [E|[Hs He]]];
    fold ft in E || fold ft in Hs, He.
  - rewrite E. split; [reflexivity|now left].
  - assert (L : Nat.ltb 0 (length ft) = true).
    { destruct ft; [destruct Hs|reflexivity]. }
    rewrite L.
    destruct (collapse_trimmed ft Hs He) as [Cs Ce].
    rewrite (trim_id _ Cs Ce).
    split; [apply collapse_forallb; [reflexivity|exact Pft]|right].
    split; [|split].
    + apply replaceBullets_go_fixed. apply hasBullet_collapse. exact Bft.
    + apply trim_id; assumption.
    + apply collapse_idem.
Qed.

(** C1, amended: on every text that holds no backtick, no pipe and no [<]
    -- so no fenced block, no table block and no [<br>] -- the formatter
    is idempotent. *)
Theorem format_idempotent_on_plain_text (text : str) :
  forallb plain text = true ->
  _formatAssistantContent (_formatAssistantContent text) =
  _formatAssistantContent text.
Proof.
  intros H.
  destruct (format_plain_result text H) as [Py [Ey|(Eb & Et & Ec)]].
  - rewrite Ey. reflexivity.
  - set (y := _formatAssistantContent text) in *.
    rewrite (format_plain y Py).
    destruct y as [|c y'] eqn:Ey; [reflexivity|].
    cbv zeta. rewrite Eb, Et. cbn [length Nat.ltb Nat.leb].
    now rewrite Ec, Et.
Qed.

(** A list with markers, blank lines and spaces to trim. *)
Definition plainSample : str :=
  lit "- uno" ++ [LF; LF; LF] ++ lit "* dos" ++ [LF] ++ lit "12. tres" ++ [LF]
  ++ lit "fin  " ++ [LF].

(** C1, amended, at the sample list. *)
Lemma format_idempotent_on_plain_text_witness :
  _formatAssistantContent (_formatAssistantContent plainSample) =
    _formatAssistantContent plainSample /\
  _formatAssistantContent plainSample =
    [BULLET] ++ lit " uno" ++ [LF; LF; BULLET] ++ lit " dos" ++ [LF; LF; BULLET]
    ++ lit " tres" ++ [LF; LF] ++ lit "fin".
Proof.
  split.
  - apply format_idempotent_on_plain_text. vm_compute. reflexivity.
  - vm_compute. reflexivity.
Defined.

(** A table of two lines. *)
Definition smallTable : str := lit "|a" ++ [LF] ++ lit "|b" ++ [LF].

(** C1 as stated fails: the first pass trims the line feed that ends the
    table, the second pass no longer sees a table and doubles the line
    feed inside it. *)
Lemma format_twice_differs_on_a_table :
  _formatAssistantContent smallTable = lit "|a" ++ [LF] ++ lit "|b" /\
  _formatAssistantContent (_formatAssistantContent smallTable) =
    lit "|a" ++ [LF; LF] ++ lit "|b" /\
  _formatAssistantContent (_formatAssistantContent smallTable) <>
    _formatAssistantContent smallTable.
Proof.
  assert (E1 : _formatAssistantContent smallTable = lit "|a" ++ [LF] ++ lit "|b")
    by (vm_compute; reflexivity).
  assert (E2 : _formatAssistantContent (_formatAssistantContent smallTable) =
               lit "|a" ++ [LF; LF] ++ lit "|b") by (vm_compute; reflexivity).
  split; [exact E1|]. split; [exact E2|].
  rewrite E2, E1. discriminate.
Qed.

End FormatterSpec.

(* ================================================================== *)
(** ** The conversation store: further properties *)
(* ================================================================== *)

Module StoreProperties.
Import JS JSFacts StateManager StateManagerFacts.

(** *** The map operations, continued *)

Lemma lookup_assign_other (k k' : str) (v : chat) (m : list (str * chat)) :
  k' <> k -> lookup k' (assign k v m) = lookup k' m.
Proof.
  intros Hne. apply str_eqb_neq in Hne.
  induction m as [|[k0 v0] m IH]; simpl.
  - now rewrite Hne.
  - destruct (str_eqb k k0) eqn:E; simpl.
    + apply str_eqb_eq in E; subst k0. now rewrite Hne.
    + now rewrite IH.
Qed.

Lemma lookup_remove_same (k : str) (m : list (str * chat)) :
  lookup k (remove k m) = None.
Proof.
  induction m as [|[k0 v0] m IH]; simpl; [reflexivity|].
  destruct (str_eqb k k0) eqn:E; simpl; [exact IH|]. now rewrite E.
Qed.

Lemma lookup_remove_other (k k' : str) (m : list (str * chat)) :
  k' <> k -> lookup k' (remove k m) = lookup k' m.
Proof.
  intros Hne. induction m as [|[k0 v0] m IH]; simpl; [reflexivity|].
  destruct (str_eqb k k0) eqn:E; simpl.
  - apply str_eqb_eq in E; subst k0.
    apply str_eqb_neq in Hne. now rewrite Hne.
  - now rewrite IH.
Qed.

Lemma lookup_absent (k : str) (m : list (str * chat)) :
  ~ In k (keys m) -> lookup k m = None.
Proof.
  intros H. destruct (lookup k m) eqn:E; [|reflexivity].
  apply lookup_In in E. contradiction.
Qed.

Lemma remove_absent (k : str) (m : list (str * chat)) :
  ~ In k (keys m) -> remove k m = m.
Proof.
  induction m as [|[k0 v0] m IH]; simpl; [reflexivity|]. intros H.
  destruct (str_eqb k k0) eqn:E; simpl.
  - apply str_eqb_eq in E. subst. tauto.
  - f_equal. apply IH. tauto.
Qed.

Lemma assign_assign (k : str) (v1 v2 : chat) (m : list (str * chat)) :
  assign k v2 (assign k v1 m) = assign k v2 m.
Proof.
  induction m as [|[k0 v0] m IH]; simpl.
  - now rewrite str_eqb_refl.
  - destruct (str_eqb k k0) eqn:E; simpl.
    + now rewrite str_eqb_refl.
    + now rewrite E, IH.
Qed.

Lemma NoDup_keys_assign (k : str) (v : chat) (m : list (str * chat)) :
  NoDup (keys m) -> NoDup (keys (assign k v m)).
Proof.
  induction m as [|[k0 v0] m IH]; simpl; intros H.
  - constructor; [tauto|constructor].
  - inversion H as [|x l Hn Hd]; subst.
    destruct (str_eqb k k0) eqn:E; simpl.
    + apply str_eqb_eq in E; subst. now constructor.
    + constructor; [|auto]. rewrite In_keys_assign. intros [->|Hin]; [|tauto].
      now rewrite str_eqb_refl in E.
Qed.

Lemma NoDup_keys_remove (k : str) (m : list (str * chat)) :
  NoDup (keys m) -> NoDup (keys (remove k m)).
Proof.
  induction m as [|[k0 v0] m IH]; simpl; intros H; [constructor|].
  inversion H as [|x l Hn Hd]; subst.
  destruct (str_eqb k k0); simpl; [auto|].
  constructor; [|auto]. fold (remove k m). rewrite In_keys_remove. tauto.
Qed.

(** *** The order of the ids *)

(** [a] may stand before [b] in a list sorted by the comparator: both ids
    carry a timestamp and the Number of [a]'s is not below the Number of
    [b]'s.  Timestamps that round to the same double count as equal. *)
Definition notOlder (a b : str) : Prop :=
  exists ta tb, embeddedTimestamp a = Some ta /\ embeddedTimestamp b = Some tb /\
                differenceNegative (toNumber ta) (toNumber tb) = false.

(** For timestamps below 2^53 this is the order of the integers. *)
Lemma notOlder_exact (a b : str) (ta tb : Z) :
  embeddedTimestamp a = Some ta -> embeddedTimestamp b = Some tb ->
  (Z.abs ta < 2 ^ 53)%Z -> (Z.abs tb < 2 ^ 53)%Z ->
  (notOlder a b <-> (tb <= ta)%Z).
Proof.
  intros Ea Eb Ha Hb. unfold notOlder. split.
  - intros (ta' & tb' & Ea' & Eb' & D).
    rewrite Ea in Ea'. rewrite Eb in Eb'. injection Ea' as <-. injection Eb' as <-.
    rewrite (toNumber_exact _ Ha), (toNumber_exact _ Hb) in D.
    simpl in D. now apply Z.ltb_ge in D.
  - intros Hle. exists ta, tb. split; [exact Ea|]. split; [exact Eb|].
    rewrite (toNumber_exact _ Ha), (toNumber_exact _ Hb). simpl.
    now apply Z.ltb_ge.
Qed.

Lemma insertSorted_perm (x : str) (l : list str) :
  Permutation (insertSorted x l) (x :: l).
Proof.
  induction l as [|y l IH]; simpl; [reflexivity|].
  destruct (sortsBefore y x); [|reflexivity].
  rewrite IH. apply perm_swap.
Qed.

Lemma insertSorted_sorted (x : str) (l : list str) :
  embeddedTimestamp x <> None ->
  Forall (fun k => embeddedTimestamp k <> None) l ->
  StronglySorted notOlder l -> StronglySorted notOlder (insertSorted x l).
Proof.
  intros Hx Hl Hs. induction Hs as [|y l Hs IH Hy]; simpl.
  - constructor; constructor.
  - inversion Hl as [|y' l' Hy' Hl']; subst.
    destruct (embeddedTimestamp x) as [tx|] eqn:Ex; [|congruence].
    destruct (embeddedTimestamp y) as [ty|] eqn:Ey; [|congruence].
    unfold sortsBefore. rewrite Ey, Ex.
    destruct (differenceNegative (toNumber tx) (toNumber ty)) eqn:D.
    + constructor; [auto|].
      rewrite (insertSorted_perm x l). constructor; [|exact Hy].
      exists ty, tx. repeat split; auto. now apply differenceNegative_asym.
    + constructor; [constructor; assumption|].
      constructor; [exists tx, ty; repeat split; auto|].
      eapply Forall_impl; [|exact Hy].
      intros k (t1 & t2 & E1 & E2 & Hle). rewrite Ey in E1. injection E1 as <-.
      exists tx, t2. repeat split; auto.
      eapply differenceNegative_trans; eauto.
Qed.

Lemma sortByTimestampDesc_perm (l : list str) :
  Permutation (sortByTimestampDesc l) l.
Proof.
  induction l as [|x l IH]; simpl; [reflexivity|].
  rewrite insertSorted_perm. now constructor.
Qed.

Lemma sortByTimestampDesc_sorted (l : list str) :
  Forall (fun k => embeddedTimestamp k <> None) l ->
  StronglySorted notOlder (sortByTimestampDesc l).
Proof.
  induction 1 as [|x l Hx Hl IH]; simpl; [constructor|].
  apply insertSorted_sorted; [exact Hx| |exact IH].
  rewrite sortByTimestampDesc_perm. exact Hl.
Qed.

(** X1: the [sort] call that [setActiveChat], [deleteChat] and
    [renderChatList] make on the ids returns the same ids, each as often as
    before, and, when every id carries a timestamp (as the ids made by
    [createNewChat] do), in the order of the Numbers [parseInt] reads from
    them, newest first: no id stands before an id whose Number is greater.
    Timestamps above 2^53 that round to the same double tie; for
    timestamps below 2^53 the order is that of the integers. *)
Theorem sortByTimestampDesc_newest_first (l : list str) :
  Permutation (sortByTimestampDesc l) l /\
  (Forall (fun k => embeddedTimestamp k <> None) l ->
     StronglySorted notOlder (sortByTimestampDesc l)) /\
  (Forall createdId l ->
     StronglySorted
       (fun a b => exists ta tb, a = chatIdOf ta /\ b = chatIdOf tb /\ (tb <= ta)%Z)
       (sortByTimestampDesc l)).
Proof.
  split; [apply sortByTimestampDesc_perm|].
  split; [apply sortByTimestampDesc_sorted|].
  intros Hc.
  assert (S : StronglySorted notOlder (sortByTimestampDesc l)).
  { apply sortByTimestampDesc_sorted. eapply Forall_impl; [|exact Hc].
    intros k (t & _ & ->). rewrite embeddedTimestamp_chatIdOf. discriminate. }
  assert (Hc' : Forall createdId (sortByTimestampDesc l)).
  { rewrite Forall_forall in *. intros k Hk. apply Hc.
    now apply In_sortByTimestampDesc. }
  clear Hc. induction S as [|a r S IH Ha]; [constructor|].
  inversion Hc' as [|a' r' Hca Hcr]; subst.
  constructor; [now apply IH|].
  rewrite Forall_forall in *. intros b Hb.
  destruct Hca as (ta & Ta & ->). destruct (Hcr b Hb) as (tb & Tb & ->).
  exists ta, tb. split; [reflexivity|]. split; [reflexivity|].
  apply (@notOlder_exact (chatIdOf ta) (chatIdOf tb) ta tb
           (embeddedTimestamp_chatIdOf ta) (embeddedTimestamp_chatIdOf tb)).
  - unfold timeValue in Ta. lia.
  - unfold timeValue in Tb. lia.
  - now apply Ha.
Qed.

(** X1 at the ids created at 100, 200 and 150. *)
Lemma sortByTimestampDesc_newest_first_witness :
  sortByTimestampDesc [chatIdOf 100; chatIdOf 200; chatIdOf 150] =
    [chatIdOf 200; chatIdOf 150; chatIdOf 100] /\
  StronglySorted notOlder (sortByTimestampDesc [chatIdOf 100; chatIdOf 200; chatIdOf 150]).
Proof.
  split; [reflexivity|].
  apply (sortByTimestampDesc_newest_first [chatIdOf 100; chatIdOf 200; chatIdOf 150]).
  repeat (apply Forall_cons; [rewrite embeddedTimestamp_chatIdOf; discriminate|]).
  apply Forall_nil.
Defined.

(** Two ids whose timestamps, above 2^53, round to the same double keep
    the order they had, although the second timestamp is the greater
    integer. *)
Example sortByTimestampDesc_ties_above_2_53 :
  sortByTimestampDesc [lit "chat_9007199254740992"; lit "chat_9007199254740993"] =
    [lit "chat_9007199254740992"; lit "chat_9007199254740993"].
Proof. vm_compute. reflexivity. Qed.

(** *** Creating and deleting conversations *)

(** A store with conversations created at 100, 200 and 150, the last one
    active and holding a question and its answer. *)
Definition sampleStore : state :=
  fst (addMessage (lit "assistant") (lit "Hola")
    (fst (addMessage (lit "user") (lit "Buenos dias")
      (fst (createNewChat 150
        (fst (createNewChat 200 (fst (createNewChat 100 defaultState))))))))).

(** X2: [createNewChat] never fails; the conversation it returns the id of
    is in the store, fresh (default title, no turn, default prompt) and
    active, also when a conversation with that id was there before; every
    other conversation and the settings are as they were. *)
Theorem createNewChat_adds_fresh_active_conversation (now : Z) (s : state) :
  let s' := fst (createNewChat now s) in
  let newChatId := snd (createNewChat now s) in
  activeChatId s' = Some newChatId /\
  getActiveChat s' = Conversation (Chat newChatId defaultTitle [] defaultSystemPrompt) /\
  (forall k, k <> newChatId -> lookup k (chats s') = lookup k (chats s)) /\
  (forall k, In k (keys (chats s')) <-> k = newChatId \/ In k (keys (chats s))) /\
  stateSettings s' = stateSettings s.
Proof.
  intros s' newChatId. subst s' newChatId. rewrite createNewChat_state.
  unfold getActiveChat. simpl.
  split; [reflexivity|]. split; [apply memberAt_own, lookup_assign_same|].
  split; [intros k Hk; now apply lookup_assign_other|].
  split; [intros k; apply In_keys_assign|reflexivity].
Qed.

(** X3: after [deleteChat(k)] the conversation [k] is gone -- unless it
    was the only one and active, and the conversation created in its place
    got the same id, which takes a clock reading equal to the one in [k] --
    and every conversation other than [k] and that new one is as it was;
    when [k] is not the active id, nothing but the entry [k] changes, and
    nothing at all when there is no such entry. *)
Theorem deleteChat_forgets_only_that_conversation (k : str) (now : Z) (s : state) :
  let s' := deleteChat k now s in
  (k <> chatIdOf now -> lookup k (chats s') = None) /\
  (forall k', k' <> k -> k' <> chatIdOf now ->
              lookup k' (chats s') = lookup k' (chats s)) /\
  (activeChatId s <> Some k ->
     s' = State (remove k (chats s)) (activeChatId s) (stateSettings s)) /\
  (activeChatId s <> Some k -> ~ In k (keys (chats s)) -> s' = s) /\
  stateSettings s' = stateSettings s.
Proof.
  intros s'. subst s'.
  assert (NA : activeChatId s <> Some k ->
          deleteChat k now s = State (remove k (chats s)) (activeChatId s) (stateSettings s)).
  { intros Hna. unfold deleteChat. destruct (activeChatId s) as [a|]; [|reflexivity].
    destruct (str_eqb a k) eqn:E; [|reflexivity].
    apply str_eqb_eq in E. congruence. }
  assert (C : chats (deleteChat k now s) = remove k (chats s) \/
              chats (deleteChat k now s) =
                assign (chatIdOf now) (Chat (chatIdOf now) defaultTitle [] defaultSystemPrompt)
                       (remove k (chats s))).
  { unfold deleteChat. destruct (match activeChatId s with Some a => str_eqb a k | None => false end).
    - cbv zeta. cbn [chats].
      destruct (sortByTimestampDesc _).
      + right. now rewrite createNewChat_state.
      + left. now rewrite setActiveChat_chats.
    - now left. }
  split; [|split; [|split; [exact NA|split]]].
  - intros Hk. destruct C as [-> | ->].
    + apply lookup_remove_same.
    + rewrite lookup_assign_other by exact Hk. apply lookup_remove_same.
  - intros k' Hk Hn. destruct C as [-> | ->].
    + now apply lookup_remove_other.
    + rewrite lookup_assign_other by exact Hn. now apply lookup_remove_other.
  - intros Hna Hin. rewrite (NA Hna), (remove_absent _ _ Hin). now destruct s.
  - unfold deleteChat. destruct (match activeChatId s with Some a => str_eqb a k | None => false end);
      [|reflexivity].
    cbv zeta. destruct (sortByTimestampDesc _).
    + now rewrite createNewChat_state.
    + now rewrite setActiveChat_settings.
Qed.

(** X3 at the store of three conversations: deleting the one created at
    200, which is not active, at clock reading 999. *)
Lemma deleteChat_forgets_only_that_conversation_witness :
  lookup (chatIdOf 200) (chats (deleteChat (chatIdOf 200) 999 sampleStore)) = None /\
  activeChatId (deleteChat (chatIdOf 200) 999 sampleStore) = Some (chatIdOf 150).
Proof.
  pose proof (deleteChat_forgets_only_that_conversation (chatIdOf 200) 999
                sampleStore) as (H1 & _ & H3 & _).
  split.
  - apply H1. intros E; discriminate E.
  - rewrite H3; [reflexivity|]. intros E; discriminate E.
Defined.

(** *** Writing into the active conversation *)

Definition withMessages (c : chat) (ms : list message) : chat :=
  Chat (id c) (title c) ms (systemPrompt c).

Lemma getActiveChat_assign (s : state) (c : chat) :
  getActiveChat (State (assign (propertyKey (activeChatId s)) c (chats s))
                       (activeChatId s) (stateSettings s)) = Conversation c.
Proof. unfold getActiveChat. simpl. apply memberAt_own, lookup_assign_same. Qed.

(** What the three operations that write into the active conversation
    leave alone. *)
Definition sameElsewhere (s s' : state) : Prop :=
  keys (chats s') = keys (chats s) /\
  activeChatId s' = activeChatId s /\
  stateSettings s' = stateSettings s /\
  forall k, k <> propertyKey (activeChatId s) ->
            lookup k (chats s') = lookup k (chats s).

Lemma sameElsewhere_refl (s : state) : sameElsewhere s s.
Proof. repeat split. Qed.

Lemma sameElsewhere_assign (s : state) (c c' : chat) :
  getActiveChat s = Conversation c ->
  sameElsewhere s (State (assign (propertyKey (activeChatId s)) c' (chats s))
                         (activeChatId s) (stateSettings s)).
Proof.
  intros H. split; [|split; [|split]]; simpl; try reflexivity.
  - eapply assign_active_keys; eauto.
  - intros k Hk. now apply lookup_assign_other.
Qed.

(** X4: [addMessage], [deleteMessage] and [updateSystemPrompt] write into
    the active conversation only: the ids and their order, the active id,
    the settings and every other conversation are as before, whatever the
    arguments, and whether the call returns or throws.  Without an active
    conversation the three leave the whole store as it was, and the first
    two throw exactly when the active id names a member that is only
    inherited. *)
Theorem active_conversation_updates_are_local (s : state) :
  (forall role content, sameElsewhere s (fst (addMessage role content s))) /\
  (forall index, sameElsewhere s (fst (deleteMessage index s))) /\
  (forall prompt, sameElsewhere s (updateSystemPrompt prompt s)) /\
  ((forall c, getActiveChat s <> Conversation c) ->
     (forall role content, fst (addMessage role content s) = s) /\
     (forall index, fst (deleteMessage index s) = s) /\
     (forall prompt, updateSystemPrompt prompt s = s)) /\
  (forall role content,
     snd (addMessage role content s) = Thrown <-> getActiveChat s = Inherited) /\
  (forall index,
     snd (deleteMessage index s) = Thrown <-> getActiveChat s = Inherited).
Proof.
  split; [|split; [|split; [|split; [|split]]]].
  - intros role content. unfold addMessage.
    destruct (getActiveChat s) as [c| |] eqn:E; simpl;
      [eapply sameElsewhere_assign; eauto|apply sameElsewhere_refl..].
  - intros index. unfold deleteMessage.
    destruct (getActiveChat s) as [c| |] eqn:E; simpl; [|apply sameElsewhere_refl..].
    destruct (_ && _)%bool; simpl;
      [eapply sameElsewhere_assign; eauto|apply sameElsewhere_refl].
  - intros prompt. unfold updateSystemPrompt.
    destruct (getActiveChat s) as [c| |] eqn:E;
      [eapply sameElsewhere_assign; eauto|apply sameElsewhere_refl..].
  - intros H. unfold addMessage, deleteMessage, updateSystemPrompt.
    destruct (getActiveChat s) as [c| |]; [now destruct (H c)|..];
      repeat split.
  - intros role content. unfold addMessage.
    destruct (getActiveChat s) as [c| |]; simpl; split; congruence.
  - intros index. unfold deleteMessage.
    destruct (getActiveChat s) as [c| |]; simpl; [|split; congruence..].
    destruct (_ && _)%bool; simpl; split; congruence.
Qed.

Lemma splice1_firstn_skipn (i : nat) (l : list message) :
  splice1 i l = firstn i l ++ skipn (S i) l.
Proof.
  revert i. induction l as [|x l IH]; intros [|i]; simpl; try reflexivity.
  f_equal. apply IH.
Qed.

Lemma splice1_last (l : list message) (x : message) :
  splice1 (length l) (l ++ [x]) = l.
Proof. induction l as [|y l IH]; simpl; [reflexivity|]. now rewrite IH. Qed.

(** X5: [deleteMessage(index)] with an index of a turn of the active
    conversation removes that turn and no other: the turns before it and
    after it stay, in their order, and the title, the prompt and the id
    are kept; with any other index, or without an active conversation, it
    changes nothing; it throws, changing nothing, when the active id names
    a member that is only inherited. *)
Theorem deleteMessage_removes_that_turn (index : Z) (s : state) :
  match getActiveChat s with
  | Conversation c =>
      snd (deleteMessage index s) = Returned tt /\
      if (0 <=? index)%Z && (index <? Z.of_nat (length (messages c)))%Z
      then getActiveChat (fst (deleteMessage index s)) =
             Conversation
               (withMessages c (firstn (Z.to_nat index) (messages c) ++
                                skipn (S (Z.to_nat index)) (messages c))) /\
           length (firstn (Z.to_nat index) (messages c) ++
                   skipn (S (Z.to_nat index)) (messages c)) =
             pred (length (messages c))
      else fst (deleteMessage index s) = s
  | Undefined => deleteMessage index s = (s, Returned tt)
  | Inherited => deleteMessage index s = (s, Thrown)
  end.
Proof.
  unfold deleteMessage. destruct (getActiveChat s) as [c| |] eqn:E; [|reflexivity..].
  destruct (0 <=? index)%Z eqn:E0; cbn [andb]; [|split; reflexivity].
  destruct (index <? Z.of_nat (length (messages c)))%Z eqn:E1; [|split; reflexivity].
  cbn [fst snd]. split; [reflexivity|].
  rewrite getActiveChat_assign, splice1_firstn_skipn. split; [reflexivity|].
  apply Z.leb_le in E0. apply Z.ltb_lt in E1.
  rewrite length_app, length_firstn, length_skipn. lia.
Qed.

(** X6: appending a turn and then deleting the turn at the last index
    gives back the turns, the prompt and the id of the active conversation
    -- but not its title when the appended turn was a first user turn: the
    title derived from it stays. *)
Theorem addMessage_then_deleteMessage (role content : str) (s : state) (c : chat) :
  getActiveChat s = Conversation c ->
  let s1 := fst (addMessage role content s) in
  let s2 := fst (deleteMessage (Z.of_nat (length (messages c))) s1) in
  getActiveChat s2 =
    Conversation
      (Chat (id c)
            (if match messages c with [] => true | _ => false end
                && str_eqb role (lit "user")
             then deriveTitle content else title c)
            (messages c) (systemPrompt c)) /\
  sameElsewhere s s2.
Proof.
  intros Hc s1 s2. subst s1 s2.
  unfold addMessage. rewrite Hc. cbn [fst].
  set (c1 := Chat _ _ _ _).
  set (s1 := State _ _ _).
  assert (H1 : getActiveChat s1 = Conversation c1) by apply getActiveChat_assign.
  unfold deleteMessage. rewrite H1.
  assert (L : length (messages c1) = S (length (messages c)))
    by (simpl; rewrite length_app; simpl; lia).
  rewrite L.
  replace ((0 <=? Z.of_nat (length (messages c)))%Z &&
           (Z.of_nat (length (messages c)) <? Z.of_nat (S (length (messages c))))%Z)
    with true by (symmetry; apply andb_true_iff; split; [apply Z.leb_le|apply Z.ltb_lt]; lia).
  rewrite Nat2Z.id. subst s1. cbn [fst chats activeChatId stateSettings].
  rewrite assign_assign. split.
  - rewrite getActiveChat_assign. f_equal.
    subst c1. cbn [id title messages systemPrompt].
    rewrite splice1_last, length_app. f_equal.
    destruct (messages c); [reflexivity|].
    simpl. now rewrite Nat.add_comm.
  - eapply sameElsewhere_assign; eauto.
Qed.

(** X6 at a fresh conversation: the question is deleted, its title stays. *)
Lemma addMessage_then_deleteMessage_witness :
  let s0 := fst (createNewChat 100 defaultState) in
  let s2 := fst (deleteMessage 0 (fst (addMessage (lit "user") (lit "Hola") s0))) in
  getActiveChat s2 =
    Conversation (Chat (chatIdOf 100) (lit "Hola") [] defaultSystemPrompt).
Proof.
  intros s0 s2.
  destruct (@addMessage_then_deleteMessage (lit "user") (lit "Hola") s0
              (Chat (chatIdOf 100) defaultTitle [] defaultSystemPrompt) eq_refl)
    as [H _].
  exact H.
Defined.

(** X7: [updateSystemPrompt] sets the prompt of the active conversation
    and keeps its id, title and turns; of two calls in a row the second
    one alone counts. *)
Theorem updateSystemPrompt_last_call_counts (p1 p2 : str) (s : state) :
  updateSystemPrompt p2 (updateSystemPrompt p1 s) = updateSystemPrompt p2 s /\
  match getActiveChat s with
  | Conversation c => getActiveChat (updateSystemPrompt p1 s) =
                        Conversation (Chat (id c) (title c) (messages c) p1)
  | _ => updateSystemPrompt p1 s = s
  end.
Proof.
  assert (N : (forall c, getActiveChat s <> Conversation c) ->
              forall p, updateSystemPrompt p s = s).
  { intros E p. unfold updateSystemPrompt.
    destruct (getActiveChat s) as [c| |]; [now destruct (E c)|reflexivity..]. }
  destruct (getActiveChat s) as [c| |] eqn:E.
  - assert (U : forall p, updateSystemPrompt p s =
              State (assign (propertyKey (activeChatId s))
                            (Chat (id c) (title c) (messages c) p) (chats s))
                    (activeChatId s) (stateSettings s))
      by (intros p; unfold updateSystemPrompt; now rewrite E).
    split; [|rewrite U; apply getActiveChat_assign].
    rewrite (U p1), (U p2). unfold updateSystemPrompt.
    rewrite getActiveChat_assign. simpl. now rewrite assign_assign.
  - split; [|apply N; discriminate]. rewrite !N by discriminate. reflexivity.
  - split; [|apply N; discriminate]. rewrite !N by discriminate. reflexivity.
Qed.

(** *** The settings *)

(** The last value a list of options holds, if any. *)
Fixpoint lastSet {A : Type} (l : list (option A)) (default : A) : A :=
  match l with
  | [] => default
  | Some v :: l' => lastSet l' v
  | None :: l' => lastSet l' default
  end.

(** X8: after any sequence of [updateSettings] calls each setting has the
    value of the last call that named it, or its old value if none did;
    the conversations and the active id are never touched. *)
Theorem updateSettings_last_value_per_key (patches : list settingsPatch) (s : state) :
  let s' := fold_left (fun st p => updateSettings p st) patches s in
  fontSize (stateSettings s') =
    lastSet (map newFontSize patches) (fontSize (stateSettings s)) /\
  maxTokens (stateSettings s') =
    lastSet (map newMaxTokens patches) (maxTokens (stateSettings s)) /\
  showThoughts (stateSettings s') =
    lastSet (map newShowThoughts patches) (showThoughts (stateSettings s)) /\
  chats s' = chats s /\ activeChatId s' = activeChatId s.
Proof.
  revert s. induction patches as [|p patches IH]; intros s; simpl.
  - repeat split.
  - specialize (IH (updateSettings p s)). cbv zeta in IH.
    destruct IH as (F & M & T & C & A).
    rewrite F, M, T, C, A. unfold updateSettings. simpl.
    destruct (newFontSize p), (newMaxTokens p), (newShowThoughts p); repeat split.
Qed.

End StoreProperties.

(* ================================================================== *)
(** ** The page: properties of [UIManager] *)
(* ================================================================== *)

Module UIProperties.
Import JS JSFacts StateManager StateManagerFacts StoreProperties UIManager.

Lemma In_lookup (k : str) (m : list (str * chat)) :
  In k (keys m) -> exists c, lookup k m = Some c.
Proof.
  induction m as [|[k0 v0] m IH]; simpl; [tauto|].
  intros H. destruct (str_eqb k k0) eqn:E; [eauto|].
  apply str_eqb_neq in E. destruct H as [H|H]; [congruence|auto].
Qed.

(** *** [parseInt(s, 10)] on a rendered integer *)

Lemma parseIntRadix10_digits (d : Decimal.uint) :
  d <> Decimal.Nil ->
  parseIntRadix10 (unitsOfUint d) = Some (Z.of_N (N.of_uint d)) /\
  parseIntRadix10 (45%N :: unitsOfUint d) = Some (- Z.of_N (N.of_uint d))%Z.
Proof.
  intros Hd.
  pose proof (uintOfUnits_unitsOfUint d) as E.
  destruct d as [|d|d|d|d|d|d|d|d|d|d]; try congruence;
    unfold parseIntRadix10; simpl trimStart; cbv iota beta; simpl unitsOfUint in E;
    simpl (isDigit _); cbv iota; rewrite E; split; reflexivity.
Qed.

Lemma parseIntRadix10_stringOfInt (t : Z) : parseIntRadix10 (stringOfInt t) = Some t.
Proof.
  unfold stringOfInt.
  pose proof (DecimalZ.of_to t) as Hz.
  destruct t as [|p|p]; simpl Z.to_int in *.
  - reflexivity.
  - destruct (parseIntRadix10_digits (DecimalPos.Unsigned.to_uint_nonnil p)) as [H _].
    rewrite H. f_equal. exact Hz.
  - destruct (parseIntRadix10_digits (DecimalPos.Unsigned.to_uint_nonnil p)) as [_ H].
    rewrite H. f_equal. exact Hz.
Qed.

(** *** The list of conversations *)

Lemma forEachChatId_items (chats : list (str * chat)) (a : option str) (ids : list str) :
  incl ids (keys chats) ->
  exists items,
    forEachChatId chats a ids = Some items /\
    map itemChatId items = ids /\
    Forall (fun item =>
              option_map title (lookup (itemChatId item) chats) = Some (itemTitle item) /\
              itemActive item = isActiveId (itemChatId item) a) items.
Proof.
  induction ids as [|k ids IH]; intros Hin; simpl.
  - exists []. repeat split. constructor.
  - destruct (@In_lookup k chats) as [c Hc]; [apply Hin; now left|].
    destruct IH as (items & E & M & F); [intros x Hx; apply Hin; now right|].
    rewrite Hc, E. eexists. split; [reflexivity|]. simpl. split; [now rewrite M|].
    constructor; [|exact F]. simpl. now rewrite Hc.
Qed.

(** The number of items shown as active. *)
Definition activeItems (items : list listItem) : nat :=
  length (filter itemActive items).

Lemma activeItems_count (a : option str) (items : list listItem) :
  Forall (fun item => itemActive item = isActiveId (itemChatId item) a) items ->
  activeItems items =
  match a with
  | Some k => count_occ (list_eq_dec N.eq_dec) (map itemChatId items) k
  | None => 0
  end.
Proof.
  unfold activeItems. induction 1 as [|item items Hi _ IH]; simpl.
  - now destruct a.
  - rewrite Hi. destruct a as [k|]; simpl; [|exact IH].
    destruct (list_eq_dec N.eq_dec (itemChatId item) k) as [->|Hne].
    + rewrite str_eqb_refl. simpl. now rewrite IH.
    + apply str_eqb_neq in Hne. now rewrite Hne.
Qed.

(** X9: [renderChatList] never throws; it shows every conversation of the
    store once, under its title; when every id carries a timestamp, no
    item stands before one whose timestamp reads as a greater Number
    (newest first, timestamps that round to the same double counting as
    equal); exactly one item is shown as active when the active id is the
    id of a conversation, and none otherwise. *)
Theorem renderChatList_shows_each_conversation_once
    (chats : list (str * chat)) (activeChatId : option str) :
  NoDup (keys chats) ->
  exists items,
    renderChatList chats activeChatId = Some items /\
    Permutation (map itemChatId items) (keys chats) /\
    Forall (fun item =>
              option_map title (lookup (itemChatId item) chats) = Some (itemTitle item))
           items /\
    (Forall (fun k => embeddedTimestamp k <> None) (keys chats) ->
       StronglySorted notOlder (map itemChatId items)) /\
    activeItems items =
      match activeChatId with
      | Some k => if in_dec (list_eq_dec N.eq_dec) k (keys chats) then 1 else 0
      | None => 0
      end.
Proof.
  intros Hnd.
  pose proof (sortByTimestampDesc_perm (keys chats)) as P.
  destruct (@forEachChatId_items chats activeChatId (sortByTimestampDesc (keys chats)))
    as (items & E & M & F).
  { intros x Hx. now apply In_sortByTimestampDesc. }
  exists items.
  assert (R : renderChatList chats activeChatId = Some items).
  { unfold renderChatList. destruct (keys chats) eqn:K; [|exact E].
    simpl in E. exact E. }
  split; [exact R|]. split; [now rewrite M|].
  split; [eapply Forall_impl; [|exact F]; intros item [H _]; exact H|].
  split.
  - intros Hts. rewrite M. apply sortByTimestampDesc_sorted. exact Hts.
  - rewrite (@activeItems_count activeChatId)
      by (eapply Forall_impl; [|exact F]; intros item [_ H]; exact H).
    destruct activeChatId as [k|]; [|reflexivity]. rewrite M.
    rewrite (Permutation_count_occ (list_eq_dec N.eq_dec)) in P. rewrite P.
    destruct (in_dec (list_eq_dec N.eq_dec) k (keys chats)) as [Hin|Hout].
    + now apply NoDup_count_occ'.
    + now apply count_occ_not_In.
Qed.

(** X9 at the sample store: three items, the one created at 150 active. *)
Lemma renderChatList_shows_each_conversation_once_witness :
  exists items,
    renderChatList (chats sampleStore) (activeChatId sampleStore) = Some items /\
    map itemChatId items = [chatIdOf 200; chatIdOf 150; chatIdOf 100] /\
    activeItems items = 1.
Proof.
  assert (Hnd : NoDup (keys (chats sampleStore))).
  { change (keys (chats sampleStore)) with [chatIdOf 100; chatIdOf 200; chatIdOf 150].
    apply NoDup_cons; [intros [H|[H|[]]]; discriminate H|].
    apply NoDup_cons; [intros [H|[]]; discriminate H|].
    apply NoDup_cons; [intros []|apply NoDup_nil]. }
  destruct (@renderChatList_shows_each_conversation_once
              (chats sampleStore) (activeChatId sampleStore) Hnd)
    as (items & R & _ & _ & _ & A).
  exists items. split; [exact R|].
  assert (E : renderChatList (chats sampleStore) (activeChatId sampleStore) =
              Some [ListItem (chatIdOf 200) false defaultTitle;
                    ListItem (chatIdOf 150) true (lit "Buenos dias");
                    ListItem (chatIdOf 100) false defaultTitle])
    by reflexivity.
  rewrite E in R. injection R as <-. split; reflexivity.
Defined.

(** *** The token estimate *)

Lemma totalChars_from (messages : list message) (n : Z) :
  fold_left (fun sum msg => (sum + Z.of_nat (length (content msg)))%Z) messages n =
  (n + Z.of_nat (list_sum (map (fun m => length (content m)) messages)))%Z.
Proof.
  revert n. induction messages as [|m ms IH]; intros n; simpl; [lia|].
  rewrite IH. lia.
Qed.

Lemma estimatedTokens_div (messages : list message) :
  estimatedTokens messages = (- (- totalChars messages / 4))%Z.
Proof. reflexivity. Qed.

(** X10: the number [updateTokenCount] shows is a quarter of the number
    of code units of all the turns, rounded up: the least integer whose
    fourfold is not below that number; it is 0 for a conversation without
    text, and it never goes down when a turn is appended. *)
Theorem token_estimate_is_a_quarter_rounded_up (messages : list message) :
  let total := Z.of_nat (list_sum (map (fun m => length (content m)) messages)) in
  updateTokenCount messages = lit "Tokens: " ++ stringOfInt (estimatedTokens messages) /\
  (4 * (estimatedTokens messages - 1) < total <= 4 * estimatedTokens messages)%Z /\
  (total = 0%Z -> updateTokenCount messages = lit "Tokens: 0") /\
  forall m, (estimatedTokens messages <= estimatedTokens (messages ++ [m]))%Z.
Proof.
  intros total.
  assert (T : forall ms, totalChars ms =
              Z.of_nat (list_sum (map (fun m => length (content m)) ms)))
    by (intros ms; unfold totalChars; now rewrite totalChars_from).
  split; [reflexivity|].
  split; [|split].
  - rewrite estimatedTokens_div, T. fold total. clearbody total.
    pose proof (Z.div_mod (- total) 4) as D.
    pose proof (Z.mod_pos_bound (- total) 4) as B. lia.
  - intros H0. unfold updateTokenCount. rewrite estimatedTokens_div, T.
    fold total. now rewrite H0.
  - intros m. rewrite !estimatedTokens_div, !T, map_app, list_sum_app.
    rewrite Nat2Z.inj_add. fold total.
    set (x := Z.of_nat (list_sum _)).
    assert (Hx : (- (total + x) <= - total)%Z) by (subst x; lia).
    apply Z.div_le_mono with (c := 4%Z) in Hx; lia.
Qed.

(** *** The bubbles of the log *)

Lemma forEachMessage_nth (messages : list message) (start : Z) (i : nat) (b : bubble) :
  nth_error (forEachMessage start messages) i = Some b ->
  exists m, nth_error messages i = Some m /\
            b = appendMessage (role m) (content m) (start + Z.of_nat i)%Z.
Proof.
  revert start i. induction messages as [|m ms IH]; intros start [|i]; simpl;
    try discriminate.
  - intros H. injection H as <-. exists m. split; [reflexivity|].
    now rewrite Z.add_0_r.
  - intros H. destruct (IH _ _ H) as [m' [Hm ->]]. exists m'. split; [exact Hm|].
    f_equal. lia.
Qed.

Lemma forEachMessage_length (messages : list message) (start : Z) :
  length (forEachMessage start messages) = length messages.
Proof. revert start. induction messages; intros; simpl; auto. Qed.

Lemma forEachMessage_indices (messages : list message) (start : nat) :
  map messageIndex (forEachMessage (Z.of_nat start) messages) =
  map (fun i => stringOfInt (Z.of_nat i)) (seq start (length messages)).
Proof.
  revert start. induction messages as [|m ms IH]; intros start; simpl; [reflexivity|].
  f_equal. rewrite <- IH. do 2 f_equal. lia.
Qed.

Section FontSize.

Variable Number_toString : Z -> str.

(** ECMA-262, Number::toString: an integer below 2^53 in magnitude is
    written with all its digits. *)
Hypothesis Number_toString_digits :
  forall n : Z, (Z.abs n < 2 ^ 53)%Z -> Number_toString n = stringOfInt n.

Local Abbreviation applySettings := (applySettings Number_toString).


End FontSize.


End UIProperties.

(* ================================================================== *)
(** ** The controller: properties of [ChatApp] *)
(* ================================================================== *)

Module ChatAppProperties.
Import JS JSFacts StateManager StateManagerFacts StoreProperties.
Import UIManager UIProperties ChatApp.

(** *** The API key *)

Lemma unusable_false (k : option str) :
  unusable k = false ->
  exists key, k = Some key /\ key <> [] /\ startsWith [37%N] key = false /\
              missing k = false.
Proof.
  destruct k as [[|c key]|]; simpl; try discriminate.
  intros H. exists (c :: key). repeat split; [discriminate|exact H].
Qed.



(** *** Selecting, creating and deleting from the page *)

Lemma lookup_none_or_some (k : str) (m : list (str * chat)) :
  In k (keys m) -> lookup k m <> None.
Proof. intros H. destruct (In_lookup k m H) as [c ->]. discriminate. Qed.

(** The id [setActiveChat] falls back to: the first of the sorted ids. *)
Definition newestId (m : list (str * chat)) : option str :=
  match sortByTimestampDesc (keys m) with
  | first :: _ => Some first
  | [] => None
  end.

(** The test [setActiveChat] makes on its argument. *)
Definition accepted (chatId : option str) (m : list (str * chat)) : bool :=
  match chatId with
  | Some k => negb (str_eqb k []) && truthyMember (memberAt k m)
  | None => false
  end.

Lemma setActiveChat_cases (a : option str) (s : state) :
  setActiveChat a s =
  State (chats s) (if accepted a (chats s) then a else newestId (chats s))
        (stateSettings s).
Proof.
  unfold setActiveChat. fold (accepted a (chats s)). fold (newestId (chats s)).
  now destruct (accepted a (chats s)).
Qed.

(** Selecting the id that [setActiveChat] selected changes nothing. *)
Lemma setActiveChat_again (a : option str) (s : state) :
  setActiveChat (activeChatId (setActiveChat a s)) (setActiveChat a s) = setActiveChat a s.
Proof.
  rewrite (setActiveChat_cases a s). rewrite setActiveChat_cases.
  cbn [chats activeChatId stateSettings]. f_equal.
  destruct (accepted a (chats s)) eqn:A; [now rewrite A|].
  now destruct (accepted (newestId (chats s)) (chats s)).
Qed.

(** An active id that [setActiveChat] accepts: it is not empty and it is
    the id of a conversation; or there is no conversation and no id. *)
Definition activeUsable (s : state) : Prop :=
  match activeChatId s with
  | Some a => a <> [] /\ In a (keys (chats s))
  | None => chats s = []
  end.

Lemma setActiveChat_usable (s : state) :
  activeUsable s -> setActiveChat (activeChatId s) s = s.
Proof.
  unfold activeUsable. destruct s as [m [a|] st]; simpl.
  - intros [Hne Hin]. now rewrite setActiveChat_present.
  - intros ->. reflexivity.
Qed.

Lemma activeUsable_not_inherited (s : state) :
  activeUsable s -> getActiveChat s <> Inherited.
Proof.
  unfold activeUsable, getActiveChat. destruct (activeChatId s) as [a|]; simpl.
  - intros [_ Hin]. destruct (In_memberAt a (chats s) Hin) as [c ->]. discriminate.
  - intros ->. discriminate.
Qed.

Lemma resolves_not_inherited (s : state) :
  chats s <> [] -> activeResolves s -> getActiveChat s <> Inherited.
Proof.
  intros Hne Hr. destruct (Hr Hne) as (k & Ek & Hin).
  unfold getActiveChat. rewrite Ek. cbn [propertyKey].
  destruct (In_memberAt k (chats s) Hin) as [c ->]. discriminate.
Qed.

(** [renderChatList] never throws. *)
Lemma renderChatList_returns (m : list (str * chat)) (a : option str) :
  exists items, renderChatList m a = Some items.
Proof.
  destruct (@forEachChatId_items m a (sortByTimestampDesc (keys m)))
    as (items & E & _).
  { intros x Hx. now apply In_sortByTimestampDesc. }
  exists items. unfold renderChatList.
  destruct (keys m) eqn:K; [|exact E]. simpl in E. exact E.
Qed.

(** [_setActiveChat] throws, after the store operation, exactly when the
    id that is active then names a member that is only inherited. *)
Lemma _setActiveChat_outcome (a : option str) (s : state) :
  _setActiveChat a s =
  (setActiveChat a s,
   match getActiveChat (setActiveChat a s) with
   | Inherited => Thrown
   | _ => Returned tt
   end).
Proof.
  unfold _setActiveChat.
  destruct (renderChatList_returns (chats (setActiveChat a s))
              (activeChatId (setActiveChat a s))) as [items ->].
  unfold getActiveChat.
  now destruct (memberAt _ _).
Qed.

Lemma _setActiveChat_returns (a : option str) (s : state) :
  getActiveChat (setActiveChat a s) <> Inherited ->
  _setActiveChat a s = (setActiveChat a s, Returned tt).
Proof.
  intros H. rewrite _setActiveChat_outcome.
  destruct (getActiveChat (setActiveChat a s)); congruence.
Qed.

Lemma getActiveChat_createNewChat (now : Z) (s : state) :
  getActiveChat (fst (createNewChat now s)) =
  Conversation (Chat (chatIdOf now) defaultTitle [] defaultSystemPrompt).
Proof. rewrite createNewChat_state. apply memberAt_own, lookup_assign_same. Qed.

Lemma _createNewChat_outcome (now : Z) (s : state) :
  _createNewChat now s = (fst (createNewChat now s), Returned tt).
Proof.
  unfold _createNewChat, getActiveChatId.
  assert (E : setActiveChat (activeChatId (fst (createNewChat now s)))
                            (fst (createNewChat now s)) = fst (createNewChat now s)).
  { unfold createNewChat. cbn [fst]. apply setActiveChat_again. }
  rewrite _setActiveChat_returns; rewrite E; [reflexivity|].
  rewrite getActiveChat_createNewChat. discriminate.
Qed.

(** X13: the [setActiveChat] call that [_createNewChat] and [_deleteChat]
    make after the store operation changes nothing, and what is rendered
    then throws nothing: [_createNewChat] returns and leaves the store as
    [createNewChat] does, and so does a confirmed [_deleteChat] as
    [deleteChat] does, when the active id was the id of a conversation; a
    [_deleteChat] that is not confirmed changes nothing. *)
Theorem page_operations_change_the_store_as_the_store_operations_do
    (now : Z) (s : state) :
  _createNewChat now s = (fst (createNewChat now s), Returned tt) /\
  (forall k, _deleteChat false k now s = (s, Returned tt)) /\
  (activeUsable s ->
     forall k, _deleteChat true k now s = (deleteChat k now s, Returned tt)).
Proof.
  split; [apply _createNewChat_outcome|]. split; [reflexivity|].
  intros Hu k. unfold _deleteChat, getActiveChatId. cbn [negb].
  assert (E : setActiveChat (activeChatId (deleteChat k now s)) (deleteChat k now s)
              = deleteChat k now s /\
              getActiveChat (deleteChat k now s) <> Inherited).
  { unfold deleteChat.
    destruct (activeChatId s) as [a|] eqn:Ea.
    - destruct (str_eqb a k) eqn:Eak.
      + cbv zeta. destruct (sortByTimestampDesc _) as [|f r] eqn:Es.
        * split; [unfold createNewChat; cbn [fst]; apply setActiveChat_again|].
          rewrite getActiveChat_createNewChat. discriminate.
        * split; [apply setActiveChat_again|].
          assert (Hf : In f (keys (remove k (chats s)))).
          { apply In_sortByTimestampDesc. cbn [chats] in Es. rewrite Es. now left. }
          apply resolves_not_inherited.
          -- rewrite setActiveChat_chats. cbn [chats].
             intros E0. rewrite E0 in Hf. destruct Hf.
          -- apply setActiveChat_resolves, present_not_inherited. exact Hf.
      + assert (U : activeUsable (State (remove k (chats s)) (Some a) (stateSettings s))).
        { unfold activeUsable in *. rewrite Ea in Hu. cbn [activeChatId chats].
          destruct Hu as [Hne Hin]. split; [exact Hne|].
          apply In_keys_remove. split; [|exact Hin]. now apply str_eqb_neq. }
        split; [now apply setActiveChat_usable|now apply activeUsable_not_inherited].
    - assert (U : activeUsable (State (remove k (chats s)) None (stateSettings s))).
      { unfold activeUsable in *. rewrite Ea in Hu. cbn [activeChatId chats].
        now rewrite Hu. }
      split; [now apply setActiveChat_usable|now apply activeUsable_not_inherited]. }
  destruct E as [E N].
  rewrite _setActiveChat_returns; rewrite E; [reflexivity|exact N].
Qed.

(** X13 at the sample store, deleting the conversation created at 200. *)
Lemma page_operations_change_the_store_as_the_store_operations_do_witness :
  _deleteChat true (chatIdOf 200) 999 sampleStore =
  (deleteChat (chatIdOf 200) 999 sampleStore, Returned tt).
Proof.
  apply (page_operations_change_the_store_as_the_store_operations_do 999 sampleStore).
  change (lit "chat_150" <> [] /\
          In (lit "chat_150") [lit "chat_100"; lit "chat_200"; lit "chat_150"]).
  split; [discriminate|]. simpl. tauto.
Defined.

(** X14: [_init] throws exactly when the store that was loaded has
    conversations and an active id that names a member which is only
    inherited, such as "constructor": the id is accepted, and rendering
    the member as a conversation throws; the store is as it was loaded.
    In every other case [_init] returns and there is an active
    conversation afterwards: a fresh one when the store was empty, and
    otherwise the one that was active, if its id is the id of a
    conversation, or else one of the others. *)
Theorem init_leaves_an_active_conversation (now : Z) (s : state) :
  (chats s <> [] /\ getActiveChat s = Inherited ->
     _init now s = (s, Thrown)) /\
  (chats s = [] \/ getActiveChat s <> Inherited ->
     snd (_init now s) = Returned tt /\
     exists c, getActiveChat (fst (_init now s)) = Conversation c) /\
  (chats s = [] ->
     getActiveChat (fst (_init now s)) =
       Conversation (Chat (chatIdOf now) defaultTitle [] defaultSystemPrompt)) /\
  (chats s <> [] -> activeUsable s -> _init now s = (s, Returned tt)).
Proof.
  assert (R : forall r : state * completion unit,
            (match snd r, renderChatList (chats (fst r)) (activeChatId (fst r)) with
             | Returned _, Some _ => (fst r, Returned tt)
             | _, _ => (fst r, Thrown)
             end) = (fst r, match snd r with Returned _ => Returned tt | Thrown => Thrown end)).
  { intros [s' c]. cbn [fst snd].
    destruct (renderChatList_returns (chats s') (activeChatId s')) as [items ->].
    now destruct c. }
  assert (Empty : chats s = [] -> _init now s = (fst (createNewChat now s), Returned tt)).
  { intros E. unfold _init. rewrite R, E. cbn [keys map].
    now rewrite _createNewChat_outcome. }
  assert (Full : chats s <> [] ->
            _init now s =
            (setActiveChat (activeChatId s) s,
             match getActiveChat (setActiveChat (activeChatId s) s) with
             | Inherited => Thrown
             | _ => Returned tt
             end)).
  { intros Hne. unfold _init. rewrite R.
    destruct (keys (chats s)) eqn:K; [destruct (chats s); [congruence|discriminate]|].
    rewrite _setActiveChat_outcome. cbn [fst snd].
    now destruct (getActiveChat (setActiveChat (activeChatId s) s)). }
  split; [|split; [|split]].
  - intros [Hne Hi]. rewrite (Full Hne).
    assert (E : setActiveChat (activeChatId s) s = s).
    { rewrite setActiveChat_inherited.
      - now destruct s.
      - unfold getActiveChat in Hi. destruct (activeChatId s) as [k|] eqn:Ea.
        + exists k. split; [reflexivity|exact Hi].
        + simpl in Hi. unfold memberAt in Hi.
          destruct (lookup _ _); discriminate Hi. }
    rewrite E, Hi. reflexivity.
  - intros H. destruct (chats s) as [|e m] eqn:Ec.
    + rewrite (Empty eq_refl). cbn [fst snd]. split; [reflexivity|].
      rewrite getActiveChat_createNewChat. eauto.
    + assert (Hne : chats s <> []) by (rewrite Ec; discriminate).
      destruct H as [H|H]; [discriminate H|].
      rewrite <- Ec in *. rewrite (Full Hne). cbn [fst snd].
      assert (Res : activeResolves (setActiveChat (activeChatId s) s)).
      { apply setActiveChat_resolves. intros (k & Ek & Hk).
        apply H. unfold getActiveChat. rewrite Ek. exact Hk. }
      destruct Res as (k & Ek & Hin); [now rewrite setActiveChat_chats|].
      destruct (In_memberAt k _ Hin) as [c Hc].
      assert (G : getActiveChat (setActiveChat (activeChatId s) s) = Conversation c)
        by (unfold getActiveChat; rewrite Ek; exact Hc).
      rewrite G. split; [reflexivity|eauto].
  - intros E. rewrite (Empty E). cbn [fst]. apply getActiveChat_createNewChat.
  - intros Hne Hu. rewrite (Full Hne), (@setActiveChat_usable s Hu).
    pose proof (@activeUsable_not_inherited s Hu) as N.
    destruct (getActiveChat s); congruence.
Qed.

(** X14 at a store that was saved with the active id "constructor". *)
Example init_throws_on_an_inherited_active_id :
  let loaded := State (chats sampleStore) (Some (lit "constructor")) (stateSettings sampleStore) in
  _init 999 loaded = (loaded, Thrown).
Proof. vm_compute. reflexivity. Qed.

(** *** Deleting a turn from its bubble *)

(** X15: the bubbles [renderChatContent] makes carry the positions of
    their turns, 0, 1, 2, ... in order, and the delete button of the
    bubble at position [i] removes the turn at position [i] and no other;
    the log rendered afterwards is numbered from 0 again. *)
Theorem bubble_deletes_its_own_turn (s : state) (c : chat) (i : nat) (b : bubble) :
  getActiveChat s = Conversation c ->
  (exists rendered, renderChatContent (Conversation c) = Returned rendered /\
                    nth_error (chatLog rendered) i = Some b) ->
  let kept := firstn i (messages c) ++ skipn (S i) (messages c) in
  let s' := fst (_deleteMessage b s) in
  messageIndex b = stringOfInt (Z.of_nat i) /\
  getActiveChat s' = Conversation (withMessages c kept) /\
  exists view,
    snd (_deleteMessage b s) = Returned view /\
    length (chatLog view) = pred (length (messages c)) /\
    map messageIndex (chatLog view) =
      map (fun j => stringOfInt (Z.of_nat j)) (seq 0 (pred (length (messages c)))).
Proof.
  intros Hc (rendered & Hr & Hb) kept s'.
  cbn [renderChatContent] in Hr. injection Hr as <-. cbn [chatLog] in Hb.
  pose proof Hb as Hb'.
  apply forEachMessage_nth in Hb' as (m & Hm & ->).
  assert (Hi : i < length (messages c)) by (apply nth_error_Some; congruence).
  assert (D : deleteMessage (Z.of_nat i) s =
              (State (assign (propertyKey (activeChatId s))
                             (withMessages c kept) (chats s))
                     (activeChatId s) (stateSettings s), Returned tt)).
  { unfold deleteMessage. rewrite Hc.
    replace ((0 <=? Z.of_nat i)%Z && (Z.of_nat i <? Z.of_nat (length (messages c)))%Z)
      with true
      by (symmetry; apply andb_true_iff; split; [apply Z.leb_le|apply Z.ltb_lt]; lia).
    now rewrite Nat2Z.id, splice1_firstn_skipn. }
  assert (M : _deleteMessage (appendMessage (role m) (content m) (0 + Z.of_nat i)) s =
              (fst (deleteMessage (Z.of_nat i) s),
               renderChatContent (getActiveChat (fst (deleteMessage (Z.of_nat i) s))))).
  { unfold _deleteMessage, appendMessage, _createMessageWrapper. cbn [messageIndex].
    rewrite parseIntRadix10_stringOfInt. cbn [Z.add]. now rewrite D. }
  assert (A : getActiveChat s' = Conversation (withMessages c kept)).
  { subst s'. rewrite M, D. cbn [fst]. apply getActiveChat_assign. }
  assert (L : length kept = pred (length (messages c))).
  { subst kept. rewrite length_app, length_firstn, length_skipn. lia. }
  split; [reflexivity|]. split; [exact A|].
  subst s'. rewrite M in A |- *. cbn [fst snd] in *. rewrite A.
  cbn [renderChatContent]. eexists. split; [reflexivity|].
  cbn [chatLog withMessages messages]. split.
  - now rewrite forEachMessage_length.
  - rewrite <- L. apply (forEachMessage_indices kept 0).
Qed.

(** X15 at the sample store: the button of the second bubble. *)
Lemma bubble_deletes_its_own_turn_witness :
  let c := Chat (chatIdOf 150) (lit "Buenos dias")
             [Message (lit "user") (lit "Buenos dias");
              Message (lit "assistant") (lit "Hola")] defaultSystemPrompt in
  let b := appendMessage (lit "assistant") (lit "Hola") 1 in
  getActiveChat (fst (_deleteMessage b sampleStore)) =
    Conversation (withMessages c [Message (lit "user") (lit "Buenos dias")]).
Proof.
  intros c b.
  destruct (@bubble_deletes_its_own_turn sampleStore c 1 b eq_refl) as (_ & H & _).
  - eexists. split; reflexivity.
  - exact H.
Defined.

(** *** Submitting a message *)

Lemma map_message_id (l : list message) :
  map (fun m => Message (role m) (content m)) l = l.
Proof. induction l as [|[r x] l IH]; simpl; [reflexivity|]. now rewrite IH. Qed.

Section Submit.

Variable Number_toString : JSON.jnumber -> str.

Local Abbreviation _handleFormSubmit := (_handleFormSubmit Number_toString).

(** The text the handler stores as the answer. *)
Definition answerOf (o : outcome) : str :=
  match o with
  | Streamed reads => StreamDecoder._processStream Number_toString reads
  | NoBody => NO_VALID_RESPONSE
  | Rejected message => errorTextOf message
  end.

(** X16: a submit whose input is empty or white space only, or made
    without an API service, sends nothing and changes nothing.  Any other
    submit, with an active conversation, sends the prompt of the prompt
    field as the system message, then the turns the conversation had, then
    the trimmed input as a user turn; it stores the prompt, and appends
    exactly that user turn and one assistant turn -- the text accumulated
    from the stream, or an error text -- to the active conversation and to
    no other; the title is derived from the input when the conversation
    had no turn. *)
Theorem submit_sends_the_conversation_and_records_two_turns
    (inputValue promptValue : str) (hasApiService : bool)
    (query : list message -> outcome) (s : state) :
  let r := _handleFormSubmit inputValue promptValue hasApiService query s in
  let userInput := trim inputValue in
  match userInput, hasApiService, getActiveChat s with
  | [], _, _ | _, false, _ => r = Submitted s None false
  | _ :: _, true, Undefined | _ :: _, true, Inherited => r = Submitted s None true
  | _ :: _, true, Conversation c =>
      let payload :=
        Message (lit "system") promptValue
          :: messages c ++ [Message (lit "user") userInput] in
      sent r = Some payload /\
      threw r = false /\
      getActiveChat (store r) =
        Conversation
          (Chat (id c)
                (match messages c with
                 | [] => deriveTitle userInput
                 | _ => title c
                 end)
                (messages c ++ [Message (lit "user") userInput;
                                 Message (lit "assistant") (answerOf (query payload))])
                promptValue) /\
      sameElsewhere s (store r)
  end.
Proof.
  intros r userInput. subst r. unfold ChatApp._handleFormSubmit. fold userInput.
  destruct userInput as [|u0 us] eqn:EU; [reflexivity|].
  destruct hasApiService; [|reflexivity]. cbn [orb negb].
  destruct (getActiveChat s) as [c| |] eqn:Hc.
  - (* the three store operations, one after the other *)
    assert (U : updateSystemPrompt promptValue s =
            State (assign (propertyKey (activeChatId s))
                          (Chat (id c) (title c) (messages c) promptValue) (chats s))
                  (activeChatId s) (stateSettings s))
      by (unfold updateSystemPrompt; now rewrite Hc).
    set (c1 := Chat (id c) (title c) (messages c) promptValue) in U.
    set (s1 := updateSystemPrompt promptValue s) in *.
    assert (H1 : getActiveChat s1 = Conversation c1) by (rewrite U; apply getActiveChat_assign).
    assert (K1 : activeChatId s1 = activeChatId s) by now rewrite U.
    set (user := Message (lit "user") (u0 :: us)).
    set (t2 := if Nat.eqb (length (messages c ++ [user])) 1 && str_eqb (lit "user") (lit "user")
               then deriveTitle (u0 :: us) else title c).
    set (c2 := Chat (id c) t2 (messages c ++ [user]) promptValue).
    set (s2 := State (assign (propertyKey (activeChatId s)) c2 (chats s))
                     (activeChatId s) (stateSettings s)).
    assert (A2 : addMessage (lit "user") (u0 :: us) s1 = (s2, Returned (Some t2))).
    { unfold addMessage. rewrite H1. rewrite U.
      cbn [chats activeChatId stateSettings]. now rewrite assign_assign. }
    rewrite A2.
    assert (H2 : getActiveChat s2 = Conversation c2) by apply getActiveChat_assign.
    rewrite H2. unfold _prepareApiPayload. rewrite H2.
    cbn [systemPrompt messages c2]. rewrite map_message_id.
    set (payload := Message (lit "system") promptValue :: messages c ++ [user]).
    cbn [sent threw store].
    set (answer := match query payload with
                   | Streamed reads => StreamDecoder._processStream Number_toString reads
                   | NoBody => NO_VALID_RESPONSE
                   | Rejected message => errorTextOf message
                   end).
    assert (T2 : t2 = match messages c with [] => deriveTitle (u0 :: us) | _ => title c end).
    { subst t2. rewrite length_app. simpl.
      destruct (messages c); [reflexivity|]. simpl. now rewrite Nat.add_comm. }
    assert (A3 : addMessage (lit "assistant") answer s2 =
            (State (assign (propertyKey (activeChatId s))
                           (Chat (id c) t2 ((messages c ++ [user]) ++
                                            [Message (lit "assistant") answer]) promptValue)
                           (chats s))
                   (activeChatId s) (stateSettings s),
             Returned (Some t2))).
    { unfold addMessage. rewrite H2. subst s2.
      cbn [chats activeChatId stateSettings id title messages systemPrompt c2].
      rewrite assign_assign.
      assert (L : Nat.eqb (length ((messages c ++ [user]) ++
                                   [Message (lit "assistant") answer])) 1 = false).
      { rewrite !length_app. simpl. rewrite Nat.add_comm.
        destruct (length (messages c)); reflexivity. }
      rewrite L. reflexivity. }
    rewrite A3. cbn [sent threw store].
    split; [reflexivity|]. split; [reflexivity|]. split.
    + rewrite getActiveChat_assign, T2, <- app_assoc. reflexivity.
    + eapply sameElsewhere_assign; eauto.
  - assert (U : updateSystemPrompt promptValue s = s)
      by (unfold updateSystemPrompt; now rewrite Hc).
    rewrite U. unfold addMessage. now rewrite Hc.
  - assert (U : updateSystemPrompt promptValue s = s)
      by (unfold updateSystemPrompt; now rewrite Hc).
    rewrite U. unfold addMessage. rewrite Hc. now rewrite Hc.
Qed.

End Submit.

(** *** Scrolling from message to message *)

Lemma firstInView_range (h : Z) (tops : list QArith_base.Q) (i : Z) :
  firstInView h i tops = (-1)%Z \/
  (i <= firstInView h i tops < i + Z.of_nat (length tops))%Z.
Proof.
  revert i. induction tops as [|top tops IH]; intros i; simpl firstInView; [now left|].
  destruct (inView h top).
  - right. simpl length. lia.
  - destruct (IH (i + 1)%Z) as [E|R]; [now left|right]. simpl length. lia.
Qed.

Lemma searchUp_first (n steps : nat) (i : Z) :
  (i < Z.of_nat n)%Z ->
  searchUp n (S steps) i = if (0 <=? i)%Z then i else (-1)%Z.
Proof.
  intros Hi. cbn [searchUp]. destruct (0 <=? i)%Z eqn:E; [|reflexivity].
  unfold hasBubble. rewrite E. apply Z.ltb_lt in Hi. now rewrite Hi.
Qed.

Lemma searchDown_first (n steps : nat) (i : Z) :
  (0 <= i)%Z ->
  searchDown n (S steps) i = if (i <? Z.of_nat n)%Z then i else (-1)%Z.
Proof.
  intros Hi. cbn [searchDown]. destruct (i <? Z.of_nat n)%Z eqn:E; [|reflexivity].
  unfold hasBubble. rewrite E. apply Z.leb_le in Hi. now rewrite Hi.
Qed.

(** X17: the index [_getCurrentMessageIndex] returns is -1 exactly when
    the log has no bubble, and an index of the log otherwise; scrolling up
    goes to the bubble just before that index, and does nothing at index 0
    or in an empty log; scrolling down goes to the bubble just after it,
    and does nothing at the last index: no index outside the log is ever
    scrolled to. *)
Theorem scrolling_stays_inside_the_log (clientHeight : Z) (tops : list QArith_base.Q) :
  let current := _getCurrentMessageIndex clientHeight tops in
  let n := Z.of_nat (length tops) in
  (tops = [] -> current = (-1)%Z) /\
  (tops <> [] -> (0 <= current < n)%Z) /\
  _handleScrollUp clientHeight tops =
    (if (1 <=? current)%Z then Some (current - 1)%Z else None) /\
  _handleScrollDown clientHeight tops =
    (if (current + 1 <? n)%Z then Some (current + 1)%Z else None).
Proof.
  intros current n.
  assert (R : (tops = [] /\ current = (-1)%Z) \/ (tops <> [] /\ (0 <= current < n)%Z)).
  { subst current n. unfold _getCurrentMessageIndex.
    destruct tops as [|top tops]; [left; split; reflexivity|right].
    split; [discriminate|].
    destruct (firstInView_range clientHeight (top :: tops) 0) as [E|E].
    - rewrite E. cbn [Z.eqb Pos.eqb andb Nat.ltb Nat.leb length]. simpl length. lia.
    - destruct (Z.eqb_spec (firstInView clientHeight 0 (top :: tops)) (-1)) as [E1|E1];
        [lia|]. cbn [andb]. lia. }
  split; [intros E; destruct R as [[_ H]|[H _]]; [exact H|contradiction]|].
  split; [intros E; destruct R as [[H _]|[_ H]]; [contradiction|exact H]|].
  unfold _handleScrollUp, _handleScrollDown. fold current. fold n.
  assert (Hc : (-1 <= current < n)%Z \/ (current = (-1)%Z /\ n = 0%Z)).
  { destruct R as [[E H]|[_ H]]; [right|left; lia]. split; [exact H|]. subst n. now rewrite E. }
  split.
  - rewrite searchUp_first by (fold n; lia).
    destruct (0 <=? current - 1)%Z eqn:E0, (1 <=? current)%Z eqn:E1;
      try apply Z.leb_le in E0; try apply Z.leb_le in E1;
      try apply Z.leb_gt in E0; try apply Z.leb_gt in E1; try lia.
    + destruct (Z.eqb_spec (current - 1) (-1)); [lia|reflexivity].
    + reflexivity.
  - rewrite searchDown_first by lia. fold n.
    destruct (current + 1 <? n)%Z eqn:E; [|reflexivity].
    apply Z.ltb_lt in E.
    destruct (Z.eqb_spec (current + 1) (-1)); [lia|reflexivity].
Qed.

End ChatAppProperties.

(* ================================================================== *)
(** ** Saving and loading the store: proofs *)
(* ================================================================== *)

Module PersistenceFacts.
Import JS JSFacts JSON JSONFacts StateManager StateManagerFacts Persistence.

(** *** Strings: [JSON.parse] reads back what QuoteJSONString wrote *)

(** A string of 16-bit code units. *)
Definition units16 (s : str) : bool := forallb (fun c => N.ltb c 65536) s.

Lemma hexValue_hexDigit (n : N) : (n < 16)%N -> hexValue (hexDigit n) = Some n.
Proof.
  intros H. destruct n as [|p]; [reflexivity|].
  do 4 (try destruct p as [p|p|]); try reflexivity; lia.
Qed.

Lemma hex4_digits (c : N) :
  (c < 65536)%N ->
  hex4 (hexDigit (c / 4096 mod 16)) (hexDigit (c / 256 mod 16))
       (hexDigit (c / 16 mod 16)) (hexDigit (c mod 16)) = Some c.
Proof.
  intros H. unfold hex4.
  rewrite !hexValue_hexDigit by (apply N.mod_lt; discriminate).
  f_equal.
  pose proof (N.div_mod c 16 ltac:(discriminate)) as D0.
  pose proof (N.div_mod (c / 16) 16 ltac:(discriminate)) as D1.
  pose proof (N.div_mod (c / 256) 16 ltac:(discriminate)) as D2.
  assert (E1 : (c / 16 / 16 = c / 256)%N) by (rewrite N.Div0.div_div; reflexivity).
  assert (E2 : (c / 256 / 16 = c / 4096)%N) by (rewrite N.Div0.div_div; reflexivity).
  assert (S : (c / 4096 < 16)%N) by (apply N.Div0.div_lt_upper_bound; exact H).
  rewrite (N.mod_small (c / 4096) 16) by exact S.
  rewrite E1 in D1. rewrite E2 in D2. lia.
Qed.

Lemma parseString_unicodeEscape (c : N) (t : str) :
  (c < 65536)%N ->
  parseString (unicodeEscape c ++ t) = consResult c (parseString t).
Proof.
  intros H. unfold unicodeEscape. cbn [app parseString].
  change (N.eqb 92 34) with false. change (N.eqb 92 92) with true.
  change (N.eqb 117 117) with true. cbv iota.
  now rewrite hex4_digits.
Qed.

Local Ltac escapeCase c k :=
  destruct (N.eqb_spec c k) as [->|_];
  [let H := fresh in intros H; injection H as <-; reflexivity|].

Lemma shortEscape_reads (c e : N) (t : str) :
  shortEscape c = Some e ->
  parseString (92%N :: e :: t) = consResult c (parseString t).
Proof.
  unfold shortEscape.
  escapeCase c 8%N. escapeCase c 9%N. escapeCase c 10%N. escapeCase c 12%N.
  escapeCase c 13%N. escapeCase c 34%N. escapeCase c 92%N.
  discriminate.
Qed.

Lemma shortEscape_none (c : N) :
  shortEscape c = None -> N.eqb c 34 = false /\ N.eqb c 92 = false.
Proof.
  unfold shortEscape.
  destruct (N.eqb c 8); [discriminate|]. destruct (N.eqb c 9); [discriminate|].
  destruct (N.eqb c 10); [discriminate|]. destruct (N.eqb c 12); [discriminate|].
  destruct (N.eqb c 13); [discriminate|]. destruct (N.eqb c 34); [discriminate|].
  destruct (N.eqb c 92); [discriminate|]. auto.
Qed.

Lemma parseString_literal (c : N) (t : str) :
  N.eqb c 34 = false -> N.eqb c 92 = false -> N.ltb c 32 = false ->
  parseString (c :: t) = consResult c (parseString t).
Proof. intros H1 H2 H3. cbn [parseString]. now rewrite H1, H2, H3. Qed.

(** What follows the opening quotation mark is read back up to the
    closing one. *)
Lemma parseString_quoteUnits (s rest : str) :
  units16 s = true ->
  parseString (quoteUnits s ++ 34%N :: rest) = Some (s, rest).
Proof.
  remember (length s) as n eqn:Hn. revert s Hn.
  induction n as [n IH] using lt_wf_ind. intros s Hn Hu.
  destruct s as [|c s']; [reflexivity|].
  unfold units16 in Hu. cbn [forallb] in Hu. apply andb_true_iff in Hu as [Hc Hs].
  apply N.ltb_lt in Hc.
  assert (Tail : parseString (quoteUnits s' ++ 34%N :: rest) = Some (s', rest))
    by (apply (IH (length s')); [simpl in Hn; lia|reflexivity|exact Hs]).
  cbn [quoteUnits].
  destruct (shortEscape c) as [e|] eqn:Es.
  { cbn [app]. rewrite (shortEscape_reads _ _ Es), Tail. reflexivity. }
  destruct (shortEscape_none _ Es) as [Hq Hb].
  destruct (N.ltb c 32) eqn:Hlow.
  { rewrite <- app_assoc, parseString_unicodeEscape, Tail by exact Hc. reflexivity. }
  destruct (isLeadingSurrogate c) eqn:Hlead.
  - destruct s' as [|d s''].
    + rewrite parseString_unicodeEscape by exact Hc. reflexivity.
    + destruct (isTrailingSurrogate d) eqn:Htrail.
      * cbn [app]. rewrite parseString_literal by assumption.
        unfold isTrailingSurrogate in Htrail. apply andb_true_iff in Htrail as [Hd1 Hd2].
        apply N.leb_le in Hd1.
        rewrite parseString_literal.
        -- rewrite (IH (length s'')); [reflexivity|simpl in Hn; lia|reflexivity|].
           cbn [forallb] in Hs. now apply andb_true_iff in Hs as [_ Hs].
        -- apply N.eqb_neq. lia.
        -- apply N.eqb_neq. lia.
        -- apply N.ltb_ge. lia.
      * rewrite <- app_assoc, parseString_unicodeEscape, Tail by exact Hc. reflexivity.
  - destruct (isTrailingSurrogate c).
    + rewrite <- app_assoc, parseString_unicodeEscape, Tail by exact Hc. reflexivity.
    + cbn [app]. rewrite parseString_literal, Tail by assumption. reflexivity.
Qed.

(** The quoted string has no unit below 32: no line feed in particular. *)
Lemma hexDigit_range (n : N) : (n < 16)%N -> (48 <= hexDigit n)%N.
Proof. intros H. unfold hexDigit. destruct (N.ltb_spec n 10); lia. Qed.

Lemma quoteUnits_printable (s : str) :
  forallb (fun c => N.leb 32 c) (quoteUnits s) = true.
Proof.
  remember (length s) as n eqn:Hn. revert s Hn.
  induction n as [n IH] using lt_wf_ind. intros s Hn.
  destruct s as [|c s']; [reflexivity|].
  assert (Tail : forallb (fun c => N.leb 32 c) (quoteUnits s') = true)
    by (apply (IH (length s')); [simpl in Hn; lia|reflexivity]).
  assert (Esc : forall x, forallb (fun c => N.leb 32 c) (unicodeEscape x) = true).
  { intros x. unfold unicodeEscape. cbn [forallb].
    assert (H : forall m, N.leb 32 (hexDigit (m mod 16)) = true).
    { intros m. apply N.leb_le.
      pose proof (@hexDigit_range (m mod 16) ltac:(apply N.mod_lt; discriminate)). lia. }
    now rewrite !H. }
  cbn [quoteUnits].
  destruct (shortEscape c) as [e|] eqn:Es.
  { cbn [forallb]. rewrite Tail.
    revert Es. unfold shortEscape.
    repeat match goal with
           | |- (if ?b then _ else _) = _ -> _ =>
               destruct b; [let H := fresh in intros H; injection H as <-; reflexivity|]
           end.
    discriminate. }
  destruct (N.ltb c 32) eqn:Hlow; [now rewrite forallb_app, Esc, Tail|].
  assert (Hc : N.leb 32 c = true) by (apply N.leb_le; apply N.ltb_ge in Hlow; lia).
  destruct (isLeadingSurrogate c).
  - destruct s' as [|d s'']; [apply Esc|].
    destruct (isTrailingSurrogate d) eqn:Ht.
    + cbn [forallb]. rewrite Hc.
      unfold isTrailingSurrogate in Ht. apply andb_true_iff in Ht as [Hd _].
      apply N.leb_le in Hd.
      replace (N.leb 32 d) with true by (symmetry; apply N.leb_le; lia).
      apply (IH (length s'')); [simpl in Hn; lia|reflexivity].
    + now rewrite forallb_app, Esc, Tail.
  - destruct (isTrailingSurrogate c); [now rewrite forallb_app, Esc, Tail|].
    cbn [forallb]. now rewrite Hc, Tail.
Qed.

(** *** Values: [JSON.parse] reads back what [JSON.stringify] wrote *)

(** Induction on a value, with the elements and the members as
    hypotheses. *)
Section JsonInduction.

Variable P : json -> Prop.
Hypothesis Hnull : P JNull.
Hypothesis Hbool : forall b, P (JBool b).
Hypothesis Hnumber : forall n, P (JNumber n).
Hypothesis Hstring : forall s, P (JString s).
Hypothesis Harray : forall vs, Forall P vs -> P (JArray vs).
Hypothesis Hobject : forall ms, Forall (fun m => P (snd m)) ms -> P (JObject ms).

Fixpoint json_induction (v : json) : P v :=
  match v with
  | JNull => Hnull
  | JBool b => Hbool b
  | JNumber n => Hnumber n
  | JString s => Hstring s
  | JArray vs =>
      Harray ((fix all (l : list json) : Forall P l :=
                 match l with
                 | [] => Forall_nil P
                 | x :: l' => Forall_cons x (json_induction x) (all l')
                 end) vs)
  | JObject ms =>
      Hobject ((fix all (l : list (str * json)) : Forall (fun m => P (snd m)) l :=
                  match l with
                  | [] => Forall_nil _
                  | m :: l' => Forall_cons m (json_induction (snd m)) (all l')
                  end) ms)
  end.

End JsonInduction.

(** A number that is an integer a double holds exactly, written without
    fraction and exponent, and not a negative zero. *)
Definition plainInteger (n : jnumber) : bool :=
  Z.eqb (exponent10 n) 0 && N.ltb (mantissa n) 9007199254740992 &&
  (negb (N.eqb (mantissa n) 0) || negb (negative n)).

(** A value whose strings are strings of 16-bit units and whose numbers
    are such integers. *)
Fixpoint writable (v : json) : bool :=
  match v with
  | JNull | JBool _ => true
  | JNumber n => plainInteger n
  | JString s => units16 s
  | JArray vs => forallb writable vs
  | JObject ms => forallb (fun m => units16 (fst m) && writable (snd m)) ms
  end.

(** What may follow a value inside a text: nothing, a comma, or a closing
    bracket or brace. *)
Definition endsValue (q : str) : bool :=
  match q with
  | [] => true
  | c :: _ => N.eqb c 44 || N.eqb c 93 || N.eqb c 125
  end.

Lemma endsValue_cases (q : str) :
  endsValue q = true ->
  q = [] \/ exists c r, q = c :: r /\ (c = 44 \/ c = 93 \/ c = 125)%N.
Proof.
  destruct q as [|c r]; [now left|]. simpl. intros H. right. exists c, r.
  split; [reflexivity|].
  apply orb_true_iff in H as [H|H]; [apply orb_true_iff in H as [H|H]|];
    apply N.eqb_eq in H; auto.
Qed.

Lemma takeDigits_all (ds q : str) :
  forallb isDigit ds = true -> endsValue q = true ->
  takeDigits (ds ++ q) = (ds, q).
Proof.
  intros Hd Hq. induction ds as [|c ds IH]; simpl.
  - destruct (endsValue_cases _ Hq) as [->|(c & r & -> & Hc)]; [reflexivity|].
    simpl. replace (isDigit c) with false; [reflexivity|].
    unfold isDigit. destruct Hc as [->|[->| ->]]; reflexivity.
  - simpl in Hd. apply andb_true_iff in Hd as [Hc Hd]. now rewrite Hc, IH.
Qed.

Lemma parseFraction_none (q : str) :
  endsValue q = true -> parseFraction q = Some ([], q).
Proof.
  intros Hq. destruct (endsValue_cases _ Hq) as [->|(c & r & -> & Hc)]; [reflexivity|].
  destruct Hc as [->|[->| ->]]; reflexivity.
Qed.

Lemma parseExponent_none (q : str) :
  endsValue q = true -> parseExponent q = Some (0%Z, q).
Proof.
  intros Hq. destruct (endsValue_cases _ Hq) as [->|(c & r & -> & Hc)]; [reflexivity|].
  destruct Hc as [->|[->| ->]]; reflexivity.
Qed.

(** The digits of a positive number do not begin with a zero. *)
Lemma nzhead_no_zero (d d' : Decimal.uint) : Decimal.nzhead d <> Decimal.D0 d'.
Proof. induction d; simpl; try discriminate. exact IHd. Qed.

Lemma to_uint_head (p : positive) :
  exists c ds, unitsOfUint (Pos.to_uint p) = c :: ds /\
               N.eqb c 48 = false /\ isDigit c = true.
Proof.
  assert (U : Decimal.unorm (Pos.to_uint p) = Pos.to_uint p).
  { rewrite <- (DecimalPos.Unsigned.to_of (Pos.to_uint p)).
    now rewrite DecimalPos.Unsigned.of_to. }
  pose proof (DecimalPos.Unsigned.to_uint_nonzero p) as NZ.
  pose proof (DecimalPos.Unsigned.to_uint_nonnil p) as NN.
  destruct (Pos.to_uint p) as [|d|d|d|d|d|d|d|d|d|d] eqn:E; try congruence;
    try (eexists; eexists; split; [reflexivity|split; reflexivity]).
  exfalso. unfold Decimal.unorm in U. simpl Decimal.nzhead in U.
  destruct (Decimal.nzhead d) eqn:Ez.
  - injection U as <-. congruence.
  - now apply nzhead_no_zero in Ez.
  - rewrite <- Ez in U. now apply nzhead_no_zero in U.
  - rewrite <- Ez in U. now apply nzhead_no_zero in U.
  - rewrite <- Ez in U. now apply nzhead_no_zero in U.
  - rewrite <- Ez in U. now apply nzhead_no_zero in U.
  - rewrite <- Ez in U. now apply nzhead_no_zero in U.
  - rewrite <- Ez in U. now apply nzhead_no_zero in U.
  - rewrite <- Ez in U. now apply nzhead_no_zero in U.
  - rewrite <- Ez in U. now apply nzhead_no_zero in U.
  - rewrite <- Ez in U. now apply nzhead_no_zero in U.
Qed.

Lemma parseNumber_digits (p : positive) (q : str) :
  endsValue q = true ->
  parseNumber (unitsOfUint (Pos.to_uint p) ++ q) = Some (JNum false (N.pos p) 0, q) /\
  parseNumber (45%N :: unitsOfUint (Pos.to_uint p) ++ q) = Some (JNum true (N.pos p) 0, q).
Proof.
  intros Hq.
  destruct (to_uint_head p) as (c & ds & E & Hz & Hd).
  pose proof (unitsOfUint_digits (Pos.to_uint p)) as D.
  assert (V : valueOfDigits (unitsOfUint (Pos.to_uint p) ++ []) = N.pos p).
  { rewrite app_nil_r. unfold valueOfDigits. rewrite uintOfUnits_unitsOfUint.
    apply DecimalPos.Unsigned.of_to. }
  rewrite E in *.
  assert (I : parseIntPart ((c :: ds) ++ q) = Some (c :: ds, q)).
  { cbn [app parseIntPart]. rewrite Hz, Hd.
    change (c :: ds ++ q) with ((c :: ds) ++ q). now rewrite (takeDigits_all _ _ D Hq). }
  assert (M : N.eqb c 45 = false).
  { unfold isDigit in Hd. apply andb_true_iff in Hd as [H1 H2].
    apply N.leb_le in H1, H2. apply N.eqb_neq. lia. }
  split.
  - unfold parseNumber. cbn [app]. rewrite M.
    change (c :: ds ++ q) with ((c :: ds) ++ q).
    rewrite I, (parseFraction_none _ Hq), (parseExponent_none _ Hq), V. reflexivity.
  - unfold parseNumber. cbn [N.eqb Pos.eqb].
    rewrite I, (parseFraction_none _ Hq), (parseExponent_none _ Hq), V. reflexivity.
Qed.

Lemma parseNumber_integerToString (n : jnumber) (q : str) :
  plainInteger n = true -> endsValue q = true ->
  parseNumber (integerToString n ++ q) = Some (n, q).
Proof.
  destruct n as [neg m e]. unfold plainInteger, integerToString. cbn [exponent10 mantissa negative].
  intros H Hq. apply andb_true_iff in H as [H Hz]. apply andb_true_iff in H as [He _].
  apply Z.eqb_eq in He. subst e.
  destruct m as [|p].
  - cbn [N.eqb] in *. simpl in Hz. destruct neg; [discriminate|].
    cbn. rewrite (parseFraction_none _ Hq), (parseExponent_none _ Hq). reflexivity.
  - cbn [N.eqb]. destruct (parseNumber_digits p q Hq) as [Hpos Hneg].
    destruct neg.
    + replace (-1 * Z.of_N (N.pos p) * 10 ^ 0)%Z with (Z.neg p)
        by (change (10 ^ 0)%Z with 1%Z; lia).
      exact Hneg.
    + replace (1 * Z.of_N (N.pos p) * 10 ^ 0)%Z with (Z.pos p)
        by (change (10 ^ 0)%Z with 1%Z; lia).
      exact Hpos.
Qed.

Lemma integerToString_head (n : jnumber) :
  exists c r, integerToString n = c :: r /\ startsNumber c = true.
Proof.
  destruct n as [neg m e]. unfold integerToString. cbn [mantissa negative exponent10].
  destruct (N.eqb m 0); [exists 48%N, []; split; reflexivity|].
  unfold stringOfInt.
  destruct (Z.to_int _) as [d|d] eqn:E.
  - destruct ((if neg then -1 else 1) * Z.of_N m * 10 ^ e)%Z as [|p|p] eqn:Ez;
      simpl in E; try discriminate.
    + injection E as <-. exists 48%N, []. split; reflexivity.
    + injection E as <-. destruct (to_uint_head p) as (c & ds & -> & _ & Hd).
      exists c, ds. split; [reflexivity|]. unfold startsNumber. now rewrite Hd, orb_true_r.
  - exists 45%N, (unitsOfUint d). split; reflexivity.
Qed.

Lemma startsNumber_not_ws (c : N) : startsNumber c = true -> isJsonWs c = false.
Proof.
  unfold startsNumber, isDigit, isJsonWs. intros H.
  apply orb_true_iff in H. rewrite N.eqb_eq, andb_true_iff, !N.leb_le in H.
  repeat (apply orb_false_iff; split); apply N.eqb_neq; lia.
Qed.

Lemma skipWs_head (c : N) (r : str) : isJsonWs c = false -> skipWs (c :: r) = c :: r.
Proof. simpl. now intros ->. Qed.

Lemma parseValue_number (f : nat) (c : N) (r : str) (n : jnumber) (r' : str) :
  startsNumber c = true -> parseNumber (c :: r) = Some (n, r') ->
  parseValue (S f) (c :: r) = Some (JNumber n, r').
Proof.
  intros Hc Hp. rewrite parseValue_S, (skipWs_head c r (startsNumber_not_ws c Hc)).
  destruct (startsNumber_cases _ Hc) as (-> & -> & -> & Ht & Hf & Hn).
  cbn [startsWith lit map String.list_ascii_of_string].
  change (N_of_ascii "t") with 116%N. change (N_of_ascii "f") with 102%N.
  change (N_of_ascii "n") with 110%N.
  rewrite Ht, Hf, Hn. cbn [andb]. now rewrite Hp.
Qed.

Local Abbreviation write := (stringify integerToString).

(** A written value begins with a unit that is neither white space nor a
    closing bracket or brace. *)
Lemma write_head (v : json) :
  exists c r, write v = c :: r /\ isJsonWs c = false /\
              N.eqb c 93 = false /\ N.eqb c 125 = false.
Proof.
  destruct v as [|[|]|n|s|vs|ms]; try (eexists; eexists; split; [reflexivity|repeat split]).
  destruct (integerToString_head n) as (c & r & E & Hc).
  exists c, r. split; [exact E|]. split; [now apply startsNumber_not_ws|].
  unfold startsNumber, isDigit in Hc.
  apply orb_true_iff in Hc. rewrite N.eqb_eq, andb_true_iff, !N.leb_le in Hc.
  split; apply N.eqb_neq; lia.
Qed.

Lemma write_length (v : json) : 1 <= length (write v).
Proof. destruct (write_head v) as (c & r & -> & _). simpl. lia. Qed.

Lemma parseString_quoted (s rest : str) :
  units16 s = true ->
  parseString (quoteUnits s ++ [34%N] ++ rest) = Some (s, rest).
Proof. apply parseString_quoteUnits. Qed.

(** The statement proved for a value [v]: with enough fuel the parser
    reads [v] off the text [write v] and stops there. *)
Definition readsBack (v : json) : Prop :=
  writable v = true ->
  forall q f, endsValue q = true -> 2 * length (write v) <= f ->
  parseValue f (write v ++ q) = Some (v, q).

Lemma parseElements_written (vs : list json) :
  vs <> [] -> Forall readsBack vs -> forallb writable vs = true ->
  forall q f, 2 * length (joinWith [44%N] (map write vs)) + 1 <= f ->
  parseElements f (joinWith [44%N] (map write vs) ++ 93%N :: q) = Some (vs, q).
Proof.
  intros Hne Hall. induction Hall as [|v vs Hv Hvs IH]; [congruence|].
  intros Hw q f Hf. cbn [forallb] in Hw. apply andb_true_iff in Hw as [Hwv Hws].
  destruct f as [|f]; [lia|]. rewrite parseElements_S.
  destruct vs as [|v2 vs].
  - cbn [map joinWith] in *.
    rewrite (Hv Hwv (93%N :: q) f eq_refl) by lia. reflexivity.
  - change (joinWith [44%N] (map write (v :: v2 :: vs)))
      with (write v ++ [44%N] ++ joinWith [44%N] (map write (v2 :: vs))) in *.
    rewrite length_app in Hf. cbn [length app] in Hf.
    pose proof (write_length v) as Lv.
    rewrite <- !app_assoc. cbn [app].
    rewrite (Hv Hwv (44%N :: _) f eq_refl) by lia.
    cbn [skipWs isJsonWs N.eqb Pos.eqb orb].
    rewrite IH; [reflexivity|discriminate|exact Hws|lia].
Qed.

Definition writeMember (m : str * json) : str :=
  QuoteJSONString (fst m) ++ [58%N] ++ write (snd m).

Lemma parseMembers_written (ms : list (str * json)) :
  ms <> [] -> Forall (fun m => readsBack (snd m)) ms ->
  forallb (fun m => units16 (fst m) && writable (snd m)) ms = true ->
  forall q f, 2 * length (joinWith [44%N] (map writeMember ms)) + 1 <= f ->
  parseMembers f (joinWith [44%N] (map writeMember ms) ++ 125%N :: q) = Some (ms, q).
Proof.
  intros Hne Hall. induction Hall as [|[k v] ms Hv Hms IH]; [congruence|].
  intros Hw q f Hf. cbn [forallb fst snd] in Hw.
  apply andb_true_iff in Hw as [Hwm Hws]. apply andb_true_iff in Hwm as [Hk Hwv].
  cbn [snd] in Hv.
  destruct f as [|f]; [lia|]. rewrite parseMembers_S.
  pose proof (write_length v) as Lv.
  destruct ms as [|m2 ms].
  - cbn [map joinWith] in *. unfold writeMember, QuoteJSONString in *. cbn [fst snd] in *.
    rewrite !length_app in Hf. cbn [length app] in *. rewrite !length_app in Hf.
    cbn [length] in Hf.
    cbn [skipWs isJsonWs N.eqb Pos.eqb orb].
    rewrite <- !app_assoc. rewrite (parseString_quoted _ _ Hk).
    cbn [app skipWs isJsonWs N.eqb Pos.eqb orb].
    rewrite (Hv Hwv (125%N :: q) f eq_refl) by lia. reflexivity.
  - change (joinWith [44%N] (map writeMember ((k, v) :: m2 :: ms)))
      with (writeMember (k, v) ++ [44%N] ++ joinWith [44%N] (map writeMember (m2 :: ms))) in *.
    set (J := joinWith [44%N] (map writeMember (m2 :: ms))) in *.
    unfold writeMember, QuoteJSONString in Hf |- *.
    cbn [fst snd] in *.
    rewrite !length_app in Hf. cbn [length app] in *. rewrite !length_app in Hf.
    cbn [length] in Hf.
    cbn [skipWs isJsonWs N.eqb Pos.eqb orb].
    rewrite <- !app_assoc. rewrite (parseString_quoted _ _ Hk).
    cbn [app skipWs isJsonWs N.eqb Pos.eqb orb].
    rewrite (Hv Hwv (44%N :: _) f eq_refl) by lia.
    cbn [skipWs isJsonWs N.eqb Pos.eqb orb].
    subst J. rewrite IH; [reflexivity|discriminate|exact Hws|lia].
Qed.

Lemma joinWith_head (f : json -> str) (x : json) (l : list json) :
  exists t, joinWith [44%N] (map f (x :: l)) = f x ++ t.
Proof.
  destruct l as [|y l]; [exists []; simpl; now rewrite app_nil_r|].
  eexists. reflexivity.
Qed.

Lemma readsBack_all (v : json) : readsBack v.
Proof.
  induction v as [|b|n|s|vs IH|ms IH] using json_induction;
    unfold readsBack; intros Hw q f Hq Hf.
  - destruct f as [|f]; [simpl in Hf; lia|]. reflexivity.
  - destruct f as [|f]; [destruct b; simpl in Hf; lia|]. destruct b; reflexivity.
  - pose proof (write_length (JNumber n)) as L.
    destruct f as [|f]; [lia|].
    destruct (integerToString_head n) as (c & r & E & Hc).
    pose proof (parseNumber_integerToString n q Hw Hq) as P.
    cbn [stringify] in *. rewrite E in *. cbn [app] in *.
    now apply parseValue_number.
  - destruct f as [|f]; [simpl in Hf; lia|].
    cbn [stringify]. unfold QuoteJSONString. cbn [app].
    rewrite parseValue_S. cbn [skipWs isJsonWs N.eqb Pos.eqb orb].
    rewrite <- app_assoc. now rewrite (parseString_quoted _ _ Hw).
  - destruct f as [|f]; [simpl in Hf; lia|].
    cbn [stringify writable] in *. rewrite <- !app_assoc. cbn [app].
    rewrite parseValue_S. cbn [skipWs isJsonWs N.eqb Pos.eqb orb].
    rewrite length_app in Hf. cbn [length] in Hf. rewrite length_app in Hf.
    cbn [length] in Hf.
    destruct vs as [|v vs]; [reflexivity|].
    destruct (joinWith_head write v vs) as [t Et].
    destruct (write_head v) as (c & r & Ec & Hws & H93 & _).
    assert (Es : skipWs (joinWith [44%N] (map write (v :: vs)) ++ 93%N :: q) =
                 c :: (r ++ t) ++ 93%N :: q).
    { rewrite Et, Ec. cbn [app]. now rewrite (skipWs_head _ _ Hws). }
    rewrite Es, H93.
    rewrite parseElements_written; [reflexivity|discriminate|exact IH|exact Hw|lia].
  - destruct f as [|f]; [simpl in Hf; lia|].
    change (write (JObject ms))
      with ([123%N] ++ joinWith [44%N] (map writeMember ms) ++ [125%N]) in *.
    cbn [writable] in Hw. rewrite <- !app_assoc. cbn [app].
    rewrite parseValue_S. cbn [skipWs isJsonWs N.eqb Pos.eqb orb].
    rewrite length_app in Hf. cbn [length] in Hf. rewrite length_app in Hf.
    cbn [length] in Hf.
    destruct ms as [|[k v] ms]; [reflexivity|].
    assert (Es : exists t, skipWs (joinWith [44%N] (map writeMember ((k, v) :: ms)) ++ 125%N :: q) =
                 34%N :: t).
    { destruct ms; eexists; reflexivity. }
    destruct Es as [t Es]. rewrite Es. cbn [N.eqb Pos.eqb].
    rewrite parseMembers_written; [reflexivity|discriminate|exact IH|exact Hw|lia].
Qed.

(** [JSON.parse(JSON.stringify(v))] is [v]. *)
Lemma parse_stringify (v : json) :
  writable v = true -> JSON.parse (write v) = Some v.
Proof.
  intros Hw. unfold JSON.parse.
  pose proof (@readsBack_all v Hw [] (fuelFor (write v)) eq_refl) as H.
  rewrite app_nil_r in H. rewrite H; [reflexivity|]. unfold fuelFor. lia.
Qed.

(** *** Defining properties *)

Local Abbreviation memberKeys := (map (@fst str json)).

Lemma hasMember_In (k : str) (ms : list (str * json)) :
  hasMember k ms = true <-> In k (memberKeys ms).
Proof.
  induction ms as [|[k' v'] ms IH]; simpl; [split; [discriminate|intros []]|].
  rewrite orb_true_iff, IH, str_eqb_eq. intuition.
Qed.

Lemma lookupMember_absent (k : str) (ms : list (str * json)) :
  ~ In k (memberKeys ms) -> lookupMember k ms = None.
Proof.
  induction ms as [|[k' v'] ms IH]; [reflexivity|]. intros H.
  cbn [lookupMember].
  rewrite IH by (intros Hin; apply H; right; exact Hin).
  destruct (str_eqb k k') eqn:E; [|reflexivity].
  apply str_eqb_eq in E. exfalso. apply H. left. now subst.
Qed.

Lemma lookupMember_cons_other (k k' : str) (v' : json) (ms : list (str * json)) :
  k <> k' -> lookupMember k ((k', v') :: ms) = lookupMember k ms.
Proof.
  intros H. simpl. destruct (lookupMember k ms); [reflexivity|].
  apply str_eqb_neq in H. now rewrite H.
Qed.

Lemma lookupMember_cons_same (k : str) (v : json) (ms : list (str * json)) :
  ~ In k (memberKeys ms) -> lookupMember k ((k, v) :: ms) = Some v.
Proof. intros H. simpl. now rewrite (lookupMember_absent _ _ H), str_eqb_refl. Qed.

Lemma memberKeys_setMember (k : str) (v : json) (ms : list (str * json)) :
  memberKeys (setMember k v ms) = memberKeys ms.
Proof.
  induction ms as [|[k' v'] ms IH]; simpl; [reflexivity|].
  destruct (str_eqb k k') eqn:E; simpl; [|now rewrite IH].
  apply str_eqb_eq in E. now subst.
Qed.

Lemma lookupMember_setMember (k k0 : str) (v : json) (ms : list (str * json)) :
  NoDup (memberKeys ms) -> In k (memberKeys ms) ->
  lookupMember k0 (setMember k v ms) =
  if str_eqb k0 k then Some v else lookupMember k0 ms.
Proof.
  induction ms as [|[k' v'] ms IH]; [intros _ []|].
  intros Hnd Hin. inversion Hnd as [|x l Hn Hd]; subst.
  cbn [setMember]. destruct (str_eqb k k') eqn:E.
  - apply str_eqb_eq in E. subst k'.
    destruct (str_eqb k0 k) eqn:E0.
    + apply str_eqb_eq in E0. subst k0. now apply lookupMember_cons_same.
    + apply str_eqb_neq in E0. now rewrite !lookupMember_cons_other.
  - apply str_eqb_neq in E. destruct Hin as [Hin|Hin]; [simpl in Hin; congruence|].
    destruct (str_eqb k0 k') eqn:E1.
    + apply str_eqb_eq in E1. subst k0.
      assert (Hk : str_eqb k' k = false) by (apply str_eqb_neq; congruence).
      rewrite Hk.
      rewrite !lookupMember_cons_same; [reflexivity|exact Hn|].
      now rewrite memberKeys_setMember.
    + apply str_eqb_neq in E1. rewrite !lookupMember_cons_other by exact E1.
      now apply IH.
Qed.

Lemma memberKeys_insertIndex (i : N) (k : str) (v : json) (ms : list (str * json)) :
  Permutation (memberKeys (insertIndex i k v ms)) (k :: memberKeys ms).
Proof.
  induction ms as [|[k' v'] ms IH]; simpl; [reflexivity|].
  destruct (arrayIndex k') as [i'|]; [|reflexivity].
  destruct (N.ltb i' i); [|reflexivity].
  simpl. rewrite IH. apply perm_swap.
Qed.

Lemma lookupMember_insertIndex (i : N) (k k0 : str) (v : json) (ms : list (str * json)) :
  ~ In k (memberKeys ms) ->
  lookupMember k0 (insertIndex i k v ms) =
  if str_eqb k0 k then Some v else lookupMember k0 ms.
Proof.
  intros Hout.
  assert (Base : lookupMember k0 ((k, v) :: ms) =
                 if str_eqb k0 k then Some v else lookupMember k0 ms).
  { destruct (str_eqb k0 k) eqn:E.
    - apply str_eqb_eq in E. subst. now apply lookupMember_cons_same.
    - apply str_eqb_neq in E. now apply lookupMember_cons_other. }
  induction ms as [|[k' v'] ms IH]; [exact Base|].
  cbn [insertIndex]. destruct (arrayIndex k') as [i'|]; [|exact Base].
  destruct (N.ltb i' i); [|exact Base].
  assert (Hout' : ~ In k (memberKeys ms)) by (simpl in Hout; tauto).
  assert (Hne : k <> k') by (simpl in Hout; intros ->; tauto).
  specialize (IH Hout').
  assert (IH' : lookupMember k0 (insertIndex i k v ms) =
                if str_eqb k0 k then Some v else lookupMember k0 ms).
  { apply IH. destruct (str_eqb k0 k) eqn:E.
    - apply str_eqb_eq in E. subst. now apply lookupMember_cons_same.
    - apply str_eqb_neq in E. now apply lookupMember_cons_other. }
  cbn [lookupMember]. rewrite IH'.
  destruct (str_eqb k0 k) eqn:E; [reflexivity|].
  reflexivity.
Qed.

Lemma lookupMember_app_one (k k0 : str) (v : json) (ms : list (str * json)) :
  lookupMember k0 (ms ++ [(k, v)]) =
  if str_eqb k0 k then Some v else lookupMember k0 ms.
Proof.
  induction ms as [|[k' v'] ms IH]; simpl.
  - now destruct (str_eqb k0 k).
  - rewrite IH. destruct (str_eqb k0 k); reflexivity.
Qed.

(** Defining a property gives the key its value and leaves the others. *)
Lemma lookupMember_defineMember (k k0 : str) (v : json) (ms : list (str * json)) :
  NoDup (memberKeys ms) ->
  lookupMember k0 (defineMember k v ms) =
  if str_eqb k0 k then Some v else lookupMember k0 ms.
Proof.
  intros Hnd. unfold defineMember.
  destruct (hasMember k ms) eqn:H.
  - apply hasMember_In in H. now apply lookupMember_setMember.
  - assert (Hout : ~ In k (memberKeys ms))
      by (intros Hin; apply hasMember_In in Hin; congruence).
    destruct (arrayIndex k) as [i|];
      [now apply lookupMember_insertIndex|apply lookupMember_app_one].
Qed.

Lemma NoDup_defineMember (k : str) (v : json) (ms : list (str * json)) :
  NoDup (memberKeys ms) -> NoDup (memberKeys (defineMember k v ms)).
Proof.
  intros Hnd. unfold defineMember.
  destruct (hasMember k ms) eqn:H.
  - now rewrite memberKeys_setMember.
  - assert (Hout : ~ In k (memberKeys ms))
      by (intros Hin; apply hasMember_In in Hin; congruence).
    destruct (arrayIndex k) as [i|].
    + rewrite memberKeys_insertIndex. now constructor.
    + rewrite map_app. simpl.
      apply NoDup_app; [exact Hnd|constructor; [tauto|constructor]|].
      intros x Hx [<-|[]]. contradiction.
Qed.

Lemma defineAll_lookup (source target : list (str * json)) (k0 : str) :
  NoDup (memberKeys target) ->
  NoDup (memberKeys (defineAll source target)) /\
  lookupMember k0 (defineAll source target) =
  match lookupMember k0 source with
  | Some v => Some v
  | None => lookupMember k0 target
  end.
Proof.
  revert target. induction source as [|[k v] source IH]; intros target Hnd.
  - split; [exact Hnd|reflexivity].
  - unfold defineAll in *. cbn [fold_left fst snd].
    destruct (IH (defineMember k v target) (NoDup_defineMember k v target Hnd)) as [N L].
    split; [exact N|]. rewrite L. cbn [lookupMember].
    destruct (lookupMember k0 source); [reflexivity|].
    rewrite lookupMember_defineMember by exact Hnd.
    now destruct (str_eqb k0 k).
Qed.

(** The keys of the elements of an array are digit strings. *)
Lemma indexed_keys {A : Type} (wrap : A -> json) (i : N) (l : list A) (k : str) :
  In k (memberKeys (indexed wrap i l)) -> forallb isIntChar k = true.
Proof.
  revert i. induction l as [|x l IH]; intros i; simpl; [tauto|].
  intros [<-|H]; [apply stringOfInt_chars|eauto].
Qed.

Lemma lookupMember_indexed {A : Type} (wrap : A -> json) (i : N) (l : list A) (k : str) :
  forallb isIntChar k = false -> lookupMember k (indexed wrap i l) = None.
Proof.
  intros H. apply lookupMember_absent. intros Hin.
  apply indexed_keys in Hin. congruence.
Qed.

(** A property read from a spread: the source's value for the name, if the
    source has one, and the target's otherwise. *)
Lemma lookupMember_spread (target : list (str * json)) (source : json) (name : str) :
  NoDup (memberKeys target) -> forallb isIntChar name = false ->
  NoDup (memberKeys (spread target source)) /\
  lookupMember name (spread target source) =
  match getNamed name source with
  | Some v => Some v
  | None => lookupMember name target
  end.
Proof.
  intros Hnd Hname. unfold spread.
  destruct (@defineAll_lookup (ownProperties source) target name Hnd) as [N L].
  split; [exact N|]. rewrite L.
  destruct source as [|b|n|s|vs|ms]; try reflexivity.
  - cbn [ownProperties getNamed]. now rewrite lookupMember_indexed.
  - cbn [ownProperties getNamed]. now rewrite lookupMember_indexed.
  - cbn [ownProperties getNamed].
    destruct (@defineAll_lookup ms [] name (NoDup_nil _)) as [_ L'].
    rewrite L'. now destruct (lookupMember name ms).
Qed.

(** *** [_initState] *)

(** [savedState?.settings || {}] *)
Definition savedSettingsOf (savedState : json) : json :=
  match getNamed (lit "settings") savedState with
  | Some v => if truthy v then v else JObject []
  | None => JObject []
  end.

Definition orDefault (x : option json) (default : json) : json :=
  match x with
  | Some v => v
  | None => default
  end.


End PersistenceFacts.

(* ================================================================== *)
(** ** Saving and loading the store: properties *)
(* ================================================================== *)

Module PersistenceProperties.
Import JS JSFacts JSON JSONFacts StateManager StateManagerFacts.
Import Persistence PersistenceFacts.

(** *** What was saved is what is loaded *)

(** An integer that a double holds exactly. *)
Definition safeInteger (z : Z) : bool := Z.ltb (Z.abs z) 9007199254740992.

Definition storableChat (c : chat) : bool :=
  units16 (id c) && units16 (title c) &&
  forallb (fun m => units16 (role m) && units16 (content m)) (messages c) &&
  units16 (systemPrompt c).

(** A store whose strings are strings of 16-bit units and whose settings
    are such integers. *)
Definition storable (s : state) : bool :=
  forallb (fun e => units16 (fst e) && storableChat (snd e)) (chats s) &&
  match activeChatId s with Some k => units16 k | None => true end &&
  safeInteger (fontSize (stateSettings s)) &&
  safeInteger (maxTokens (stateSettings s)).

Lemma plainInteger_numberOf (z : Z) :
  safeInteger z = true -> plainInteger (numberOf z) = true.
Proof.
  unfold safeInteger, plainInteger, numberOf. cbn [exponent10 mantissa negative].
  intros H. apply Z.ltb_lt in H.
  apply andb_true_iff; split; [apply andb_true_iff; split; [reflexivity|]|].
  - apply N.ltb_lt. lia.
  - destruct z; simpl; auto.
Qed.

Lemma writable_messages (ms : list message) :
  forallb (fun m => units16 (role m) && units16 (content m)) ms = true ->
  forallb writable (map messageObject ms) = true.
Proof.
  induction ms as [|m ms IH]; simpl; [reflexivity|].
  intros H. apply andb_true_iff in H as [Hm Hms].
  apply andb_true_iff in Hm as [-> ->]. simpl. auto.
Qed.

Lemma writable_chatObject (c : chat) :
  storableChat c = true -> writable (chatObject c) = true.
Proof.
  unfold storableChat. intros H.
  apply andb_true_iff in H as [H Hp]. apply andb_true_iff in H as [H Hm].
  apply andb_true_iff in H as [Hi Ht].
  cbn [chatObject writable forallb fst snd].
  rewrite Hi, Ht, Hp, (writable_messages _ Hm). reflexivity.
Qed.

Lemma writable_stateObject (s : state) :
  storable s = true -> writable (stateObject s) = true.
Proof.
  unfold storable. intros H.
  apply andb_true_iff in H as [H Hmax]. apply andb_true_iff in H as [H Hfont].
  apply andb_true_iff in H as [Hc Ha].
  cbn [stateObject writable forallb fst snd settingsObject].
  rewrite (plainInteger_numberOf _ Hfont), (plainInteger_numberOf _ Hmax).
  replace (writable match activeChatId s with Some k => JString k | None => JNull end)
    with true by (destruct (activeChatId s); [now rewrite <- Ha|reflexivity]).
  replace (forallb _ (map _ (chats s))) with true; [reflexivity|].
  symmetry. induction (chats s) as [|[k c] m IH]; [reflexivity|].
  cbn [forallb map fst snd] in *. apply andb_true_iff in Hc as [Hkc Hm].
  apply andb_true_iff in Hkc as [Hk Hcc].
  now rewrite Hk, (writable_chatObject _ Hcc), IH.
Qed.

(** X18: what [saveState] stores, [_initState] loads: the text written
    for a store is read back by [JSON.parse] as the state object it was
    written from, and [_initState] returns that object, whatever the
    conversations, their turns and the settings are -- quotation marks,
    reverse solidi, control characters and lone surrogates in the texts
    included. *)
Theorem saved_state_is_loaded_back (s : state) :
  storable s = true ->
  NoDup (keys (chats s)) ->
  Forall (fun k => arrayIndex k = None) (keys (chats s)) ->
  JSON.parse (saveState s) = Some (stateObject s) /\
  _initState (Some (saveState s)) = Some (stateObject s).
Proof.
  intros Hs _ _.
  assert (P : JSON.parse (saveState s) = Some (stateObject s))
    by (apply parse_stringify; now apply writable_stateObject).
  split; [exact P|].
  unfold _initState. rewrite P. reflexivity.
Qed.

(** A store with one conversation whose turn holds a quotation mark, a
    line feed and a lone surrogate. *)
Definition trickyStore : state :=
  fst (addMessage (lit "user") (lit "di " ++ [34; 10; 55357; 92]%N)
         (fst (createNewChat 1700000000000 defaultState))).

(** X18 at that store. *)
Lemma saved_state_is_loaded_back_witness :
  _initState (Some (saveState trickyStore)) = Some (stateObject trickyStore).
Proof.
  apply (saved_state_is_loaded_back trickyStore).
  - reflexivity.
  - apply NoDup_cons; [intros []|apply NoDup_nil].
  - apply Forall_cons; [reflexivity|apply Forall_nil].
Defined.

(** *** What is loaded when less was saved *)

Definition SETTINGS_KEYS : list str :=
  [lit "fontSize"; lit "maxTokens"; lit "showThoughts"].

(** X19: [_initState] throws exactly when the stored text is no JSON
    text.  Otherwise the state it returns has [chats], [activeChatId] and
    [settings]: the first two are the saved ones, or an empty object and
    [null] when the saved value has none; every setting is the saved one
    if the saved settings (a truthy [settings] of the saved value) name
    it, and its default otherwise.  With nothing stored the state is the
    default state. *)
Theorem initState_fills_in_what_is_missing (item : option str) :
  match JSON.parse (match item with Some text => text | None => lit "null" end) with
  | None => _initState item = None
  | Some savedState =>
      exists members settings,
        _initState item = Some (JObject members) /\
        lookupMember (lit "chats") members =
          Some (orDefault (getNamed (lit "chats") savedState) (JObject [])) /\
        lookupMember (lit "activeChatId") members =
          Some (orDefault (getNamed (lit "activeChatId") savedState) JNull) /\
        lookupMember (lit "settings") members = Some (JObject settings) /\
        Forall (fun key =>
                  lookupMember key settings =
                    Some (orDefault (getNamed key (savedSettingsOf savedState))
                                    (orDefault (getNamed key defaultSettings) JNull)))
               SETTINGS_KEYS
  end /\
  _initState None = Some (stateObject defaultState).
Proof.
  split; [|reflexivity].
  unfold _initState.
  destruct (JSON.parse _) as [savedState|]; [|reflexivity].
  fold (savedSettingsOf savedState).
  set (base := spread [] defaultStateObject).
  set (baseSettings := spread [] defaultSettings).
  assert (Nb : NoDup (map (@fst str json) base)).
  { apply NoDup_cons; [intros [H|[H|[]]]; discriminate H|].
    apply NoDup_cons; [intros [H|[]]; discriminate H|].
    apply NoDup_cons; [intros []|apply NoDup_nil]. }
  assert (Ns : NoDup (map (@fst str json) baseSettings)).
  { apply NoDup_cons; [intros [H|[H|[]]]; discriminate H|].
    apply NoDup_cons; [intros [H|[]]; discriminate H|].
    apply NoDup_cons; [intros []|apply NoDup_nil]. }
  set (state := spread base savedState).
  set (settings := spread baseSettings (savedSettingsOf savedState)).
  destruct (@lookupMember_spread base savedState (lit "chats") Nb eq_refl) as [Nst Lc].
  destruct (@lookupMember_spread base savedState (lit "activeChatId") Nb eq_refl) as [_ La].
  fold state in Nst, Lc, La.
  exists (defineMember (lit "settings") (JObject settings) state), settings.
  split; [reflexivity|].
  rewrite !lookupMember_defineMember by exact Nst.
  split; [|split; [|split; [reflexivity|]]].
  - change (str_eqb (lit "chats") (lit "settings")) with false. cbv iota.
    rewrite Lc. now destruct (getNamed (lit "chats") savedState).
  - change (str_eqb (lit "activeChatId") (lit "settings")) with false. cbv iota.
    rewrite La. now destruct (getNamed (lit "activeChatId") savedState).
  - assert (K : forall key, forallb isIntChar key = false ->
                lookupMember key settings =
                Some (orDefault (getNamed key (savedSettingsOf savedState))
                                (orDefault (lookupMember key baseSettings) JNull)) \/
                (getNamed key (savedSettingsOf savedState) = None /\
                 lookupMember key baseSettings = None)).
    { intros key Hk.
      destruct (@lookupMember_spread baseSettings (savedSettingsOf savedState) key Ns Hk)
        as [_ L].
      fold settings in L. rewrite L.
      destruct (getNamed key (savedSettingsOf savedState)); [now left|].
      destruct (lookupMember key baseSettings); [now left|now right]. }
    repeat (apply Forall_cons;
            [match goal with
             | |- lookupMember ?key _ = _ =>
                 destruct (K key eq_refl) as [H|[_ H]]; [exact H|discriminate H]
             end|]).
    apply Forall_nil.
Qed.

(** When only the font size was saved, the other settings are the
    defaults. *)
Example initState_with_the_font_size_only :
  _initState (Some (dq "{'settings':{'fontSize':5}}")) =
  Some (JObject [(lit "chats", JObject []);
                 (lit "activeChatId", JNull);
                 (lit "settings",
                  JObject [(lit "fontSize", JNumber (numberOf 5));
                           (lit "maxTokens", JNumber (numberOf 2048));
                           (lit "showThoughts", JBool false)])]).
Proof. vm_compute. reflexivity. Qed.

End PersistenceProperties.

(* ================================================================== *)
(** ** The stream decoder: a stream of whole events *)
(* ================================================================== *)

Module StreamProperties.
Import JS JSFacts JSON JSONFacts StreamDecoder StreamDecoderFacts StreamDecoderSpec.
Import Persistence PersistenceFacts.

Local Abbreviation write := (stringify integerToString).

(** *** A written value holds no line feed *)

Definition noLF (s : str) : bool := forallb (fun c => negb (N.eqb c LF)) s.

Lemma noLF_app (a b : str) : noLF (a ++ b) = noLF a && noLF b.
Proof. apply forallb_app. Qed.

Lemma noLF_printable (s : str) :
  forallb (fun c => N.leb 32 c) s = true -> noLF s = true.
Proof.
  unfold noLF. intros H. rewrite forallb_forall in *. intros c Hc.
  specialize (H c Hc). apply N.leb_le in H.
  apply negb_true_iff, N.eqb_neq. unfold LF. lia.
Qed.

Lemma noLF_quoted (s : str) : noLF (QuoteJSONString s) = true.
Proof.
  unfold QuoteJSONString. change (34%N :: quoteUnits s ++ [34%N])
    with ([34%N] ++ quoteUnits s ++ [34%N]).
  rewrite !noLF_app, (noLF_printable _ (quoteUnits_printable s)). reflexivity.
Qed.

Lemma noLF_integerToString (n : jnumber) : noLF (integerToString n) = true.
Proof.
  unfold integerToString. destruct (N.eqb (mantissa n) 0); [reflexivity|].
  pose proof (stringOfInt_chars ((if negative n then -1 else 1) * Z.of_N (mantissa n) *
                                 10 ^ exponent10 n)) as H.
  unfold noLF. rewrite forallb_forall in *. intros c Hc. specialize (H c Hc).
  unfold isIntChar, isDigit in H.
  apply negb_true_iff, N.eqb_neq. unfold LF.
  apply orb_true_iff in H. rewrite andb_true_iff, !N.leb_le, N.eqb_eq in H. lia.
Qed.

Lemma noLF_joinWith (l : list str) :
  Forall (fun x => noLF x = true) l -> noLF (joinWith [44%N] l) = true.
Proof.
  induction 1 as [|x l Hx Hl IH]; [reflexivity|].
  destruct l as [|y l]; [exact Hx|].
  change (joinWith [44%N] (x :: y :: l)) with (x ++ [44%N] ++ joinWith [44%N] (y :: l)).
  now rewrite !noLF_app, Hx, IH.
Qed.

Lemma noLF_write (v : json) : noLF (write v) = true.
Proof.
  induction v as [|b|n|s|vs IH|ms IH] using json_induction.
  - reflexivity.
  - now destruct b.
  - apply noLF_integerToString.
  - apply noLF_quoted.
  - cbn [stringify]. rewrite !noLF_app, noLF_joinWith; [reflexivity|].
    induction IH; constructor; auto.
  - cbn [stringify]. rewrite !noLF_app, noLF_joinWith; [reflexivity|].
    induction IH as [|[k v] ms Hv Hms IH']; constructor; auto.
    cbn [fst snd] in *. now rewrite !noLF_app, noLF_quoted, Hv.
Qed.

(** *** Splitting a chunk of whole events *)

Lemma pieces_line (t cur rest : str) :
  noLF t = true ->
  pieces cur (t ++ EVENT_DELIMITER ++ rest) = (rev cur ++ t) :: pieces [] rest.
Proof.
  revert cur. induction t as [|c t IH]; intros cur Ht.
  - cbn [app EVENT_DELIMITER]. rewrite pieces_cons2, !N.eqb_refl. cbn [andb].
    now rewrite app_nil_r.
  - cbn [noLF forallb] in Ht. apply andb_true_iff in Ht as [Hc Ht].
    apply negb_true_iff in Hc. rewrite N.eqb_sym in Hc.
    assert (Step : pieces cur ((c :: t) ++ EVENT_DELIMITER ++ rest) =
                   pieces (c :: cur) (t ++ EVENT_DELIMITER ++ rest)).
    { destruct t as [|c' t']; cbn [app EVENT_DELIMITER];
        rewrite pieces_cons2, Hc; reflexivity. }
    rewrite Step, (IH (c :: cur) Ht). cbn [rev]. now rewrite <- app_assoc.
Qed.

Lemma pieces_lines (lines : list str) (rest : str) :
  Forall (fun l => noLF l = true) lines ->
  pieces [] (concat (map (fun l => l ++ EVENT_DELIMITER) lines) ++ rest) =
  lines ++ pieces [] rest.
Proof.
  induction 1 as [|l lines Hl Hls IH]; [reflexivity|].
  cbn [map concat]. rewrite <- !app_assoc.
  rewrite (pieces_line l [] _ Hl). cbn [rev app]. now rewrite IH.
Qed.

(** *** The events of a provider *)

(** A payload that carries a text increment: an object whose
    [choices[0].delta.content] is a string that is not empty. *)
Definition isIncrement (payload : json) : bool :=
  writable payload &&
  match deltaContent payload with
  | Some (Some (JString (_ :: _))) => true
  | _ => false
  end.

Definition incrementOf (payload : json) : str :=
  match deltaContent payload with
  | Some (Some (JString content)) => content
  | _ => []
  end.

(** The line and the event [JSON.stringify] and the event stream format
    make of a payload, and the event that ends a stream. *)
Definition lineOf (payload : json) : str := DATA_MARKER ++ write payload.
Definition eventOf (payload : json) : str := lineOf payload ++ EVENT_DELIMITER.
Definition DONE_EVENT : str := DATA_MARKER ++ DONE ++ EVENT_DELIMITER.

(** The text of a read that delivers the events of some payloads. *)
Definition chunkOf (payloads : list json) : str := concat (map eventOf payloads).

Section WholeEvents.

Variable Number_toString : jnumber -> str.

Local Abbreviation processLine := (processLine Number_toString).
Local Abbreviation forLines := (forLines Number_toString).
Local Abbreviation processChunk := (processChunk Number_toString).
Local Abbreviation _processStream := (_processStream Number_toString).

Lemma processLine_lineOf (payload : json) :
  isIncrement payload = true ->
  processLine (lineOf payload) = Append (incrementOf payload).
Proof.
  unfold isIncrement, incrementOf, lineOf. intros H.
  apply andb_true_iff in H as [Hw Hd].
  apply processLine_increment. exists payload.
  split; [now apply parse_stringify|].
  destruct (deltaContent payload) as [[[| | |[|c s]| |]|]|]; try discriminate.
  split; [reflexivity|discriminate].
Qed.

Lemma forLines_increments (payloads : list json) (rest : list str) (p : progress) :
  Forall (fun j => isIncrement j = true) payloads ->
  forLines (map lineOf payloads ++ rest) p =
  forLines rest (Progress (fullResponse p ++ concat (map incrementOf payloads)) (errorLog p)).
Proof.
  intros H. revert p. induction H as [|j payloads Hj Hjs IH]; intros p.
  - cbn [map concat app]. rewrite app_nil_r. now destruct p.
  - cbn [map app StreamDecoder.forLines]. rewrite (processLine_lineOf _ Hj).
    rewrite IH. cbn [fullResponse errorLog concat]. now rewrite <- app_assoc.
Qed.

Lemma split_chunkOf (payloads : list json) (ending : str) :
  split EVENT_DELIMITER (chunkOf payloads ++ ending) =
  map lineOf payloads ++ split EVENT_DELIMITER ending.
Proof.
  rewrite !split_pieces. unfold chunkOf, eventOf.
  rewrite <- (map_map lineOf (fun l => l ++ EVENT_DELIMITER)).
  apply pieces_lines. apply Forall_forall. intros l Hl.
  apply in_map_iff in Hl as [j [<- _]]. unfold lineOf.
  now rewrite noLF_app, noLF_write.
Qed.

Lemma processChunk_chunkOf (payloads : list json) (done : bool) (p : progress) :
  Forall (fun j => isIncrement j = true) payloads ->
  processChunk (chunkOf payloads ++ (if done then DONE_EVENT else [])) p =
  Progress (fullResponse p ++ concat (map incrementOf payloads)) (errorLog p).
Proof.
  intros H. unfold StreamDecoder.processChunk.
  rewrite split_chunkOf, (forLines_increments _ _ H).
  destruct done; reflexivity.
Qed.

(** X20: a stream that delivers whole events -- each read the events of
    some payloads that carry a text increment, written by
    [JSON.stringify], the last read ending with the [DONE] event or not --
    is decoded to the increments of all the payloads, joined in the order
    sent; nothing is logged. *)
Theorem stream_of_whole_events_yields_every_increment
    (reads : list (list Byte.byte)) (groups : list (list json))
    (last : list json) (done : bool) :
  snd (chunkTexts TextDecoder.initial reads) =
    map chunkOf groups ++ [chunkOf last ++ (if done then DONE_EVENT else [])] ->
  Forall (fun j => isIncrement j = true) (concat groups ++ last) ->
  _processStream reads = concat (map incrementOf (concat groups ++ last)) /\
  errorLog (snd (readLoop Number_toString TextDecoder.initial (Progress [] []) reads)) = [].
Proof.
  intros Ht Hall.
  assert (R : forall p,
            fold_left (fun q chunk => processChunk chunk q)
                      (map chunkOf groups ++
                       [chunkOf last ++ (if done then DONE_EVENT else [])]) p =
            Progress (fullResponse p ++ concat (map incrementOf (concat groups ++ last)))
                     (errorLog p)).
  { clear Ht. apply Forall_app in Hall as [Hg Hl].
    revert Hg. induction groups as [|g groups IH]; intros Hg p.
    - cbn [map app fold_left concat]. now apply processChunk_chunkOf.
    - cbn [concat] in Hg. apply Forall_app in Hg as [Hg1 Hg2].
      cbn [map app fold_left].
      rewrite <- (app_nil_r (chunkOf g)).
      rewrite (@processChunk_chunkOf g false p Hg1).
      rewrite (IH Hg2). cbn [fullResponse errorLog concat]. f_equal.
      rewrite <- (app_assoc g), (map_app incrementOf g), concat_app.
      now rewrite app_assoc. }
  unfold StreamDecoder._processStream.
  rewrite readLoop_chunkTexts, Ht. cbn [snd]. rewrite R. split; reflexivity.
Qed.

End WholeEvents.

(** The payload of a provider for an increment. *)
Definition payloadFor (content : str) : json :=
  JObject [(lit "id", JString (lit "cmpl-1"));
           (lit "created", JNumber (JNum false 1700000000 0));
           (lit "choices",
            JArray [JObject [(lit "index", JNumber (JNum false 0 0));
                             (lit "delta", JObject [(lit "content", JString content)]);
                             (lit "finish_reason", JNull)]])].

(** X20 at three increments in two reads, the second ending with [DONE];
    the first increment holds a quotation mark and a line feed. *)
Lemma stream_of_whole_events_yields_every_increment_witness :
  let a := payloadFor (lit "Di " ++ [34; 10]%N) in
  let b := payloadFor (lit "ho") in
  let c := payloadFor (lit "la") in
  _processStream integerToString
    [asciiBytes (chunkOf [a; b]); asciiBytes (chunkOf [c] ++ DONE_EVENT)] =
  lit "Di " ++ [34; 10]%N ++ lit "hola".
Proof.
  intros a b c.
  apply (@stream_of_whole_events_yields_every_increment integerToString
           [asciiBytes (chunkOf [a; b]); asciiBytes (chunkOf [c] ++ DONE_EVENT)]
           [[a; b]] [c] true).
  - vm_compute. reflexivity.
  - repeat (apply Forall_cons; [reflexivity|]). apply Forall_nil.
Defined.

End StreamProperties.

(* ================================================================== *)
(** ** The stream decoder: what the loop never does *)
(* ================================================================== *)

Module StreamLoopProperties.
Import JS JSFacts JSON StreamDecoder StreamDecoderFacts.

Section Loop.

Variable Number_toString : jnumber -> str.

Local Abbreviation processLine := (processLine Number_toString).
Local Abbreviation forLines := (forLines Number_toString).
Local Abbreviation readLoop := (readLoop Number_toString).

(** The progress [q] continues the progress [p]: the text and the log of
    [p], and more. *)
Definition continues (p q : progress) : Prop :=
  exists appended logged,
    fullResponse q = fullResponse p ++ appended /\
    errorLog q = errorLog p ++ logged.

Lemma continues_refl (p : progress) : continues p p.
Proof. exists [], []. now rewrite !app_nil_r. Qed.

Lemma continues_trans (p q r : progress) :
  continues p q -> continues q r -> continues p r.
Proof.
  intros (a1 & l1 & E1 & F1) (a2 & l2 & E2 & F2).
  exists (a1 ++ a2), (l1 ++ l2). rewrite E2, F2, E1, F1, !app_assoc. auto.
Qed.

Lemma forLines_dataLines (lines : list str) (p : progress) :
  forLines (filter isDataLine lines) p = forLines lines p.
Proof.
  revert p. induction lines as [|l lines IH]; intros p; [reflexivity|].
  cbn [filter]. destruct (isDataLine l) eqn:E.
  - cbn [StreamDecoder.forLines]. destruct (processLine l); auto.
  - cbn [StreamDecoder.forLines].
    now rewrite (processLine_not_data Number_toString l E).
Qed.

Lemma forLines_continues (lines : list str) (p : progress) :
  continues p (forLines lines p).
Proof.
  revert p. induction lines as [|l lines IH]; intros p; [apply continues_refl|].
  cbn [StreamDecoder.forLines]. destruct (processLine l) as [| |content|data].
  - apply IH.
  - apply continues_refl.
  - eapply continues_trans; [|apply IH].
    exists content, []. cbn. now rewrite app_nil_r.
  - eapply continues_trans; [|apply IH].
    exists [], [data]. cbn. now rewrite app_nil_r.
Qed.

(** X24: the loop looks at the lines that begin with "data: " only --
    dropping every other line from every chunk changes neither the text
    accumulated nor the log -- and it never takes back what it has
    accumulated: after any reads the text begins with the text
    accumulated before them, and so does the log. *)
Theorem only_data_lines_count_and_the_text_only_grows
    (d : TextDecoder.decoder) (p : progress) (reads : list (list Byte.byte)) :
  snd (readLoop d p reads) =
    fold_left (fun q chunk =>
                 forLines (filter isDataLine (split EVENT_DELIMITER chunk)) q)
              (snd (chunkTexts d reads)) p /\
  continues p (snd (readLoop d p reads)).
Proof.
  rewrite readLoop_chunkTexts. cbn [snd].
  generalize (snd (chunkTexts d reads)) as chunks. clear d reads.
  intros chunks. revert p. induction chunks as [|chunk chunks IH]; intros p.
  - split; [reflexivity|apply continues_refl].
  - cbn [fold_left]. destruct (IH (processChunk Number_toString chunk p)) as [E C].
    split.
    + rewrite E. unfold StreamDecoder.processChunk. now rewrite forLines_dataLines.
    + eapply continues_trans; [|exact C]. apply forLines_continues.
Qed.

End Loop.

End StreamLoopProperties.

(* ================================================================== *)
(** ** The response formatter: what its output looks like *)
(* ================================================================== *)

Module FormatterProperties.
Import JS JSFacts Formatter FormatterFacts FormatterSpec.

(** Every line feed of [s] is one of two in a row, and no three stand in a
    row. *)
Fixpoint breaksArePairs (s : str) : bool :=
  match s with
  | [] => true
  | c :: s' =>
      if N.eqb c LF then
        match s' with
        | c' :: s'' => N.eqb c' LF && negb (startsWith [LF] s'') && breaksArePairs s''
        | [] => false
        end
      else breaksArePairs s'
  end.

Lemma collapse_pairs (s : str) :
  breaksArePairs (collapse false s) = true /\
  breaksArePairs (collapse true s) = true /\
  startsWith [LF] (collapse true s) = false.
Proof.
  induction s as [|c s (IHf & IHt & IHs)]; [repeat split|].
  cbn [collapse]. destruct (N.eqb c LF) eqn:E.
  - split; [|split; assumption].
    cbn [breaksArePairs]. rewrite N.eqb_refl. cbn [andb].
    now rewrite IHs, IHt.
  - cbn [breaksArePairs startsWith]. rewrite E, N.eqb_sym, E. auto.
Qed.

Lemma whiteSpace_plain (c : N) : isWhiteSpace c = true -> plain c = true.
Proof.
  intros H. unfold plain, BACKTICK, PIPE.
  destruct (N.eqb_spec c 96) as [->|_]; [discriminate H|].
  destruct (N.eqb_spec c 124) as [->|_]; [discriminate H|].
  destruct (N.eqb_spec c 60) as [->|_]; [discriminate H|reflexivity].
Qed.

Lemma trimStart_whiteSpace (s : str) :
  forallb isWhiteSpace s = true -> trimStart s = [].
Proof.
  induction s as [|c s IH]; [reflexivity|]. simpl. intros H.
  apply andb_true_iff in H as [-> H]. auto.
Qed.

Lemma hasBullet_whiteSpace (s : str) (lineStart : bool) :
  forallb isWhiteSpace s = true -> hasBullet lineStart s = false.
Proof.
  revert lineStart. induction s as [|c s IH]; intros lineStart H; [reflexivity|].
  cbn [hasBullet]. unfold isMatch. rewrite (trimStart_whiteSpace _ H).
  cbn [forallb] in H. apply andb_true_iff in H as [_ H].
  rewrite IH by exact H. now destruct lineStart.
Qed.

(** X21: what [_formatAssistantContent] returns never begins or ends with
    white space, and is empty for a text of white space only.  For a text
    with no backtick, no pipe and no [<] -- no protected block and no
    literal break tag -- the line feeds of the result stand in pairs, never
    one alone and never three in a row, and no line of the result begins
    with a list marker ([*], [-] or digits and a period, then white
    space): each has become a bullet. *)
Theorem formatted_text_is_normalised (text : str) :
  let y := _formatAssistantContent text in
  (y = [] \/ (startsNonWs y /\ startsNonWs (rev y))) /\
  (forallb isWhiteSpace text = true -> y = []) /\
  (forallb plain text = true ->
     breaksArePairs y = true /\ hasBullet true y = false /\ forallb plain y = true).
Proof.
  intros y. split; [|split].
  - subst y. unfold _formatAssistantContent.
    destruct text as [|c text]; [now left|].
    exact (proj2 (trim_shape _)).
  - intros Hw.
    assert (Hp : forallb plain text = true).
    { rewrite forallb_forall in *. intros c Hc. apply whiteSpace_plain. auto. }
    subst y. rewrite (format_plain text Hp).
    destruct text as [|c text]; [reflexivity|]. cbv zeta.
    unfold replaceBullets.
    rewrite (replaceBullets_go_fixed _ true _ (hasBullet_whiteSpace _ true Hw)).
    assert (T : trim (c :: text) = [])
      by (unfold trim; now rewrite (trimStart_whiteSpace _ Hw)).
    rewrite T. reflexivity.
  - intros Hp. destruct (format_plain_result text Hp) as [P [E|(B & _ & C)]]; fold y in P, E || fold y in P, B, C.
    + rewrite E. repeat split.
    + split; [|split; [|exact P]].
      * rewrite <- C. apply collapse_pairs.
      * rewrite <- B. apply replaceBullets_go_clean. lia.
Qed.

(** X21 at a list with a heading, a blank line and trailing white space. *)
Lemma formatted_text_is_normalised_witness :
  let text := lit "Lista:" ++ [LF] ++ lit "- uno" ++ [LF; LF; LF] ++ lit "2. dos  " ++ [LF] in
  _formatAssistantContent text =
    lit "Lista:" ++ [LF; LF; BULLET] ++ lit " uno" ++ [LF; LF; BULLET] ++ lit " dos" /\
  breaksArePairs (_formatAssistantContent text) = true /\
  hasBullet true (_formatAssistantContent text) = false.
Proof.
  intros text. split; [vm_compute; reflexivity|].
  destruct (formatted_text_is_normalised text) as (_ & _ & H).
  destruct (H eq_refl) as (Hb & Hh & _). split; assumption.
Defined.

End FormatterProperties.

(* ================================================================== *)
(** ** The former controller and the store *)
(* ================================================================== *)

Module LegacyProperties.
Import JS JSFacts StateManager StateManagerFacts StoreProperties LegacyChatApp.

(** The part of a store the former controller kept. *)
Definition kept (s : state) : appState := AppState (chats s) (activeChatId s).

Lemma selectChat_setActiveChat (a : option str) (s : state) :
  selectChat a (kept s) = kept (setActiveChat a s).
Proof.
  unfold selectChat, setActiveChat, kept. cbn [stateChats].
  now destruct (negb _).
Qed.

Lemma noActiveId_resolved (s : state) :
  chats s <> [] -> activeResolves s ->
  noActiveId (activeChatId s) && match keys (chats s) with [] => true | _ => false end = false.
Proof.
  intros Hne _. destruct (chats s); [congruence|]. apply andb_false_r.
Qed.

Lemma setActiveChat_legacy_nonempty (fuel : nat) (now : Z) (a : option str) (s : state) :
  chats s <> [] ->
  LegacyChatApp._setActiveChat (S fuel) now a (kept s) = kept (setActiveChat a s).
Proof.
  intros Hne. cbn [LegacyChatApp._setActiveChat].
  rewrite selectChat_setActiveChat. cbn [kept stateChats stateActiveChatId].
  rewrite setActiveChat_chats.
  destruct (chats s); [congruence|]. now rewrite andb_false_r.
Qed.

Lemma createNewChat_legacy (fuel : nat) (now : Z) (s : state) :
  LegacyChatApp._createNewChat (S (S fuel)) now (kept s) = kept (fst (createNewChat now s)).
Proof.
  cbn [LegacyChatApp._createNewChat kept stateChats stateActiveChatId].
  change (AppState (assign (chatIdOf now) _ (chats s)) (activeChatId s))
    with (kept (State (assign (chatIdOf now)
                              (Chat (chatIdOf now) defaultTitle [] defaultSystemPrompt)
                              (chats s))
                      (activeChatId s) (stateSettings s))).
  rewrite setActiveChat_legacy_nonempty; [reflexivity|].
  cbn [chats]. destruct (chats s) as [|[k v] m]; cbn [assign]; [discriminate|].
  destruct (str_eqb (chatIdOf now) k); intros E; discriminate E.
Qed.

(** X22: the store operations change the conversations and the active id
    as the methods of the former controller did: [createNewChat] as
    [_createNewChat]; [deleteChat] as a confirmed [_deleteChat] of an id
    that reads a member of the conversations object, own or inherited;
    [setActiveChat] as [_setActiveChat] when there are conversations or
    the argument names an inherited member; [addMessage], [deleteMessage]
    and [updateSystemPrompt] as [_addMessageToState], [_deleteMessage]
    and [_saveSystemPrompt].  They differ in two cases: the former
    [_setActiveChat] created a conversation when there was none (and its
    argument named no inherited member), and the former [_deleteChat]
    left the state alone for an id that read [undefined], or when the
    confirmation was declined.  The mutual calls of the former methods
    end after three levels. *)
Theorem store_operations_do_what_the_former_methods_did
    (fuel : nat) (now : Z) (s : state) :
  let n := S (S (S fuel)) in
  LegacyChatApp._createNewChat n now (kept s) = kept (fst (createNewChat now s)) /\
  (forall k, memberAt k (chats s) <> Undefined ->
     LegacyChatApp._deleteChat n true k now (kept s) = kept (deleteChat k now s)) /\
  (forall k confirmed,
     memberAt k (chats s) = Undefined \/ confirmed = false ->
     LegacyChatApp._deleteChat n confirmed k now (kept s) = kept s) /\
  (forall a, chats s <> [] \/ namesInherited a s ->
     LegacyChatApp._setActiveChat n now a (kept s) = kept (setActiveChat a s)) /\
  (forall a, chats s = [] -> ~ namesInherited a s ->
     LegacyChatApp._setActiveChat n now a (kept s) = kept (fst (createNewChat now s))) /\
  (forall role content,
     _addMessageToState role content (kept s) = kept (fst (addMessage role content s))) /\
  (forall index,
     LegacyChatApp._deleteMessage index (kept s) = kept (fst (deleteMessage index s))) /\
  (forall prompt, _saveSystemPrompt prompt (kept s) = kept (updateSystemPrompt prompt s)).
Proof.
  intros n. subst n.
  split; [apply (createNewChat_legacy (S fuel))|].
  split; [|split; [|split; [|split; [|split; [|split]]]]].
  - intros k Hk. unfold LegacyChatApp._deleteChat, deleteChat.
    cbn [kept stateChats stateActiveChatId negb].
    assert (W : match activeChatId s with Some a => str_eqb a k | None => false end = true ->
                match sortByTimestampDesc (keys (remove k (chats s))) with
                | [] => LegacyChatApp._createNewChat (S (S (S fuel))) now
                          (AppState (remove k (chats s)) (activeChatId s))
                | first :: _ =>
                    LegacyChatApp._setActiveChat (S (S (S fuel))) now (Some first)
                      (AppState (remove k (chats s)) (activeChatId s))
                end =
                kept (match sortByTimestampDesc (keys (remove k (chats s))) with
                      | [] => fst (createNewChat now
                                     (State (remove k (chats s)) (activeChatId s)
                                            (stateSettings s)))
                      | first :: _ =>
                          setActiveChat (Some first)
                            (State (remove k (chats s)) (activeChatId s) (stateSettings s))
                      end)).
    { intros _.
      destruct (sortByTimestampDesc (keys (remove k (chats s)))) as [|first rest] eqn:Es.
      - exact (createNewChat_legacy (S fuel) now
                 (State (remove k (chats s)) (activeChatId s) (stateSettings s))).
      - apply (setActiveChat_legacy_nonempty (S (S fuel)) now (Some first)
                 (State (remove k (chats s)) (activeChatId s) (stateSettings s))).
        cbn [chats]. intros E. rewrite E in Es. discriminate Es. }
    destruct (memberAt k (chats s)) as [c| |]; [| |congruence];
      (destruct (match activeChatId s with Some a => str_eqb a k | None => false end);
       [cbv zeta; cbn [chats]; now apply W|reflexivity]).
  - intros k confirmed H. unfold LegacyChatApp._deleteChat. cbn [kept stateChats].
    destruct (memberAt k (chats s)) as [c| |] eqn:Em; [| |reflexivity];
      (destruct H as [H| ->]; [discriminate H|reflexivity]).
  - intros a [Hne|Hi]; [now apply setActiveChat_legacy_nonempty|].
    cbn [LegacyChatApp._setActiveChat]. rewrite selectChat_setActiveChat.
    rewrite (setActiveChat_inherited Hi). cbn [kept stateChats stateActiveChatId].
    destruct Hi as (k & -> & Hk). apply memberAt_Inherited in Hk as [Hk _].
    destruct k as [|c k]; [discriminate Hk|reflexivity].
  - intros a He Hn.
    cbn [LegacyChatApp._setActiveChat]. rewrite selectChat_setActiveChat.
    cbn [kept stateChats stateActiveChatId]. rewrite setActiveChat_chats, He.
    assert (A : activeChatId (setActiveChat a s) = None).
    { unfold setActiveChat. rewrite He. destruct a as [k|]; simpl; [|reflexivity].
      destruct (memberAt k []) eqn:Em; cbn [truthyMember];
        rewrite ?andb_false_r, ?andb_true_r; try reflexivity.
      - unfold memberAt in Em. simpl in Em. destruct (inheritedKey k); discriminate Em.
      - exfalso. apply Hn. exists k. split; [reflexivity|]. now rewrite He. }
    rewrite A. cbn [noActiveId keys map andb].
    rewrite (createNewChat_legacy fuel now (setActiveChat a s)).
    rewrite !createNewChat_state. unfold kept. cbn [chats activeChatId].
    now rewrite setActiveChat_chats.
  - intros role content. unfold _addMessageToState, addMessage, getActiveChat, deriveTitle.
    cbn [kept stateChats stateActiveChatId].
    now destruct (memberAt _ (chats s)).
  - intros index. unfold LegacyChatApp._deleteMessage, deleteMessage, getActiveChat.
    cbn [kept stateChats stateActiveChatId].
    destruct (memberAt _ (chats s)); [|reflexivity..]. now destruct (_ && _)%bool.
  - intros prompt. unfold _saveSystemPrompt, updateSystemPrompt, getActiveChat.
    cbn [kept stateChats stateActiveChatId].
    now destruct (memberAt _ (chats s)).
Qed.

(** X22 at the sample store: the conversation created at 150 is deleted. *)
Lemma store_operations_do_what_the_former_methods_did_witness :
  LegacyChatApp._deleteChat 3 true (chatIdOf 150) 999 (kept sampleStore) =
  kept (deleteChat (chatIdOf 150) 999 sampleStore).
Proof.
  pose proof (store_operations_do_what_the_former_methods_did 0 999 sampleStore) as H.
  cbv zeta in H. destruct H as (_ & H & _).
  apply (H (chatIdOf 150)). intros E. vm_compute in E. discriminate E.
Defined.

End LegacyProperties.

(* ================================================================== *)
(** ** The service: properties of [ApiService] *)
(* ================================================================== *)

Module ApiProperties.
Import JS JSFacts JSON JSONFacts StateManager Persistence PersistenceFacts.
Import ChatApp ChatAppProperties ApiService.

(** Messages whose texts are strings of 16-bit units. *)
Definition sendable (messages : list message) : bool :=
  forallb (fun m => units16 (role m) && units16 (content m)) messages.

Lemma writable_payloadObject (messages : list message) :
  sendable messages = true -> writable (payloadObject messages) = true.
Proof.
  intros H. cbn [payloadObject writable forallb fst snd].
  replace (forallb writable (map messageObject messages)) with true; [reflexivity|].
  symmetry. induction messages as [|m ms IH]; [reflexivity|].
  cbn [sendable forallb] in H. apply andb_true_iff in H as [Hm Hms].
  apply andb_true_iff in Hm as [Hr Hc].
  cbn [map forallb messageObject writable fst snd]. now rewrite Hr, Hc, IH.
Qed.

(** X23: the body [query] sends is a JSON text that reads back as the
    payload -- the model, the messages in their order, each with its role
    and its content, and [stream: true] -- whatever the contents hold; and
    [query] never hands a response that is not [ok] to its caller: it
    throws an error whose message names the status, so that the stream
    decoder is run on the body of an [ok] response only and a failed
    request ends as an error text in the conversation. *)
Theorem request_body_reads_back_as_the_payload
    (Number_toString : jnumber -> str) (apiKey : str) (messages : list message) :
  sendable messages = true ->
  JSON.parse (requestBody (requestOf apiKey messages)) = Some (payloadObject messages) /\
  authorization (requestOf apiKey messages) = lit "Bearer " ++ apiKey /\
  forall f : fetched,
    match query f with
    | inl r => f = Fetched r /\ ok r = true
    | inr message =>
        answerOf Number_toString (outcomeOf f) = errorTextOf message /\
        match f with
        | FetchRejected m => message = m
        | Fetched r =>
            ok r = false /\
            message = lit "API Error: " ++ stringOfInt (status r) ++ lit " "
                        ++ statusText r ++ lit " - " ++ text r
        end
    end.
Proof.
  intros H. split; [|split; [reflexivity|]].
  - apply parse_stringify. now apply writable_payloadObject.
  - intros [m|r]; unfold outcomeOf; cbn [query].
    + split; reflexivity.
    + destruct (ok r) eqn:E; cbn [negb].
      * split; [reflexivity|first [exact E|reflexivity]].
      * split; [reflexivity|split; first [exact E|reflexivity]].
Qed.

(** X23 for a question that holds a quotation mark and a line feed, and
    for a response with status 401. *)
Lemma request_body_reads_back_as_the_payload_witness :
  let messages := [Message (lit "system") (lit "Eres un asistente.");
                   Message (lit "user") (lit "di " ++ [34; 10]%N ++ lit "hola")] in
  JSON.parse (requestBody (requestOf (lit "hf_abc") messages)) =
    Some (payloadObject messages) /\
  query (Fetched (Response false 401 (lit "Unauthorized")
                    (Some [StreamDecoder.asciiBytes (lit "bad key")]))) =
    inr (lit "API Error: 401 Unauthorized - bad key").
Proof.
  intros messages.
  destruct (@request_body_reads_back_as_the_payload integerToString (lit "hf_abc")
              messages eq_refl) as (H1 & _ & _).
  split; [exact H1|]. vm_compute. reflexivity.
Defined.

End ApiProperties.
